(** * Voyager node core: a shallow embedding and its verified properties

  The development follows the packages of the repository:
  - [Infinity]  : overlay addresses, XOR distance, proximity order;
  - [pslice]    : the PO-indexed peer slices used by the topology;
  - [Kademlia]  : depth, saturation, closest peer, connect back-off,
                  balanced-prefix pseudo addresses;
  - [Hive]      : batched peer gossip;
  - [Ifi]       : signed peer records;
  - [Netstore]  : local store with retrieval fall-back;
  - [Localstore]: multi-get with access modes;
  - [File]      : the chunk pipe.

  Integers of Go's fixed-width types are modelled as [Z] or [nat] with the
  wrap-around written where the code can reach it; byte slices are lists
  of [Z] in the range [0, 256). *)

From Stdlib Require Import ZArith List Lia Bool.
From stdpp Require Import base list gmap.

Local Open Scope Z_scope.

(* ===================================================================== *)
(** ** Package infinity: address algebra                                  *)
(* ===================================================================== *)

Module Infinity.

(** Modelled from the spec: the largest proximity order; the package
    that declares it is not part of the sources at hand. *)
Definition MaxPO : nat := 31.

(** Modelled from the spec: bins are indexed by PO in [0, MaxPO]. *)
Definition MaxBins : nat := S MaxPO.

(** Modelled from the spec: the payload size of a chunk. *)
Definition ChunkSize : nat := 4096.

(** An overlay address is a byte slice. *)
Definition Address : Type := list Z.

Definition isByte (b : Z) : bool := (0 <=? b) && (b <? 256).

(** Well-formed overlay address: 32 bytes. *)
Definition wfAddress (a : Address) : bool :=
  (length a =? 32)%nat && forallb isByte a.

(** Every element is a byte. *)
Definition bytesOK (bs : list Z) : Prop := Forall (fun b => 0 <= b < 256) bs.

Definition Equal (a b : Address) : bool := bool_decide (a = b).

(** Bit [l] of a byte slice, counting from the most significant bit of
    the first byte. *)
Definition bitAt (a : list Z) (l : nat) : bool :=
  Z.testbit (nth (l / 8) a 0) (Z.of_nat (7 - l mod 8)).

(** Modelled from the spec: the XOR distance read as an unsigned
    big-endian integer. *)
Fixpoint beValue (l : list Z) : Z :=
  match l with
  | [] => 0
  | b :: l' => b * 256 ^ Z.of_nat (length l') + beValue l'
  end.

Fixpoint xorBytes (a x : list Z) : list Z :=
  match a, x with
  | ai :: a', xi :: x' => Z.lxor xi ai :: xorBytes a' x'
  | _, _ => []
  end.

Definition distance (a x : Address) : Z := beValue (xorBytes a x).

(** Modelled from the spec: DistanceCmp compares the distances of [x]
    and [y] to [a] byte by byte; it fails when the lengths differ.  The
    sign is the one the callers in the topology document at each call
    [DistanceCmp(addr, closest, peer)]: "case -1: current peer is
    closer", so -1 says that the third argument is closer. *)
Fixpoint distanceCmpBytes (a x y : list Z) : Z :=
  match a, x, y with
  | ai :: a', xi :: x', yi :: y' =>
      let dx := Z.lxor xi ai in
      let dy := Z.lxor yi ai in
      if dx =? dy then distanceCmpBytes a' x' y'
      else if dx <? dy then 1 else -1
  | _, _, _ => 0
  end.

Definition DistanceCmp (a x y : Address) : option Z :=
  if ((length a =? length x)%nat && (length a =? length y)%nat)
  then Some (distanceCmpBytes a x y) else None.

(** Modelled from the spec: the number of matching most-significant
    bits of two addresses. *)
Fixpoint matchingBits (fuel : nat) (l : nat) (a b : list Z) : nat :=
  match fuel with
  | O => l
  | S fuel' =>
      if Bool.eqb (bitAt a l) (bitAt b l)
      then matchingBits fuel' (S l) a b else l
  end.

(** Modelled from the spec: ExtendedProximity is the uncapped count. *)
Definition ExtendedProximity (a b : Address) : nat :=
  matchingBits (8 * Nat.min (length a) (length b)) 0 a b.

(** Modelled from the spec: Proximity is the count capped at MaxPO. *)
Definition Proximity (a b : Address) : nat :=
  Nat.min (ExtendedProximity a b) MaxPO.

End Infinity.

(* ===================================================================== *)
(** ** Package pslice: PO-indexed peer slices                             *)
(* ===================================================================== *)

Module pslice.
Import Infinity.

(** Modelled from the spec: a sequence of peer collections indexed by
    PO; the package itself is not part of the sources at hand. *)
Record PSlice : Type := mkPSlice { bins : list (list Address) }.

Definition New (maxBins : nat) : PSlice := mkPSlice (replicate maxBins []).

(** Modelled from the spec: [Length] is the total count. *)
Definition Length (s : PSlice) : nat := length (concat (bins s)).

Definition Exists (s : PSlice) (a : Address) : bool :=
  existsb (existsb (Equal a)) (bins s).

(** Modelled from the spec: insertion of an absent peer in its bin. *)
Definition Add (s : PSlice) (a : Address) (po : nat) : PSlice :=
  if Exists s a then s else mkPSlice (alter (cons a) po (bins s)).

(** Modelled from the spec: removal of a peer from its bin. *)
Definition Remove (s : PSlice) (a : Address) (po : nat) : PSlice :=
  mkPSlice (alter (List.filter (fun p => negb (Equal a p))) po (bins s)).

Fixpoint firstEmpty (i : nat) (bs : list (list Address)) : option nat :=
  match bs with
  | [] => None
  | b :: bs' => if (length b =? 0)%nat then Some i else firstEmpty (S i) bs'
  end.

(** Modelled from the spec: the shallowest bin without peers, and a
    flag telling that no bin is empty. *)
Definition ShallowestEmpty (s : PSlice) : nat * bool :=
  match firstEmpty 0 (bins s) with
  | Some i => (i, false)
  | None => (0%nat, true)
  end.

(** The three-valued answer of an iteration callback:
    (stop, jump to the next bin, error). *)
Inductive Ctl (E : Type) : Type :=
| Go : Ctl E
| Halt : Ctl E
| Fail : E -> Ctl E.
Arguments Go {E}.
Arguments Halt {E}.
Arguments Fail {E} _.

Fixpoint indexFrom (i : nat) (bs : list (list Address))
  : list (nat * list Address) :=
  match bs with
  | [] => []
  | b :: bs' => (i, b) :: indexFrom (S i) bs'
  end.

(** The bins paired with their PO, shallowest first. *)
Definition indexed (s : PSlice) : list (nat * list Address) :=
  indexFrom 0 (bins s).

Section Iteration.
Context {St E : Type}.
(* the callback threads the variables it captures as a state *)
Variable f : St -> Address -> nat -> St * (bool * bool * option E).

Fixpoint eachInBin (po : nat) (ps : list Address) (st : St)
  : St * Ctl E :=
  match ps with
  | [] => (st, Go)
  | p :: ps' =>
      match f st p po with
      | (st', (stop, next, err)) =>
          match err with
          | Some e => (st', Fail e)
          | None =>
              if stop then (st', Halt)
              else if next then (st', Go)
              else eachInBin po ps' st'
          end
      end
  end.

Fixpoint eachOfBins (bs : list (nat * list Address)) (st : St)
  : St * option E :=
  match bs with
  | [] => (st, None)
  | (po, ps) :: bs' =>
      match eachInBin po ps st with
      | (st', Go) => eachOfBins bs' st'
      | (st', Halt) => (st', None)
      | (st', Fail e) => (st', Some e)
      end
  end.

(** Modelled from the spec: closest-bin-first iteration. *)
Definition EachBin (s : PSlice) (st : St) : St * option E :=
  eachOfBins (rev (indexed s)) st.

(** Modelled from the spec: farthest-bin-first iteration. *)
Definition EachBinRev (s : PSlice) (st : St) : St * option E :=
  eachOfBins (indexed s) st.
End Iteration.

Definition flatten (bs : list (nat * list Address))
  : list (Address * nat) :=
  concat (map (fun b => map (fun p => (p, fst b)) (snd b)) bs).

(** All peers with their PO, in closest-bin-first order. *)
Definition closestFirst (s : PSlice) : list (Address * nat) :=
  flatten (rev (indexed s)).

(** All peers with their PO, in farthest-bin-first order. *)
Definition farthestFirst (s : PSlice) : list (Address * nat) :=
  flatten (indexed s).

(** An iteration over a flat list of peers whose callback never asks to
    jump to the next bin. *)
Fixpoint walkPeers {St E : Type}
  (f : St -> Address -> nat -> St * (bool * bool * option E))
  (l : list (Address * nat)) (st : St) : St * option E :=
  match l with
  | [] => (st, None)
  | p :: l' =>
      match f st (fst p) (snd p) with
      | (st', (stop, _, err)) =>
          match err with
          | Some e => (st', Some e)
          | None => if stop then (st', None) else walkPeers f l' st'
          end
      end
  end.

Definition wf (s : PSlice) : bool := (length (bins s) =? MaxBins)%nat.

(** Number of peers in one bin. *)
Definition binSize (s : PSlice) (po : nat) : nat :=
  length (nth po (bins s) []).

End pslice.

(* ===================================================================== *)
(** ** Package kademlia: the topology manager                             *)
(* ===================================================================== *)

Module Kademlia.
Import Infinity pslice.

Definition nnLowWatermark : nat := 2.
Definition maxConnAttempts : Z := 3.
Definition maxBootnodeAttempts : Z := 3.
Definition defaultBitSuffixLength : Z := 2.

(** [time.Second] in nanoseconds. *)
Definition Second : Z := 1000000000.
Definition timeToRetry : Z := 60 * Second.
Definition shortRetry : Z := 30 * Second.
Definition saturationPeers : nat := 4.
Definition overSaturationPeers : nat := 16.

Inductive Err : Type :=
| ErrNotFound                  (* topology.ErrNotFound *)
| ErrWantSelf                  (* topology.ErrWantSelf *)
| ErrOversaturated             (* topology.ErrOversaturated *)
| ErrOverlayMismatch           (* errOverlayMismatch *)
| ErrAddressLength             (* DistanceCmp on slices of unequal length *)
| ErrConnect (code : Z)        (* an error of the p2p collaborator *)
| ErrBroadcast (code : Z).     (* an error of the discovery collaborator *)

Record retryInfo : Type := mkRetry { tryAfter : Z; failedAttempts : Z }.

Definition binSaturationFunc : Type := nat -> PSlice -> PSlice -> bool * bool.

(** The node state of [Kad]; the address book is the collaborator that
    [connect] prunes, so its content is carried along. *)
Record Kad : Type := mkKad {
  base : Address;
  saturationFunc : binSaturationFunc;
  bitSuffixLength : Z;
  commonBinPrefixes : list (list Address);
  connectedPeers : PSlice;
  knownPeers : PSlice;
  depth : nat;
  waitNext : gmap Address retryInfo;
  bootnode : bool;
  addressBook : gmap Address (list Z)
}.

Definition setConnected (k : Kad) (cp : PSlice) : Kad :=
  mkKad (base k) (saturationFunc k) (bitSuffixLength k) (commonBinPrefixes k)
        cp (knownPeers k) (depth k) (waitNext k) (bootnode k) (addressBook k).

Definition setKnown (k : Kad) (kp : PSlice) : Kad :=
  mkKad (base k) (saturationFunc k) (bitSuffixLength k) (commonBinPrefixes k)
        (connectedPeers k) kp (depth k) (waitNext k) (bootnode k)
        (addressBook k).

Definition setDepth (k : Kad) (d : nat) : Kad :=
  mkKad (base k) (saturationFunc k) (bitSuffixLength k) (commonBinPrefixes k)
        (connectedPeers k) (knownPeers k) d (waitNext k) (bootnode k)
        (addressBook k).

Definition setWaitNext (k : Kad) (w : gmap Address retryInfo) : Kad :=
  mkKad (base k) (saturationFunc k) (bitSuffixLength k) (commonBinPrefixes k)
        (connectedPeers k) (knownPeers k) (depth k) w (bootnode k)
        (addressBook k).

Definition setAddressBook (k : Kad) (ab : gmap Address (list Z)) : Kad :=
  mkKad (base k) (saturationFunc k) (bitSuffixLength k) (commonBinPrefixes k)
        (connectedPeers k) (knownPeers k) (depth k) (waitNext k) (bootnode k)
        ab.

Definition setPrefixes (k : Kad) (ps : list (list Address)) : Kad :=
  mkKad (base k) (saturationFunc k) (bitSuffixLength k) ps
        (connectedPeers k) (knownPeers k) (depth k) (waitNext k) (bootnode k)
        (addressBook k).

(** The callback of [recalcDepth]: the captured [peersCtr] and
    [candidate] are the threaded state. *)
Definition depthStep (st : nat * nat) (_ : Address) (po : nat)
  : (nat * nat) * (bool * bool * option Err) :=
  let peersCtr := S (fst st) in
  if (nnLowWatermark <=? peersCtr)%nat
  then ((peersCtr, po), (true, false, None))
  else ((peersCtr, snd st), (false, false, None)).

(** recalcDepth calculates and returns the kademlia depth. *)
Definition recalcDepth (peers : PSlice) : nat :=
  if (Length peers <=? nnLowWatermark)%nat then 0%nat
  else
    let '(shallowestEmpty, noEmptyBins) := ShallowestEmpty peers in
    let candidate := snd (fst (EachBin depthStep peers (0%nat, 0%nat))) in
    if noEmptyBins || (candidate <? shallowestEmpty)%nat
    then candidate
    else shallowestEmpty.

(** The depth as the specification words it. *)
Definition shallowest_empty (s : PSlice) : nat :=
  match List.find (fun po => (binSize s po =? 0)%nat) (seq 0 MaxBins) with
  | Some po => po
  | None => (MaxPO + 1)%nat
  end.

Definition candidate_spec (s : PSlice) : nat :=
  match nth_error (closestFirst s) (nnLowWatermark - 1) with
  | Some (_, po) => po
  | None => 0%nat
  end.

Definition depth_spec (s : PSlice) : nat :=
  if (Length s <? nnLowWatermark)%nat then 0%nat
  else Nat.min (shallowest_empty s) (candidate_spec s).

Definition sizeStep (bin : nat) (size : nat) (_ : Address) (po : nat)
  : nat * (bool * bool * option Err) :=
  ((if (po =? bin)%nat then S size else size), (false, false, None)).

(** binSaturated indicates whether a certain bin is saturated or not. *)
Definition binSaturated (bin : nat) (peers connected : PSlice)
  : bool * bool :=
  let potentialDepth := recalcDepth peers in
  if (potentialDepth <=? bin)%nat then (false, false)
  else
    let size := fst (EachBin (sizeStep bin) connected 0%nat) in
    ((saturationPeers <=? size)%nat, (overSaturationPeers <=? size)%nat).

Definition NeighborhoodDepth (k : Kad) : nat := depth k.

(** Disconnected is called when peer disconnects. *)
Definition Disconnected (now : Z) (k : Kad) (peer : Address) : Kad :=
  let po := Proximity (base k) peer in
  let cp := Remove (connectedPeers k) peer po in
  let k1 := setConnected k cp in
  let k2 := setWaitNext k1
              (<[peer := mkRetry (now + timeToRetry) 0]> (waitNext k1)) in
  setDepth k2 (recalcDepth (connectedPeers k2)).

Definition announceStep (peer : Address) (addrs : list Address)
  (connectedPeer : Address) (_ : nat)
  : list Address * (bool * bool * option Err) :=
  if Equal connectedPeer peer then (addrs, (false, false, None))
  else (addrs ++ [connectedPeer], (false, false, None)).

(** announce: the peers gossiped to the new peer are collected
    farthest-bin-first; the broadcast itself is the discovery
    collaborator [bcast]. *)
Definition announce (bcast : Address -> list Address -> option Err)
  (k : Kad) (peer : Address) : option Err :=
  let addrs := fst (EachBinRev (announceStep peer) (connectedPeers k) []) in
  if (length addrs =? 0)%nat then None else bcast peer addrs.

Definition connected (bcast : Address -> list Address -> option Err)
  (k : Kad) (addr : Address) : Kad * option Err :=
  match announce bcast k addr with
  | Some e => (k, Some e)
  | None =>
      let po := Proximity (base k) addr in
      let k1 := setKnown k (Add (knownPeers k) addr po) in
      let k2 := setConnected k1 (Add (connectedPeers k1) addr po) in
      let k3 := setWaitNext k2 (delete addr (waitNext k2)) in
      (setDepth k3 (recalcDepth (connectedPeers k3)), None)
  end.

(** Connected is called when a peer has dialed in. *)
Definition Connected (bcast : Address -> list Address -> option Err)
  (k : Kad) (peer : Address) : Kad * option Err :=
  let po := Proximity (base k) peer in
  if negb (bootnode k)
     && snd (saturationFunc k po (knownPeers k) (connectedPeers k))
  then (k, Some ErrOversaturated)
  else connected bcast k peer.

Definition isIn (a : Address) (addresses : list Address) : bool :=
  existsb (fun v => Equal v a) addresses.

(** The callback of [ClosestPeer]; the captured [closest] and
    [peersToDisconnect] are the threaded state. *)
Definition closestStep (addr : Address) (skipPeers peers : list Address)
  (st : Address * list Address) (peer : Address) (_ : nat)
  : (Address * list Address) * (bool * bool * option Err) :=
  if existsb (fun a => Equal a peer) skipPeers
  then (st, (false, false, None))
  else if negb (isIn peer peers)
  then ((fst st, snd st ++ [peer]), (false, false, None))
  else
    match DistanceCmp addr (fst st) peer with
    | None => (st, (false, false, Some ErrAddressLength))
    | Some dcmp =>
        if dcmp =? -1 then ((peer, snd st), (false, false, None))
        else (st, (false, false, None))
    end.

(** ClosestPeer returns the closest peer to a given address; [peers] is
    the answer of the p2p collaborator's [Peers()]. *)
Definition ClosestPeer (now : Z) (peers : list Address) (k : Kad)
  (addr : Address) (skipPeers : list Address) : Kad * (Address + Err) :=
  if (Length (connectedPeers k) =? 0)%nat then (k, inr ErrNotFound)
  else
    match EachBinRev (closestStep addr skipPeers peers) (connectedPeers k)
                     (base k, []) with
    | (_, Some e) => (k, inr e)
    | ((closest, peersToDisconnect), None) =>
        let k' := fold_left (Disconnected now) peersToDisconnect k in
        if Equal closest (base k') then (k', inr ErrWantSelf)
        else (k', inl closest)
    end.

(** The answers of the p2p collaborator's [Connect]. *)
Inductive ConnectResult : Type :=
| ConnectOK (overlay : Address)
| ConnectAlready (overlay : Address)  (* p2p.ErrAlreadyConnected *)
| ConnectBackoff (after : Z)          (* *p2p.ConnectionBackoffError *)
| ConnectFailed (code : Z).           (* any other error *)

(** The failure branch of [connect]. *)
Definition connectFailure (now : Z) (k : Kad) (peer : Address)
  (backoff : option Z) (e : Err) : Kad * option Err :=
  let retryTime :=
    match backoff with Some after => after | None => now + timeToRetry end in
  let failedAttempts :=
    match backoff with
    | Some _ => 0
    | None =>
        match waitNext k !! peer with
        | Some info => failedAttempts info
        | None => 0
        end + 1
    end in
  if maxConnAttempts <? failedAttempts
  then
    let k1 := setWaitNext k (delete peer (waitNext k)) in
    (setAddressBook k1 (delete peer (addressBook k1)), Some e)
  else
    (setWaitNext k (<[peer := mkRetry retryTime failedAttempts]> (waitNext k)),
     Some e).

(** connect connects to a peer and gossips its address. *)
Definition connect (res : ConnectResult)
  (bcast : Address -> list Address -> option Err) (now : Z)
  (k : Kad) (peer : Address) : Kad * option Err :=
  match res with
  | ConnectAlready overlay =>
      if negb (Equal overlay peer) then (k, Some ErrOverlayMismatch)
      else (k, None)
  | ConnectBackoff after =>
      connectFailure now k peer (Some after) (ErrConnect 0)
  | ConnectFailed code =>
      connectFailure now k peer None (ErrConnect code)
  | ConnectOK overlay =>
      if negb (Equal overlay peer) then (k, Some ErrOverlayMismatch)
      else (k, announce bcast k peer)
  end.

(** A run of connect attempts to one peer that all fail with a plain
    error, at the given instants. *)
Definition connectFailures (k : Kad) (peer : Address) (times : list Z)
  : Kad :=
  fold_left
    (fun k now => fst (connect (ConnectFailed 1) (fun _ _ => None) now k peer))
    times k.

(** *** Balanced-prefix pseudo addresses *)

Definition uint8 (z : Z) : Z := z mod 256.

(** [bits.Reverse8] of the Go library: bit [i] moves to bit [7 - i]. *)
Definition Reverse8 (b : Z) : Z :=
  fold_left
    (fun acc i =>
       Z.lor acc (if Z.testbit b (Z.of_nat i)
                  then Z.shiftl 1 (Z.of_nat (7 - i)) else 0))
    (seq 0 8) 0.

(** Clears the bit at pos in n. *)
Definition clearBit (n pos : Z) : Z :=
  let mask := Z.lxor 255 (uint8 (Z.shiftl 1 pos)) in
  Z.land n mask.

(** Sets the bit at pos in the integer n. *)
Definition setBit (n pos : Z) : Z := Z.lor n (uint8 (Z.shiftl 1 pos)).

Definition hasBit (n pos : Z) : bool :=
  let val := Z.land n (uint8 (Z.shiftl 1 pos)) in
  0 <? val.

(** An update of one byte of a slice; an index out of range panics,
    which is [None]. *)
Definition updateByte (bs : list Z) (index : nat) (f : Z -> Z)
  : option (list Z) :=
  match bs !! index with
  | Some b => Some (<[index := f b]> bs)
  | None => None
  end.

Definition setBitMSB (pos : nat) (b : Z) : Z :=
  Reverse8 (setBit (Reverse8 b) (uint8 (Z.of_nat pos))).

Definition clearBitMSB (pos : nat) (b : Z) : Z :=
  Reverse8 (clearBit (Reverse8 b) (uint8 (Z.of_nat pos))).

(** "flip first bit for bin" *)
Definition flipBinBit (bs : list Z) (i : nat) : option (list Z) :=
  let indexByte := (i / 8)%nat in
  let posBit := (i mod 8)%nat in
  updateByte bs indexByte
    (fun b => if hasBit (Reverse8 b) (uint8 (Z.of_nat posBit))
              then clearBitMSB posBit b else setBitMSB posBit b).

(** "set pseudo suffix": [n] bits from position [l] on, taken from
    [suffix] at [bitSuffixPos], [bitSuffixPos - 1], ... *)
Fixpoint setSuffix (n : nat) (l : nat) (bitSuffixPos : Z) (suffix : Z)
  (bs : list Z) : option (list Z) :=
  match n with
  | O => Some bs
  | S n' =>
      let index := (l / 8)%nat in
      let pos := (l mod 8)%nat in
      match updateByte bs index
              (if hasBit suffix (uint8 bitSuffixPos)
               then setBitMSB pos else clearBitMSB pos) with
      | Some bs' => setSuffix n' (S l) (bitSuffixPos - 1) suffix bs'
      | None => None
      end
  end.

(** "clear rest of the bits": [n] bits from position [l] on. *)
Fixpoint clearRest (n : nat) (l : nat) (bs : list Z) : option (list Z) :=
  match n with
  | O => Some bs
  | S n' =>
      match updateByte bs (l / 8)%nat (clearBitMSB (l mod 8)%nat) with
      | Some bs' => clearRest n' (S l) bs'
      | None => None
      end
  end.

(** The pseudo address of bin [i] and enumeration index [j]: a copy of
    the base address, rewritten in place. *)
Definition pseudoAddress (baseBytes : list Z) (bitSuffixLength : nat)
  (i j : nat) : option Address :=
  let bitSufix := uint8 (Z.of_nat j) in
  match flipBinBit baseBytes i with
  | None => None
  | Some bs1 =>
      match setSuffix bitSuffixLength (i + 1)
              (Z.of_nat bitSuffixLength - 1) bitSufix bs1 with
      | None => None
      | Some bs2 =>
          clearRest (length bs2 * 8 - (i + bitSuffixLength + 1))
                    (i + bitSuffixLength + 1) bs2
      end
  end.

Fixpoint allSome {A : Type} (l : list (option A)) : option (list A) :=
  match l with
  | [] => Some []
  | None :: _ => None
  | Some x :: l' =>
      match allSome l' with
      | Some xs => Some (x :: xs)
      | None => None
      end
  end.

(** Only called with a positive [bitSuffixLength]. *)
Definition generateCommonBinPrefixes (k : Kad) : option Kad :=
  let bitCombinationsCount := Z.to_nat (2 ^ bitSuffixLength k) in
  let rows :=
    map (fun i =>
           allSome (map (pseudoAddress (base k)
                           (Z.to_nat (bitSuffixLength k)) i)
                        (seq 0 bitCombinationsCount)))
        (seq 0 (length (commonBinPrefixes k))) in
  match allSome rows with
  | Some binPrefixes => Some (setPrefixes k binPrefixes)
  | None => None
  end.

(** New returns a new Kademlia. *)
Definition New (base : Address) (bitSuffixLength : Z) (bootnodeMode : bool)
  : option Kad :=
  let bsl := if bitSuffixLength =? 0 then defaultBitSuffixLength
             else bitSuffixLength in
  let k := mkKad base binSaturated bsl (replicate MaxBins [])
                 (pslice.New MaxBins) (pslice.New MaxBins) 0 ∅
                 bootnodeMode ∅ in
  if 0 <? bsl then generateCommonBinPrefixes k else Some k.

(** The pseudo address as the specification words it: the base address
    with bit [i] flipped, the next [bitSuffixLength] bits the binary
    encoding of [j], the remaining bits zero. *)
Definition pseudoBit (baseBytes : list Z) (bitSuffixLength i j l : nat)
  : bool :=
  if (l <? i)%nat then bitAt baseBytes l
  else if (l =? i)%nat then negb (bitAt baseBytes i)
  else if (l <? i + bitSuffixLength + 1)%nat
       then Z.testbit (Z.of_nat j) (Z.of_nat (i + bitSuffixLength - l))
       else false.

(** A table check of the byte operations, over all bytes and bit
    positions: setting or clearing bit [pos] counted from the most
    significant bit changes that bit only, and [hasBit] reads bits. *)
Definition byteOpsAt (bz : Z) (pos k : nat) : bool :=
  Bool.eqb (Z.testbit (setBitMSB pos bz) (Z.of_nat (7 - k)))
           ((k =? pos)%nat || Z.testbit bz (Z.of_nat (7 - k)))
  && Bool.eqb (Z.testbit (clearBitMSB pos bz) (Z.of_nat (7 - k)))
              (negb (k =? pos)%nat && Z.testbit bz (Z.of_nat (7 - k))).

Definition byteOpsPos (bz : Z) (pos : nat) : bool :=
  isByte (setBitMSB pos bz) && isByte (clearBitMSB pos bz)
  && Bool.eqb (hasBit (Reverse8 bz) (uint8 (Z.of_nat pos)))
              (Z.testbit bz (Z.of_nat (7 - pos)))
  && Bool.eqb (hasBit bz (uint8 (Z.of_nat pos)))
              (Z.testbit bz (Z.of_nat pos))
  && forallb (byteOpsAt bz pos) (seq 0 8).

Definition byteOpsCheck : bool :=
  forallb (fun b => forallb (byteOpsPos (Z.of_nat b)) (seq 0 8)) (seq 0 256).

(** The failed-attempts counter of a peer; 0 without a retry entry. *)
Definition attemptsOf (k : Kad) (peer : Address) : Z :=
  match waitNext k !! peer with
  | Some info => failedAttempts info
  | None => 0
  end.

(** The number of peers of a slice whose PO equals [bin]. *)
Definition countPO (s : PSlice) (bin : nat) : nat :=
  length (List.filter (fun x => (snd x =? bin)%nat) (closestFirst s)).

Definition skipped (skipPeers : list Address) (p : Address) : bool :=
  existsb (fun a => Equal a p) skipPeers.

(** The connected peers that [ClosestPeer] compares: not skipped and
    present in the peer list of the p2p layer; farthest bin first. *)
Definition eligible (skipPeers peers : list Address) (l : list Address)
  : list Address :=
  List.filter (fun p => negb (skipped skipPeers p) && isIn p peers) l.

(** The connected peers that [ClosestPeer] disconnects: not skipped and
    absent from the peer list of the p2p layer. *)
Definition stale (skipPeers peers : list Address) (l : list Address)
  : list Address :=
  List.filter (fun p => negb (skipped skipPeers p) && negb (isIn p peers)) l.

Definition peersOf (s : PSlice) : list Address := map fst (farthestFirst s).

(** *** The rest of the topology interface *)

(** The zero value [infinity.Address{}] that [closestPeer] starts from: an
    address without bytes; [IsZero] is equality with it. *)
Definition ZeroAddress : Address := [].

Definition IsZero (a : Address) : bool := Equal a ZeroAddress.

Definition noopSanctionedPeerFn (_ : Address) : bool := false.

(** The callback of [closestPeer]; the captured [closest] is the
    threaded state. *)
Definition closestPeerStep (addr : Address) (spf : Address -> bool)
  (skipPeers : list Address) (closest : Address) (peer : Address)
  (_ : nat) : Address * (bool * bool * option Err) :=
  if existsb (fun a => Equal a peer) skipPeers
  then (closest, (false, false, None))
  else if spf peer
  then (closest, (false, false, None))
  else if IsZero closest
  then (peer, (false, false, None))
  else
    match DistanceCmp addr closest peer with
    | None => (closest, (false, false, Some ErrAddressLength))
    | Some dcmp =>
        if dcmp =? -1 then (peer, (false, false, None))
        else (closest, (false, false, None))
    end.

(** closestPeer: the closest peer of a slice that is neither skipped nor
    sanctioned. *)
Definition closestPeer (peers : PSlice) (addr : Address)
  (spf : Address -> bool) (skipPeers : list Address) : Address + Err :=
  match EachBinRev (closestPeerStep addr spf skipPeers) peers ZeroAddress with
  | (_, Some e) => inr e
  | (closest, None) =>
      if IsZero closest then inr ErrNotFound else inl closest
  end.

(** The peers that [closestPeer] compares: neither skipped nor
    sanctioned. *)
Definition candidates (spf : Address -> bool) (skipPeers : list Address)
  (l : list Address) : list Address :=
  List.filter (fun p => negb (skipped skipPeers p) && negb (spf p)) l.

(** The loop of IsBalanced over the pseudo addresses of a bin. *)
Fixpoint balancedFor (k : Kad) (bin : nat) (pseudo : list Address) : bool :=
  match pseudo with
  | [] => true
  | pseudoAddr :: rest =>
      match closestPeer (connectedPeers k) pseudoAddr noopSanctionedPeerFn
                        [ZeroAddress] with
      | inr _ => false
      | inl closestConnectedPeer =>
          let closestConnectedPO :=
            ExtendedProximity closestConnectedPeer pseudoAddr in
          if Z.of_nat closestConnectedPO
             <? Z.of_nat bin + bitSuffixLength k + 1
          then false
          else balancedFor k bin rest
      end
  end.

(** IsBalanced returns if Kademlia is balanced to bin; an index out of
    range panics, which is [None]. *)
Definition IsBalanced (k : Kad) (bin : nat) : option bool :=
  if (length (commonBinPrefixes k) <? bin)%nat then Some false
  else
    match commonBinPrefixes k !! bin with
    | None => None
    | Some row => Some (balancedFor k bin row)
    end.

(** AddPeers adds peers to the knownPeers list. *)
Definition AddPeers (k : Kad) (addrs : list Address) : Kad :=
  fold_left
    (fun k addr =>
       if Exists (knownPeers k) addr then k
       else
         let po := Proximity (base k) addr in
         setKnown k (Add (knownPeers k) addr po))
    addrs k.

Definition Pick (k : Kad) (peer : Address) : bool :=
  if bootnode k then true
  else
    let po := Proximity (base k) peer in
    negb (snd (saturationFunc k po (knownPeers k) (connectedPeers k))).

(** The peers that [announce] sends to a newly connected peer. *)
Definition announced (k : Kad) (peer : Address) : list Address :=
  fst (EachBinRev (E:=Err) (announceStep peer) (connectedPeers k) []).

(** A run of connect attempts that all fail with a back-off hint. *)
Definition connectBackoffs (k : Kad) (peer : Address) (hints : list (Z * Z))
  : Kad :=
  fold_left
    (fun k h =>
       fst (connect (ConnectBackoff (snd h)) (fun _ _ => None) (fst h) k peer))
    hints k.

(** Every peer of a slice sits in the bin of its proximity to [base],
    and no peer is stored twice. *)
Definition sliceOK (base : Address) (s : PSlice) : Prop :=
  wf s = true
  /\ NoDup (peersOf s)
  /\ forall p po, In (p, po) (farthestFirst s) -> po = Proximity base p.

(** Sample data: a slice with the given bins (shallowest first), padded
    with empty bins up to MaxBins; and a node around it. *)
Definition sliceOf (bs : list (list Address)) : PSlice :=
  mkPSlice (bs ++ replicate (MaxBins - length bs) []).

Definition addrOf (b : Z) : Address := b :: replicate 31 0.

Definition nodeOf (known connected : PSlice) : Kad :=
  mkKad (addrOf 0) binSaturated defaultBitSuffixLength [] connected known
        (recalcDepth connected) ∅ false ∅.

End Kademlia.

(* ===================================================================== *)
(** ** Package hive: peer gossip                                          *)
(* ===================================================================== *)

Module Hive.
Import Infinity.

Definition maxBatchSize : nat := 30.

(** A signed peer record of the address book. *)
Record IfiAddress : Type := mkIfi {
  Overlay : Address;
  Underlay : list Z;
  Signature : list Z
}.

Inductive Err : Type :=
| ErrNewStream (code : Z)     (* "new stream: ..." *)
| ErrAddressBook (code : Z)   (* an I/O error of the address book *)
| ErrWriteMsg (code : Z).     (* "write Peers message: ..." *)

(** The answers of [addressBook.Get]. *)
Inductive GetResult : Type :=
| Found (a : IfiAddress)
| NotFound                    (* addressbook.ErrNotFound *)
| GetFailed (code : Z).

(** What happens on the streams, in order. *)
Inductive Event : Type :=
| NewStream (stream : nat) (peer : Address)
| WriteMsg (stream : nat) (peers : list IfiAddress)
| FullClose (stream : nat)
| Reset (stream : nat).

(** The collaborators: the address book and the streamer, which answers
    by the number of the stream. *)
Record Env : Type := mkEnv {
  abGet : Address -> GetResult;
  newStreamErr : nat -> option Z;
  writeMsgErr : nat -> option Z
}.

(** The records of a Peers message: peers without an address-book entry
    are skipped, any other address-book error aborts. *)
Fixpoint peersRequest (env : Env) (peers : list Address)
  : list IfiAddress + Err :=
  match peers with
  | [] => inl []
  | p :: peers' =>
      match abGet env p with
      | GetFailed code => inr (ErrAddressBook code)
      | NotFound => peersRequest env peers'
      | Found addr =>
          match peersRequest env peers' with
          | inl rs => inl (addr :: rs)
          | inr e => inr e
          end
      end
  end.

(** sendPeers: one stream, one Peers message; [n] numbers the stream. *)
Definition sendPeers (env : Env) (n : nat) (peer : Address)
  (peers : list Address) : list Event * option Err :=
  match newStreamErr env n with
  | Some code => ([], Some (ErrNewStream code))
  | None =>
      match peersRequest env peers with
      | inr e => ([NewStream n peer; Reset n], Some e)
      | inl request =>
          match writeMsgErr env n with
          | Some code =>
              ([NewStream n peer; Reset n], Some (ErrWriteMsg code))
          | None =>
              ([NewStream n peer; WriteMsg n request; FullClose n], None)
          end
      end
  end.

(** The loop of BroadcastPeers; the fuel bounds the iterations. *)
Fixpoint broadcastLoop (fuel : nat) (env : Env) (n : nat)
  (addressee : Address) (max : nat) (peers : list Address)
  : option (list Event * option Err) :=
  if (0 <? length peers)%nat then
    match fuel with
    | O => None
    | S fuel' =>
        let max := if (length peers <? max)%nat then length peers else max in
        match sendPeers env n addressee (take max peers) with
        | (ev, Some e) => Some (ev, Some e)
        | (ev, None) =>
            match broadcastLoop fuel' env (S n) addressee max
                                (drop max peers) with
            | Some (ev', r) => Some (ev ++ ev', r)
            | None => None
            end
        end
    end
  else Some ([], None).

Definition BroadcastPeers (env : Env) (n : nat) (addressee : Address)
  (peers : list Address) : option (list Event * option Err) :=
  broadcastLoop (length peers) env n addressee maxBatchSize peers.

(** The consecutive batches of at most [maxBatchSize] peers. *)
Definition batches (peers : list Address) : list (list Address) :=
  map (fun i => take maxBatchSize (drop (maxBatchSize * i) peers))
      (seq 0 ((length peers + (maxBatchSize - 1)) / maxBatchSize)).

(** The records a batch is sent with. *)
Fixpoint recordsOf (env : Env) (batch : list Address) : list IfiAddress :=
  match batch with
  | [] => []
  | p :: batch' =>
      match abGet env p with
      | Found a => a :: recordsOf env batch'
      | _ => recordsOf env batch'
      end
  end.

(** The events of sending the given batches on streams [n], [n+1], ... *)
Fixpoint sendAll (env : Env) (n : nat) (addressee : Address)
  (bs : list (list Address)) : list Event :=
  match bs with
  | [] => []
  | b :: bs' =>
      [NewStream n addressee; WriteMsg n (recordsOf env b); FullClose n]
      ++ sendAll env (S n) addressee bs'
  end.

(** The Peers messages of a trace. *)
Definition messages (ev : list Event) : list (list IfiAddress) :=
  omap (fun e => match e with WriteMsg _ m => Some m | _ => None end) ev.

(** Sample collaborators: an address book that knows the peers with an
    even first byte, and a streamer that never fails. *)
Definition sampleEnv : Env :=
  mkEnv (fun p => match p with
                  | b :: _ => if Z.even b then Found (mkIfi p [4; b] [9])
                              else NotFound
                  | [] => NotFound
                  end)
        (fun _ => None) (fun _ => None).

Definition samplePeers (n : nat) : list Address :=
  map (fun i => [Z.of_nat i]) (seq 0 n).

End Hive.

(* ===================================================================== *)
(** ** Package ifi: signed peer records                                   *)
(* ===================================================================== *)

Module Ifi.
Import Infinity.

Inductive Err : Type := ErrInvalidAddress.

Section Crypto.
(** The cryptographic and transport collaborators. *)
Context {PublicKey Multiaddr : Type}.
Variable Recover : list Z -> list Z -> option PublicKey.
Variable NewOverlayAddress : PublicKey -> Z -> option Address.
Variable NewMultiaddrBytes : list Z -> option Multiaddr.

Record IfiAddr : Type := mkIfiAddr {
  Underlay : Multiaddr;
  Overlay : Address;
  Signature : list Z
}.

(** [binary.BigEndian.PutUint64] on an 8-byte buffer. *)
Definition putUint64BE (v : Z) : list Z :=
  map (fun i => (v mod 2 ^ 64) / 2 ^ (8 * (7 - Z.of_nat i)) mod 256)
      (seq 0 8).

(** The bytes of "voyager-handshake-". *)
Definition handshakePrefix : list Z :=
  [118; 111; 121; 97; 103; 101; 114; 45;
   104; 97; 110; 100; 115; 104; 97; 107; 101; 45].

Definition generateSignData (underlay overlay : list Z) (networkID : Z)
  : list Z :=
  let networkIDBytes := putUint64BE networkID in
  let signData := handshakePrefix ++ underlay in
  let signData := signData ++ overlay in
  signData ++ networkIDBytes.

Definition ParseAddress (underlay overlay signature : list Z)
  (networkID : Z) : IfiAddr + Err :=
  match Recover signature (generateSignData underlay overlay networkID) with
  | None => inr ErrInvalidAddress
  | Some recoveredPK =>
      match NewOverlayAddress recoveredPK networkID with
      | None => inr ErrInvalidAddress
      | Some recoveredOverlay =>
          if negb (bool_decide (recoveredOverlay = overlay))
          then inr ErrInvalidAddress
          else
            match NewMultiaddrBytes underlay with
            | None => inr ErrInvalidAddress
            | Some multiUnderlay =>
                inl (mkIfiAddr multiUnderlay overlay signature)
            end
      end
  end.

(** The signature verifies: it recovers a key whose overlay for the
    network is the given overlay. *)
Definition verifies (underlay overlay signature : list Z) (networkID : Z)
  : Prop :=
  exists pk,
    Recover signature (generateSignData underlay overlay networkID) = Some pk
    /\ NewOverlayAddress pk networkID = Some overlay.

End Crypto.

(** Sample collaborators: a signature is the signed data followed by the
    key byte; the overlay of a key is the key byte followed by the
    network id; an underlay must not be empty. *)
Definition toyRecover (signature data : list Z) : option Z :=
  match List.rev signature with
  | key :: rdata =>
      if bool_decide (List.rev rdata = data) then Some key else None
  | [] => None
  end.

Definition toyOverlay (key : Z) (networkID : Z) : option Address :=
  Some [key; networkID].

Definition toyMultiaddr (underlay : list Z) : option (list Z) :=
  match underlay with
  | [] => None
  | _ => Some underlay
  end.

Definition toySign (key : Z) (data : list Z) : list Z := data ++ [key].

(** The signing side: the signer and the multiaddress codec are
    collaborators. *)
Inductive NewErr : Type :=
| ErrMarshal     (* the error of [underlay.MarshalBinary] *)
| ErrSign.       (* the error of [signer.Sign] *)

Section Signing.
Context {Multiaddr : Type}.
Variable Sign : list Z -> option (list Z).
Variable MarshalBinary : Multiaddr -> option (list Z).

Definition NewAddress (underlay : Multiaddr) (overlay : Address)
  (networkID : Z) : @IfiAddr Multiaddr + NewErr :=
  match MarshalBinary underlay with
  | None => inr ErrMarshal
  | Some underlayBinary =>
      match Sign (generateSignData underlayBinary overlay networkID) with
      | None => inr ErrSign
      | Some signature => inl (mkIfiAddr underlay overlay signature)
      end
  end.

End Signing.

End Ifi.

(* ===================================================================== *)
(** ** Package hive: the inbound side                                     *)
(* ===================================================================== *)

Module HivePeers.
Import Infinity.

Inductive Err : Type :=
| ErrReadMsg (code : Z)       (* "read requestPeers message: ..." *)
| ErrAddPeers (code : Z).     (* the error of the add-peers handler *)

Inductive StreamEvent : Type :=
| StreamReset
| StreamFullClose.

Section Handler.
Context {PublicKey Multiaddr : Type}.
Variable Recover : list Z -> list Z -> option PublicKey.
Variable NewOverlayAddress : PublicKey -> Z -> option Address.
Variable NewMultiaddrBytes : list Z -> option Multiaddr.
(** [addressBook.Put] stores the record unless the state store fails. *)
Variable putErr : Address -> option Z.
Variable networkID : Z.

(** The loop of [peersHandler] over the records of the message; the
    address book and the collected [peers] are the threaded state. *)
Fixpoint acceptPeers (book : gmap Address (@Ifi.IfiAddr Multiaddr))
  (peers : list Address) (req : list Hive.IfiAddress)
  : gmap Address (@Ifi.IfiAddr Multiaddr) * list Address :=
  match req with
  | [] => (book, peers)
  | newPeer :: rest =>
      match Ifi.ParseAddress Recover NewOverlayAddress NewMultiaddrBytes
              (Hive.Underlay newPeer) (Hive.Overlay newPeer)
              (Hive.Signature newPeer) networkID with
      | inr _ => acceptPeers book peers rest
      | inl ifiAddress =>
          match putErr (Ifi.Overlay ifiAddress) with
          | Some _ => acceptPeers book peers rest
          | None =>
              acceptPeers (<[Ifi.Overlay ifiAddress := ifiAddress]> book)
                          (peers ++ [Ifi.Overlay ifiAddress]) rest
          end
      end
  end.

Record Outcome : Type := mkOutcome {
  book' : gmap Address (@Ifi.IfiAddr Multiaddr);
  stream : list StreamEvent;
  handed : option (list Address);   (* the call of the add-peers handler *)
  result : option Err
}.

(** peersHandler: [msg] is what reading the Peers message gives;
    [addPeersHandler] answers with the code of its error, if any. *)
Definition peersHandler
  (addPeersHandler : option (list Address -> option Z))
  (book : gmap Address (@Ifi.IfiAddr Multiaddr))
  (msg : list Hive.IfiAddress + Z) : Outcome :=
  match msg with
  | inr code => mkOutcome book [StreamReset] None (Some (ErrReadMsg code))
  | inl peersReq =>
      let '(book1, peers) := acceptPeers book [] peersReq in
      match addPeersHandler with
      | None => mkOutcome book1 [StreamFullClose] None None
      | Some h =>
          match h peers with
          | Some code =>
              mkOutcome book1 [StreamFullClose] (Some peers)
                        (Some (ErrAddPeers code))
          | None => mkOutcome book1 [StreamFullClose] (Some peers) None
          end
      end
  end.

(** The records of a message that the handler accepts. *)
Definition accepted (r : Hive.IfiAddress) : bool :=
  match Ifi.ParseAddress Recover NewOverlayAddress NewMultiaddrBytes
          (Hive.Underlay r) (Hive.Overlay r) (Hive.Signature r)
          networkID with
  | inr _ => false
  | inl ifiAddress =>
      match putErr (Ifi.Overlay ifiAddress) with
      | Some _ => false
      | None => true
      end
  end.

End Handler.

End HivePeers.

(* ===================================================================== *)
(** ** Package netstore: local store with retrieval fall-back             *)
(* ===================================================================== *)

Module Netstore.
Import Infinity.

Inductive ModeGet : Type :=
| ModeGetRequest | ModeGetSync | ModeGetLookup | ModeGetPin.

Inductive ModePut : Type :=
| ModePutRequest | ModePutSync | ModePutUpload | ModePutUploadPin.

Record Chunk : Type := mkChunk { chunkAddress : Address; chunkData : list Z }.

(** Where a wrapped error comes from. *)
Inductive Wrapper : Type :=
| NetstoreGet            (* "netstore get: %w" *)
| NetstoreRetrievePut    (* "netstore retrieve put: %w" *)
| Collaborator.          (* a wrapping done by a collaborator *)

Inductive Err : Type :=
| ErrNotFound                       (* storage.ErrNotFound *)
| ErrRecoveryAttempt                (* ErrRecoveryAttempt *)
| ErrOther (code : Z)               (* any other error value *)
| ErrWrap (w : Wrapper) (e : Err).  (* fmt.Errorf("...: %w", e) *)

(** [errors.Is(e, storage.ErrNotFound)]: the chain of wrapped errors
    holds the sentinel. *)
Fixpoint isNotFound (e : Err) : bool :=
  match e with
  | ErrNotFound => true
  | ErrWrap _ e' => isNotFound e'
  | _ => false
  end.

(** Calls to the collaborators, in order. *)
Inductive Event (Targets : Type) : Type :=
| StorerGet (mode : ModeGet) (addr : Address)
| RetrieveChunk (addr : Address)
| StorerPut (mode : ModePut) (ch : Chunk)
| GoRecovery (addr : Address) (targets : Targets).
Arguments StorerGet {Targets} _ _.
Arguments RetrieveChunk {Targets} _.
Arguments StorerPut {Targets} _ _.
Arguments GoRecovery {Targets} _ _.

Section Store.
Context {S Targets : Type}.

(** The wrapped [storage.Storer] over its own state. *)
Record Storer : Type := mkStorer {
  storerGet : S -> ModeGet -> Address -> S * (Chunk + Err);
  storerPut : S -> ModePut -> Chunk -> S * (bool + Err)
}.

Record store : Type := mkStore {
  storer : Storer;
  retrieval : Address -> Chunk + Err;
  recoveryCallback : bool     (* whether a callback is registered *)
}.

(** Get retrieves a given chunk address; [targets] is what the request
    context carries ([None] for a nil value). *)
Definition Get (s : store) (targets : option Targets) (st : S)
  (mode : ModeGet) (addr : Address)
  : S * list (Event Targets) * (Chunk + Err) :=
  match storerGet (storer s) st mode addr with
  | (st1, inl ch) => (st1, [StorerGet mode addr], inl ch)
  | (st1, inr err) =>
      if isNotFound err then
        match retrieval s addr with
        | inr err' =>
            match targets, recoveryCallback s with
            | Some t, true =>
                (st1, [StorerGet mode addr; RetrieveChunk addr;
                       GoRecovery addr t], inr ErrRecoveryAttempt)
            | _, _ =>
                (st1, [StorerGet mode addr; RetrieveChunk addr], inr err')
            end
        | inl ch =>
            match storerPut (storer s) st1 ModePutRequest ch with
            | (st2, inr e) =>
                (st2, [StorerGet mode addr; RetrieveChunk addr;
                       StorerPut ModePutRequest ch],
                 inr (ErrWrap NetstoreRetrievePut e))
            | (st2, inl _) =>
                (st2, [StorerGet mode addr; RetrieveChunk addr;
                       StorerPut ModePutRequest ch], inl ch)
            end
        end
      else (st1, [StorerGet mode addr], inr (ErrWrap NetstoreGet err))
  end.

(** The recovery callbacks scheduled by a trace. *)
Definition recoveries (ev : list (Event Targets))
  : list (Address * Targets) :=
  omap (fun e => match e with GoRecovery a t => Some (a, t) | _ => None end)
       ev.

End Store.

(** Sample collaborators: a store backed by a map; one whose Put
    fails; a network that has one chunk; one that times out. *)
Definition mapStorer : @Storer (gmap Address Chunk) :=
  mkStorer
    (fun m _ addr =>
       match m !! addr with
       | Some ch => (m, inl ch)
       | None => (m, inr ErrNotFound)
       end)
    (fun m _ ch =>
       (<[chunkAddress ch := ch]> m,
        inl (bool_decide (is_Some (m !! chunkAddress ch))))).

Definition fullStorer : @Storer (gmap Address Chunk) :=
  mkStorer (storerGet mapStorer) (fun m _ _ => (m, inr (ErrOther 28))).

Definition sampleChunk : Chunk := mkChunk [7] [1; 2; 3].

Definition networkWith (ch : Chunk) (addr : Address) : Chunk + Err :=
  if bool_decide (addr = chunkAddress ch) then inl ch else inr ErrNotFound.

Definition networkTimeout (_ : Address) : Chunk + Err := inr (ErrOther 110).

End Netstore.

(* ===================================================================== *)
(** ** Package localstore: multi-get                                      *)
(* ===================================================================== *)

Module Localstore.
Import Infinity.

Inductive ModeGet : Type :=
| ModeGetRequest
| ModeGetSync
| ModeGetLookup
| ModeGetPin
| ModeGetUnknown (n : Z).   (* any other value of the integer type *)

Inductive Err : Type :=
| ErrLevelDBNotFound   (* leveldb.ErrNotFound *)
| ErrInvalidMode.

(** The fields of [shed.Item] that the indexes at hand use. *)
Record Item : Type := mkItem {
  Address_ : Address;
  Data : list Z;
  AccessTimestamp : Z;
  StoreTimestamp : Z;
  PinCounter : Z
}.

(** Modelled from the spec: the indexes of the chunk store; the
    retrieval index keeps the data, the access index the access
    timestamp, the GC index the eviction order, the pin index the
    counters. *)
Record DB : Type := mkDB {
  retrievalDataIndex : gmap Address (Z * list Z);
  retrievalAccessIndex : gmap Address Z;
  gcIndex : gset (Z * Address);
  pinIndex : gmap Address Z;
  pushIndex : gset (Z * Address)
}.

(** Modelled from the spec: [Index.Fill] completes every item from the
    index entry of its key, and fails when one key is absent. *)
Fixpoint fillData (idx : gmap Address (Z * list Z)) (items : list Item)
  : list Item + Err :=
  match items with
  | [] => inl []
  | it :: items' =>
      match idx !! Address_ it with
      | None => inr ErrLevelDBNotFound
      | Some (ts, data) =>
          match fillData idx items' with
          | inl out =>
              inl (mkItem (Address_ it) data (AccessTimestamp it) ts
                          (PinCounter it) :: out)
          | inr e => inr e
          end
      end
  end.

Fixpoint fillPin (idx : gmap Address Z) (items : list Item)
  : list Item + Err :=
  match items with
  | [] => inl []
  | it :: items' =>
      match idx !! Address_ it with
      | None => inr ErrLevelDBNotFound
      | Some counter =>
          match fillPin idx items' with
          | inl out =>
              inl (mkItem (Address_ it) (Data it) (AccessTimestamp it)
                          (StoreTimestamp it) counter :: out)
          | inr e => inr e
          end
      end
  end.

(** Modelled from the spec: the GC update of one chunk sets its access
    timestamp to the present and moves its entry of the GC index. *)
Definition updateGC (now : Z) (db : DB) (item : Item) : DB :=
  let addr := Address_ item in
  let gc :=
    match retrievalAccessIndex db !! addr with
    | Some old => gcIndex db ∖ {[ (old, addr) ]}
    | None => gcIndex db
    end in
  mkDB (retrievalDataIndex db)
       (<[addr := now]> (retrievalAccessIndex db))
       (gc ∪ {[ (now, addr) ]})
       (pinIndex db)
       (pushIndex db).

Definition updateGCItems (now : Z) (db : DB) (items : list Item) : DB :=
  fold_left (updateGC now) items db.

(** getMulti returns Items from the retrieval index and updates other
    indexes; the result is the pair that the Go function returns. *)
Definition getMulti (now : Z) (db : DB) (mode : ModeGet)
  (addrs : list Address) : DB * (option (list Item) * option Err) :=
  let out := map (fun addr => mkItem addr [] 0 0 0) addrs in
  match fillData (retrievalDataIndex db) out with
  | inr err => (db, (None, Some err))
  | inl out =>
      match mode with
      | ModeGetRequest => (updateGCItems now db out, (Some out, None))
      | ModeGetPin =>
          match fillPin (pinIndex db) out with
          | inr err => (db, (None, Some err))
          | inl out => (db, (Some out, None))
          end
      | ModeGetSync => (db, (Some out, None))
      | ModeGetLookup => (db, (Some out, None))
      | ModeGetUnknown _ => (db, (Some out, Some ErrInvalidMode))
      end
  end.


(** The errors that the exported calls answer with. *)
Inductive StorageErr : Type :=
| StorageErrNotFound            (* storage.ErrNotFound *)
| StorageErrOther (e : Err)     (* any other error, as it is *)
| StorageErrCount (code : Z).   (* "list pinned chunks: ..." *)

(** The fields of [infinity.Chunk] that GetMulti sets. *)
Record Chunk : Type := mkChunk {
  chunkAddress : Address;
  chunkData : list Z;
  chunkPinCounter : Z
}.

(** GetMulti returns chunks from the database. *)
Definition GetMulti (now : Z) (db : DB) (mode : ModeGet)
  (addrs : list Address) : DB * (list Chunk + StorageErr) :=
  match getMulti now db mode addrs with
  | (db1, (_, Some err)) =>
      match err with
      | ErrLevelDBNotFound => (db1, inr StorageErrNotFound)
      | _ => (db1, inr (StorageErrOther err))
      end
  | (db1, (out, None)) =>
      (db1,
       inl (map (fun ch => mkChunk (Address_ ch) (Data ch) (PinCounter ch))
                (default [] out)))
  end.

(** PinCounter returns the pin counter for a given address. *)
Definition PinCounter_ (db : DB) (address : Address) : Z + StorageErr :=
  match pinIndex db !! address with
  | None => inr StorageErrNotFound
  | Some counter => inl counter
  end.

Definition maxPage : Z := 1000.

Record Pinner : Type := mkPinner {
  pinnerAddress : Address;
  pinnerCounter : Z
}.

(** Go's [int] on a 64-bit platform. *)
Definition wrap64 (z : Z) : Z := (z + 2 ^ 63) mod 2 ^ 64 - 2 ^ 63.

(** The callback of PinnedChunks; the captured [offset], [limit] and
    [chunks] are the threaded state, the answer is [stop]. *)
Definition pinnedStep (st : Z * Z * list Pinner) (item : Address * Z)
  : (Z * Z * list Pinner) * bool :=
  let '(offset, limit, chunks) := st in
  if 0 <? offset then ((wrap64 (offset - 1), limit, chunks), false)
  else
    let chunks := chunks ++ [mkPinner (fst item) (snd item)] in
    let limit := wrap64 (limit - 1) in
    ((offset, limit, chunks), limit =? 0).

(** [Index.Iterate] over the entries in the order of the index, until
    the callback asks to stop. *)
Fixpoint iterate {St It : Type} (f : St -> It -> St * bool)
  (items : list It) (st : St) : St :=
  match items with
  | [] => st
  | item :: rest =>
      match f st item with
      | (st1, true) => st1
      | (st1, false) => iterate f rest st1
      end
  end.

(** The entry of the result for an entry of the pin index. *)
Definition pinnerOf (item : Address * Z) : Pinner :=
  mkPinner (fst item) (snd item).

(** PinnedChunks: [items] are the entries of the pin index in the order
    of its iteration, [countErr] the error of counting them, if any;
    the iteration itself is taken not to fail. *)
Definition PinnedChunks (countErr : option Z) (items : list (Address * Z))
  (offset limit : Z) : list Pinner + StorageErr :=
  let limit := if maxPage <? limit then maxPage else limit in
  match countErr with
  | Some code => inr (StorageErrCount code)
  | None =>
      if (length items =? 0)%nat then inl []
      else inl (snd (iterate pinnedStep items (offset, limit, [])))
  end.

End Localstore.

(* ===================================================================== *)
(** ** Package file: the chunk pipe                                       *)
(* ===================================================================== *)

Module File.
Import Infinity.

Definition maxBufferSize : nat := ChunkSize * 2.

Inductive Err : Type :=
| ErrClosedPipe     (* io.ErrClosedPipe *)
| ErrShortWrite.    (* io.ErrShortWrite *)

(** The write end of the underlying [io.Pipe]: the segments handed to
    the reader so far, and whether the end is closed. *)
Record PipeWriter : Type := mkPipe {
  segments : list (list Z);
  closed : bool
}.

(** A write on the pipe hands the whole slice over, or fails on a
    closed pipe. *)
Definition pipeWrite (w : PipeWriter) (b : list Z)
  : PipeWriter * (nat * option Err) :=
  if closed w then (w, (0%nat, Some ErrClosedPipe))
  else (mkPipe (segments w ++ [b]) false, (length b, None)).

Definition pipeClose (w : PipeWriter) : PipeWriter :=
  mkPipe (segments w) true.

Record ChunkPipe : Type := mkChunkPipe {
  writer : PipeWriter;
  data : list Z;
  cursor : nat
}.

(** Creates a new ChunkPipe *)
Definition NewChunkPipe : ChunkPipe :=
  mkChunkPipe (mkPipe [] false) (replicate maxBufferSize 0) 0.

(** Go's [copy(dst[off:], src)]: the number of bytes copied is the
    smaller of the two lengths. *)
Definition copyAt (dst : list Z) (off : nat) (src : list Z)
  : list Z * nat :=
  let n := Nat.min (length dst - off) (length src) in
  (take off dst ++ take n src ++ drop (off + n) dst, n).

(** The loop of Write, from [nw] bytes already taken; the fuel bounds
    the iterations. The result is the pipe, [nw] and the error. *)
Fixpoint writeLoop (fuel : nat) (c : ChunkPipe) (b : list Z) (nw : nat)
  : option (ChunkPipe * (nat * option Err)) :=
  if (length b <=? nw)%nat then Some (c, (nw, None))
  else
    match fuel with
    | O => None
    | S fuel' =>
        let '(data1, copied) := copyAt (data c) (cursor c) (drop nw b) in
        let cursor1 := (cursor c + copied)%nat in
        let nw1 := (nw + copied)%nat in
        if (ChunkSize <=? cursor1)%nat then
          match pipeWrite (writer c) (take ChunkSize data1) with
          | (w1, (_, Some err)) =>
              Some (mkChunkPipe w1 data1 cursor1, (nw1, Some err))
          | (w1, (written, None)) =>
              if negb (ChunkSize =? written)%nat
              then Some (mkChunkPipe w1 data1 cursor1,
                         (nw1, Some ErrShortWrite))
              else
                let cursor2 := (cursor1 - ChunkSize)%nat in
                let data2 := fst (copyAt data1 0 (drop ChunkSize data1)) in
                writeLoop fuel' (mkChunkPipe w1 data2 cursor2) b nw1
          end
        else writeLoop fuel' (mkChunkPipe (writer c) data1 cursor1) b nw1
    end.

(** Writer implements io.Writer *)
Definition Write (c : ChunkPipe) (b : list Z)
  : option (ChunkPipe * (nat * option Err)) :=
  writeLoop (length b) c b 0.

(** Close implements io.Closer *)
Definition Close (c : ChunkPipe) : ChunkPipe * option Err :=
  if (0 <? cursor c)%nat then
    match pipeWrite (writer c) (take (cursor c) (data c)) with
    | (w1, (_, Some err)) => (mkChunkPipe w1 (data c) (cursor c), Some err)
    | (w1, (written, None)) =>
        if negb (cursor c =? written)%nat
        then (mkChunkPipe w1 (data c) (cursor c), Some ErrShortWrite)
        else (mkChunkPipe (pipeClose w1) (data c) (cursor c), None)
    end
  else (mkChunkPipe (pipeClose (writer c)) (data c) (cursor c), None).

(** The state of a pipe that has accepted the bytes [acc]: the buffer
    has its full size, fewer than two chunks are pending, every segment
    handed over is a full chunk, and the segments followed by the
    pending bytes are [acc]. *)
Definition pipeInv (c : ChunkPipe) (acc : list Z) : Prop :=
  length (data c) = maxBufferSize
  /\ (cursor c <= ChunkSize)%nat
  /\ closed (writer c) = false
  /\ Forall (fun s => length s = ChunkSize) (segments (writer c))
  /\ concat (segments (writer c)) ++ take (cursor c) (data c) = acc.

(** A sequence of Write calls on a pipe; it stops at the first error. *)
Fixpoint writeAll (c : ChunkPipe) (bs : list (list Z))
  : option (ChunkPipe * option Err) :=
  match bs with
  | [] => Some (c, None)
  | b :: bs' =>
      match Write c b with
      | None => None
      | Some (c', (_, Some err)) => Some (c', Some err)
      | Some (c', (_, None)) => writeAll c' bs'
      end
  end.

(** A sequence of Write calls followed by Close. *)
Definition writeAllClose (c : ChunkPipe) (bs : list (list Z))
  : option (ChunkPipe * option Err) :=
  match writeAll c bs with
  | None => None
  | Some (c', Some err) => Some (c', Some err)
  | Some (c', None) => Some (Close c')
  end.

End File.

(* ===================================================================== *)
(** * Properties                                                          *)
(* ===================================================================== *)

(** ** Iteration over peer slices *)

Section IterationFacts.
Import Infinity pslice.
Context {St E : Type}.
Variable f : St -> Address -> nat -> St * (bool * bool * option E).
Hypothesis no_jump : forall st p po, snd (fst (snd (f st p po))) = false.

Lemma eachOfBins_walk bs st :
  eachOfBins f bs st = walkPeers f (flatten bs) st.
Proof.
  revert st. induction bs as [|[po ps] bs IH]; intros st; [done|].
  cbn [eachOfBins]. unfold flatten. cbn [map concat fst snd].
  fold (flatten bs). revert st.
  induction ps as [|p ps IHp]; intros st; cbn; [apply IH|].
  pose proof (no_jump st p po) as Hj.
  destruct (f st p po) as [st' [[stop next] err]]; simpl in *. subst next.
  destruct err as [e|]; [done|]. destruct stop; [done|]. apply IHp.
Qed.

End IterationFacts.

(** ** Neighbourhood depth *)

Section DepthFacts.
Import Infinity pslice Kademlia.

Lemma flatten_app (a b : list (nat * list Address)) :
  flatten (a ++ b) = flatten a ++ flatten b.
Proof. unfold flatten. by rewrite map_app, concat_app. Qed.

Lemma flatten_rev_length (l : list (nat * list Address)) :
  length (flatten (rev l)) = length (flatten l).
Proof.
  induction l as [|b l IH]; [done|]. simpl rev. rewrite flatten_app.
  rewrite length_app, IH. unfold flatten. simpl.
  rewrite !length_app. simpl. lia.
Qed.

Lemma flatten_indexFrom_length i (bs : list (list Address)) :
  length (flatten (indexFrom i bs)) = length (concat bs).
Proof.
  revert i. induction bs as [|b bs IH]; intros i; [done|].
  unfold flatten in *. simpl. rewrite !length_app, length_map.
  by rewrite IH.
Qed.

Lemma closestFirst_length s : length (closestFirst s) = Length s.
Proof.
  unfold closestFirst, Length, indexed.
  by rewrite flatten_rev_length, flatten_indexFrom_length.
Qed.

Lemma farthestFirst_length s : length (farthestFirst s) = Length s.
Proof. apply flatten_indexFrom_length. Qed.

Lemma flatten_indexFrom_po i (bs : list (list Address)) p po :
  In (p, po) (flatten (indexFrom i bs)) ->
  (i <= po < i + length bs)%nat /\ In p (nth (po - i) bs []).
Proof.
  revert i. induction bs as [|b bs IH]; intros i; [done|].
  unfold flatten in *. simpl. rewrite in_app_iff, in_map_iff.
  intros [[q [[= -> ->] Hin]]|Hin].
  - replace (po - po)%nat with 0%nat by lia. split; [lia|done].
  - apply IH in Hin as [Hlt Hin]. split; [lia|].
    replace (po - i)%nat with (S (po - S i)) by lia. done.
Qed.

Lemma flatten_rev_In (l : list (nat * list Address)) x :
  In x (flatten (rev l)) <-> In x (flatten l).
Proof.
  unfold flatten. rewrite !in_concat. split.
  - intros [y [Hy Hx]]. exists y. split; [|done].
    apply in_map_iff in Hy as [b [<- Hb]]. apply in_map_iff.
    exists b. split; [done|]. by apply in_rev.
  - intros [y [Hy Hx]]. exists y. split; [|done].
    apply in_map_iff in Hy as [b [<- Hb]]. apply in_map_iff.
    exists b. split; [done|]. by apply in_rev in Hb.
Qed.

Lemma closestFirst_po s p po :
  In (p, po) (closestFirst s) ->
  (po < length (bins s))%nat /\ In p (nth po (bins s) []).
Proof.
  unfold closestFirst, indexed. rewrite flatten_rev_In.
  intros H. apply flatten_indexFrom_po in H as [Hlt Hin].
  rewrite Nat.sub_0_r in Hin. split; [lia|done].
Qed.

Lemma find_ext_seq (g h : nat -> bool) i n :
  (forall k, (i <= k < i + n)%nat -> g k = h k) ->
  List.find g (seq i n) = List.find h (seq i n).
Proof.
  revert i. induction n as [|n IH]; intros i Hext; [done|].
  simpl. rewrite (Hext i) by lia. destruct (h i); [done|].
  apply IH. intros k Hk. apply Hext. lia.
Qed.

Lemma firstEmpty_find i (bs : list (list Address)) :
  firstEmpty i bs =
  List.find (fun po => (length (nth (po - i) bs []) =? 0)%nat)
            (seq i (length bs)).
Proof.
  revert i. induction bs as [|b bs IH]; intros i; [done|].
  simpl. rewrite Nat.sub_diag.
  destruct (length b =? 0)%nat; [done|].
  rewrite IH. apply find_ext_seq. intros k Hk.
  replace (k - i)%nat with (S (k - S i)) by lia. done.
Qed.

Lemma shallowest_empty_model s :
  wf s = true ->
  shallowest_empty s =
  match firstEmpty 0 (bins s) with
  | Some i => i
  | None => (MaxPO + 1)%nat
  end.
Proof.
  unfold wf, shallowest_empty. intros Hwf. apply Nat.eqb_eq in Hwf.
  rewrite firstEmpty_find, Hwf.
  erewrite find_ext_seq; [reflexivity|].
  intros k _. simpl. unfold binSize. by rewrite Nat.sub_0_r.
Qed.

Lemma depthStep_no_jump st p po : snd (fst (snd (depthStep st p po))) = false.
Proof. unfold depthStep. by destruct (_ <=? _)%nat. Qed.

Lemma depth_walk (l : list (Address * nat)) :
  snd (fst (walkPeers (E:=Err) depthStep l (0%nat, 0%nat))) =
  match nth_error l (nnLowWatermark - 1) with
  | Some x => snd x
  | None => 0%nat
  end.
Proof. destruct l as [|x [|y l]]; done. Qed.

Lemma candidate_model s :
  snd (fst (EachBin depthStep s (0%nat, 0%nat))) = candidate_spec s.
Proof.
  unfold EachBin, candidate_spec.
  rewrite (eachOfBins_walk _ depthStep_no_jump), depth_walk.
  fold (closestFirst s). by destruct (nth_error _ _) as [[? ?]|].
Qed.

Lemma candidate_bound s :
  (2 <= Length s)%nat -> (candidate_spec s < length (bins s))%nat.
Proof.
  intros Hlen. unfold candidate_spec.
  destruct (nth_error (closestFirst s) (nnLowWatermark - 1)) as [[p po]|] eqn:Hn.
  - apply nth_error_In in Hn. by apply closestFirst_po in Hn as [? _].
  - apply nth_error_None in Hn. rewrite closestFirst_length in Hn.
    unfold nnLowWatermark in Hn. lia.
Qed.

(** With exactly two peers the formula is 0: either bin 0 is empty, or
    the second peer of the walk lies in bin 0. *)
Lemma depth_two_peers s :
  wf s = true -> Length s = 2%nat ->
  Nat.min (shallowest_empty s) (candidate_spec s) = 0%nat.
Proof.
  intros Hwf Hlen. rewrite (shallowest_empty_model s Hwf).
  unfold wf in Hwf. apply Nat.eqb_eq in Hwf.
  destruct (bins s) as [|b0 rest] eqn:Hb; [done|].
  simpl firstEmpty. destruct b0 as [|p b0]; [done|].
  assert (candidate_spec s = 0%nat) as ->; [|lia].
  unfold candidate_spec, closestFirst, indexed. rewrite Hb.
  simpl indexFrom. simpl rev. rewrite flatten_app.
  pose proof (closestFirst_length s) as Hcl.
  unfold closestFirst, indexed in Hcl. rewrite Hb, Hlen in Hcl.
  simpl indexFrom in Hcl. simpl rev in Hcl. rewrite flatten_app in Hcl.
  revert Hcl. generalize (flatten (rev (indexFrom 1 rest))).
  unfold flatten. simpl. intros l. rewrite app_nil_r.
  rewrite length_app. simpl. rewrite length_map. intros Hcl.
  destruct l as [|x [|y l]]; simpl in *.
  - destruct b0 as [|q [|r b0]]; simpl in *; try lia; try done.
  - destruct b0; simpl in *; try lia; try done.
  - lia.
Qed.

Lemma recalcDepth_formula s :
  wf s = true -> recalcDepth s = depth_spec s.
Proof.
  intros Hwf. unfold recalcDepth, depth_spec.
  destruct (Length s <=? nnLowWatermark)%nat eqn:Hle.
  - apply Nat.leb_le in Hle. destruct (Length s <? nnLowWatermark)%nat eqn:Hlt;
      [done|]. apply Nat.ltb_ge in Hlt. symmetry.
    apply depth_two_peers; [done|]. unfold nnLowWatermark in *. lia.
  - apply Nat.leb_gt in Hle.
    assert ((Length s <? nnLowWatermark)%nat = false) as ->
      by (apply Nat.ltb_ge; lia).
    rewrite (shallowest_empty_model s Hwf). unfold ShallowestEmpty.
    rewrite candidate_model.
    pose proof (candidate_bound s) as Hb. unfold nnLowWatermark in Hle.
    unfold wf in Hwf. apply Nat.eqb_eq in Hwf. rewrite Hwf in Hb.
    unfold MaxBins in Hb.
    destruct (firstEmpty 0 (bins s)) as [i|]; cbn [orb].
    + destruct (candidate_spec s <? i)%nat eqn:Hc.
      * apply Nat.ltb_lt in Hc. lia.
      * apply Nat.ltb_ge in Hc. lia.
    + lia.
Qed.

Lemma Remove_wf s a po : wf (Remove s a po) = wf s.
Proof. unfold wf, Remove. simpl. by rewrite length_alter. Qed.

Lemma Add_wf s a po : wf (Add s a po) = wf s.
Proof.
  unfold wf, Add. destruct (Exists s a); [done|]. simpl.
  by rewrite length_alter.
Qed.

End DepthFacts.

Section DepthClaim.
Import Infinity pslice Kademlia.

(** C1: for every connected-peer set the recomputed depth is the formula
    of the specification: 0 with fewer than [nnLowWatermark] = 2 peers,
    otherwise the minimum of the shallowest empty bin (MaxPO + 1 when no
    bin is empty) and the PO of the second peer met closest-bin-first;
    this is the value stored when a peer connects or disconnects and
    returned by [NeighborhoodDepth]. *)
Theorem C1_depth_formula (s : PSlice) :
  wf s = true ->
  recalcDepth s = depth_spec s
  /\ (forall k now peer,
        connectedPeers k = s ->
        let k' := Disconnected now k peer in
        NeighborhoodDepth k' = depth_spec (connectedPeers k'))
  /\ (forall k bcast addr k',
        connectedPeers k = s ->
        connected bcast k addr = (k', None) ->
        NeighborhoodDepth k' = depth_spec (connectedPeers k')).
Proof.
  intros Hwf. split; [by apply recalcDepth_formula|]. split.
  - intros k now peer Hs. unfold Disconnected. cbn.
    apply recalcDepth_formula. by rewrite Remove_wf, Hs.
  - intros k bcast addr k' Hs. unfold connected.
    destruct (announce bcast k addr); [done|]. intros [= <-]. cbn.
    apply recalcDepth_formula. by rewrite Add_wf, Hs.
Qed.

Lemma C1_depth_formula_witness :
  let s := sliceOf [[addrOf 128]; [addrOf 64]; []; [addrOf 16; addrOf 17]] in
  recalcDepth s = 2%nat /\ depth_spec s = 2%nat.
Proof.
  intros s.
  pose proof (C1_depth_formula s eq_refl) as [H _].
  split; [reflexivity|]. rewrite <- H. reflexivity.
Defined.

End DepthClaim.

(** ** XOR distance *)

Section DistanceFacts.
Import Infinity.

Lemma isByte_spec b : isByte b = true <-> 0 <= b < 256.
Proof. unfold isByte. rewrite andb_true_iff, Z.leb_le, Z.ltb_lt. lia. Qed.

Lemma lxor_byte x a : 0 <= x < 256 -> 0 <= a < 256 -> 0 <= Z.lxor x a < 256.
Proof.
  intros Hx Ha. split; [apply Z.lxor_nonneg; lia|].
  destruct (Z.eq_dec (Z.lxor x a) 0) as [->|Hne]; [lia|].
  assert (0 < Z.lxor x a) by (pose proof (proj2 (Z.lxor_nonneg x a)); lia).
  apply (Z.log2_lt_pow2 _ 8); [done|].
  pose proof (Z.log2_lxor x a ltac:(lia) ltac:(lia)) as Hl.
  assert (forall v, 0 <= v < 256 -> Z.log2 v < 8) as Hlog.
  { intros v Hv. destruct (Z.eq_dec v 0) as [->|]; [done|].
    apply Z.log2_lt_pow2; lia. }
  pose proof (Hlog x Hx). pose proof (Hlog a Ha). lia.
Qed.

Lemma xorBytes_length a x :
  length a = length x -> length (xorBytes a x) = length a.
Proof.
  revert x. induction a as [|ai a IH]; intros [|xi x]; simpl; try done.
  intros [= H]. by rewrite IH.
Qed.

Lemma xorBytes_bytes a x :
  forallb isByte a = true -> forallb isByte x = true ->
  forallb isByte (xorBytes a x) = true.
Proof.
  revert x. induction a as [|ai a IH]; intros [|xi x]; simpl; try done.
  rewrite !andb_true_iff, !isByte_spec. intros [Ha Has] [Hx Hxs].
  split; [by apply lxor_byte|by apply IH].
Qed.

Lemma beValue_bound l :
  forallb isByte l = true -> 0 <= beValue l < 256 ^ Z.of_nat (length l).
Proof.
  induction l as [|b l IH]; simpl; [lia|].
  rewrite andb_true_iff, isByte_spec. intros [Hb Hl].
  specialize (IH Hl). rewrite Nat2Z.inj_succ, Z.pow_succ_r by lia. nia.
Qed.

(** The byte-wise comparison decides the order of the distances. *)
Lemma distanceCmpBytes_spec a x y :
  length a = length x -> length a = length y ->
  forallb isByte a = true -> forallb isByte x = true ->
  forallb isByte y = true ->
  distanceCmpBytes a x y =
  match Z.compare (distance a x) (distance a y) with
  | Lt => 1
  | Eq => 0
  | Gt => -1
  end.
Proof.
  unfold distance. revert x y.
  induction a as [|ai a IH]; intros [|xi x] [|yi y]; simpl; try done.
  intros [= Hlx] [= Hly]. rewrite !andb_true_iff, !isByte_spec.
  intros [Ha Has] [Hx Hxs] [Hy Hys].
  pose proof (lxor_byte xi ai Hx Ha) as Hdx.
  pose proof (lxor_byte yi ai Hy Ha) as Hdy.
  pose proof (beValue_bound _ (xorBytes_bytes a x Has Hxs)) as Hbx.
  pose proof (beValue_bound _ (xorBytes_bytes a y Has Hys)) as Hby.
  rewrite !xorBytes_length in * by done.
  set (P := 256 ^ Z.of_nat (length a)) in *.
  destruct (Z.eqb_spec (Z.lxor xi ai) (Z.lxor yi ai)) as [Heq|Hne].
  - rewrite Heq, IH by done.
    by rewrite Z.add_compare_mono_l.
  - destruct (Z.ltb_spec (Z.lxor xi ai) (Z.lxor yi ai)) as [Hlt|Hge].
    + assert (Z.lxor xi ai * P + beValue (xorBytes a x) <
              Z.lxor yi ai * P + beValue (xorBytes a y)) as Hc by nia.
      by rewrite (proj2 (Z.compare_lt_iff _ _) Hc).
    + assert (Z.lxor yi ai * P + beValue (xorBytes a y) <
              Z.lxor xi ai * P + beValue (xorBytes a x)) as Hc by nia.
      by rewrite (proj2 (Z.compare_gt_iff _ _) Hc).
Qed.

Lemma wfAddress_spec a :
  wfAddress a = true <-> length a = 32%nat /\ forallb isByte a = true.
Proof. unfold wfAddress. by rewrite andb_true_iff, Nat.eqb_eq. Qed.

Lemma DistanceCmp_spec a x y :
  wfAddress a = true -> wfAddress x = true -> wfAddress y = true ->
  DistanceCmp a x y =
  Some match Z.compare (distance a x) (distance a y) with
       | Lt => 1
       | Eq => 0
       | Gt => -1
       end.
Proof.
  rewrite !wfAddress_spec. intros [La Ba] [Lx Bx] [Ly By].
  unfold DistanceCmp. rewrite La, Lx, Ly. simpl.
  f_equal. apply distanceCmpBytes_spec; congruence.
Qed.

End DistanceFacts.

(** ** Saturation *)

Section SaturationFacts.
Import Infinity pslice Kademlia.

Lemma sizeStep_no_jump bin st p po :
  snd (fst (snd (sizeStep bin st p po))) = false.
Proof. done. Qed.

Lemma size_walk bin (l : list (Address * nat)) n :
  fst (walkPeers (E:=Err) (sizeStep bin) l n) =
  (n + length (List.filter (fun x => (snd x =? bin)%nat) l))%nat.
Proof.
  revert n. induction l as [|[p po] l IH]; intros n; simpl; [lia|].
  rewrite IH. destruct (po =? bin)%nat; simpl; lia.
Qed.

Lemma binSaturated_size bin connected :
  fst (EachBin (sizeStep bin) connected 0%nat) = countPO connected bin.
Proof.
  unfold EachBin. rewrite (eachOfBins_walk _ (sizeStep_no_jump bin)).
  by rewrite size_walk.
Qed.

(** C6 (as amended): [binSaturated] answers (false, false) for every bin
    at or beyond the depth recomputed from its first argument, the
    known-peer slice (the potential depth); for a shallower bin it
    answers saturated iff at least [saturationPeers] = 4 connected peers
    have that PO, and oversaturated iff at least [overSaturationPeers]
    = 16 have. *)
Theorem C6_binSaturated_potential_depth (bin : nat) (peers connected : PSlice) :
  ((recalcDepth peers <= bin)%nat ->
     binSaturated bin peers connected = (false, false))
  /\ ((bin < recalcDepth peers)%nat ->
      forall saturated oversaturated,
        binSaturated bin peers connected = (saturated, oversaturated) ->
        (saturated = true <-> (4 <= countPO connected bin)%nat)
        /\ (oversaturated = true <-> (16 <= countPO connected bin)%nat)).
Proof.
  unfold binSaturated. split.
  - intros H. apply Nat.leb_le in H. by rewrite H.
  - intros H. apply Nat.leb_gt in H. rewrite H, binSaturated_size.
    intros sat over [= <- <-].
    unfold saturationPeers, overSaturationPeers.
    split; [apply (Nat.leb_le 4)|apply (Nat.leb_le 16)].
Qed.

Lemma C6_binSaturated_witness :
  let known := sliceOf [[addrOf 128]; [addrOf 64; addrOf 65; addrOf 66;
                         addrOf 67]; []; [addrOf 16; addrOf 17]] in
  let conn := sliceOf [[]; [addrOf 64; addrOf 65; addrOf 66; addrOf 67]] in
  binSaturated 2 known conn = (false, false)
  /\ (4 <= countPO conn 1)%nat.
Proof.
  intros known conn.
  pose proof (C6_binSaturated_potential_depth 2 known conn) as [H1 _].
  pose proof (C6_binSaturated_potential_depth 1 known conn) as [_ H2].
  split.
  - apply H1. vm_compute. lia.
  - assert (1 < recalcDepth known)%nat as Hd by (vm_compute; lia).
    destruct (H2 Hd true false eq_refl) as [Hs _]. by apply Hs.
Defined.

(** C6 fails as stated: bin 1 is not shallower than the neighbourhood
    depth 0 of the node, yet it is reported saturated, because the
    short circuit compares with the depth of the known peers. *)
Lemma C6_counterexample :
  let known := sliceOf [[addrOf 128]; [addrOf 64; addrOf 65; addrOf 66;
                         addrOf 67]; []; [addrOf 16; addrOf 17]] in
  let conn := sliceOf [[]; [addrOf 64; addrOf 65; addrOf 66; addrOf 67]] in
  let k := nodeOf known conn in
  NeighborhoodDepth k = 0%nat
  /\ NeighborhoodDepth k = recalcDepth (connectedPeers k)
  /\ (NeighborhoodDepth k <= 1)%nat
  /\ binSaturated 1 (knownPeers k) (connectedPeers k) = (true, false).
Proof. vm_compute. repeat split; lia. Qed.

End SaturationFacts.

(** ** Closest peer *)

Section ClosestFacts.
Import Infinity pslice Kademlia.

Lemma closestStep_no_jump addr skipPeers peers st p po :
  snd (fst (snd (closestStep addr skipPeers peers st p po))) = false.
Proof.
  unfold closestStep. destruct (existsb _ _); [done|].
  destruct (negb _); [done|]. destruct (DistanceCmp _ _ _); [|done].
  by destruct (_ =? _).
Qed.

Variables (addr : Address) (skipPeers peers : list Address).
Hypothesis addr_wf : wfAddress addr = true.

(** The walk of [ClosestPeer] over a flat list of peers: the outcome is
    a closest candidate among the start value and the eligible peers,
    replaced only by strictly closer peers. *)
Lemma closest_walk (l : list (Address * nat)) (c : Address)
  (td : list Address) :
  wfAddress c = true ->
  (forall p, In p (map fst l) -> wfAddress p = true) ->
  exists c',
    walkPeers (closestStep addr skipPeers peers) l (c, td) =
      ((c', td ++ stale skipPeers peers (map fst l)), None)
    /\ wfAddress c' = true
    /\ (c' = c \/ (In c' (eligible skipPeers peers (map fst l))
                   /\ distance addr c' < distance addr c))
    /\ (forall q, In q (eligible skipPeers peers (map fst l)) ->
                  distance addr c' <= distance addr q)
    /\ distance addr c' <= distance addr c.
Proof.
  revert c td. induction l as [|[p po] l IH]; intros c td Hc Hl.
  { exists c. simpl. rewrite app_nil_r. repeat split; try done; auto; lia. }
  assert (wfAddress p = true) as Hp by (apply Hl; simpl; auto).
  assert (forall q, In q (map fst l) -> wfAddress q = true) as Hl'
    by (intros q Hq; apply Hl; simpl; auto).
  cbn [walkPeers fst snd map]. unfold closestStep at 1.
  unfold eligible, stale. cbn [List.filter]. fold (skipped skipPeers p).
  fold (eligible skipPeers peers (map fst l)).
  fold (stale skipPeers peers (map fst l)).
  destruct (skipped skipPeers p) eqn:Hsk; cbn [negb andb fst snd].
  { apply IH; done. }
  destruct (isIn p peers) eqn:Hin; cbn [negb andb fst snd].
  2:{ destruct (IH c (td ++ [p]) Hc Hl') as (c' & Hw & Hwf & Hor & Hmin & Hle).
      exists c'. rewrite Hw, <- app_assoc. done. }
  rewrite (DistanceCmp_spec addr c p addr_wf Hc Hp).
  destruct (Z.compare_spec (distance addr c) (distance addr p)) as [Heq|Hlt|Hgt];
    cbn [Z.eqb Pos.eqb fst snd].
  - destruct (IH c td Hc Hl') as (c' & Hw & Hwf & Hor & Hmin & Hle).
    exists c'. rewrite Hw. repeat split; try done.
    + destruct Hor as [->|[Hin' Hd]]; [by left|right]. split; [by right|done].
    + intros q [<-|Hq]; [lia|by apply Hmin].
  - destruct (IH c td Hc Hl') as (c' & Hw & Hwf & Hor & Hmin & Hle).
    exists c'. rewrite Hw. repeat split; try done.
    + destruct Hor as [->|[Hin' Hd]]; [by left|right]. split; [by right|done].
    + intros q [<-|Hq]; [lia|by apply Hmin].
  - destruct (IH p td Hp Hl') as (c' & Hw & Hwf & Hor & Hmin & Hle).
    exists c'. rewrite Hw. repeat split; try done.
    + right. destruct Hor as [->|[Hin' Hd]].
      * split; [by left|lia].
      * split; [by right|lia].
    + intros q [<-|Hq]; [lia|by apply Hmin].
    + lia.
Qed.

End ClosestFacts.

Section ClosestClaim.
Import Infinity pslice Kademlia.

Lemma Disconnected_base now k p : base (Disconnected now k p) = base k.
Proof. done. Qed.

Lemma fold_Disconnected_base now l k :
  base (fold_left (Disconnected now) l k) = base k.
Proof.
  revert k. induction l as [|p l IH]; intros k; [done|].
  simpl. by rewrite IH.
Qed.

Lemma Equal_spec (a b : Address) : Equal a b = true <-> a = b.
Proof. unfold Equal. apply bool_decide_eq_true. Qed.

(** C2 (as amended): [ClosestPeer] walks the connected peers farthest
    bin first and returns, among the connected peers that are neither
    in the skip list nor missing from the peer list of the p2p layer,
    one whose XOR distance to the target is smallest, provided it is
    strictly closer than the node itself; it returns WantSelf exactly
    when the base address is at least as close as every such peer, and
    NotFound when no peer is connected.  Connected peers missing from
    the p2p peer list are disconnected on the way. *)
Theorem C2_closest_peer_eligible now peers k addr skipPeers :
  wfAddress addr = true ->
  wfAddress (base k) = true ->
  (forall p, In p (peersOf (connectedPeers k)) -> wfAddress p = true) ->
  let elig := eligible skipPeers peers (peersOf (connectedPeers k)) in
  let gone := stale skipPeers peers (peersOf (connectedPeers k)) in
  let out := ClosestPeer now peers k addr skipPeers in
  (Length (connectedPeers k) = 0%nat -> out = (k, inr ErrNotFound))
  /\ ((0 < Length (connectedPeers k))%nat ->
      fst out = fold_left (Disconnected now) gone k
      /\ ((exists p, snd out = inl p) \/ snd out = inr ErrWantSelf)
      /\ (forall p, snd out = inl p ->
            In p elig
            /\ (forall q, In q elig -> distance addr p <= distance addr q)
            /\ distance addr p < distance addr (base k))
      /\ (snd out = inr ErrWantSelf <->
            forall q, In q elig -> distance addr (base k) <= distance addr q)).
Proof.
  intros Haddr Hbase Hpeers elig gone out. subst out. unfold ClosestPeer.
  split.
  { intros ->. done. }
  intros Hlen.
  assert ((Length (connectedPeers k) =? 0)%nat = false) as ->
    by (apply Nat.eqb_neq; lia).
  unfold EachBinRev.
  rewrite (eachOfBins_walk _ (closestStep_no_jump addr skipPeers peers)).
  fold (farthestFirst (connectedPeers k)).
  destruct (closest_walk addr skipPeers peers Haddr
              (farthestFirst (connectedPeers k)) (base k) [] Hbase Hpeers)
    as (c' & Hw & Hwf & Hor & Hmin & Hle).
  rewrite Hw. cbn [app]. fold (peersOf (connectedPeers k)) in *.
  fold gone. fold elig in Hor, Hmin.
  rewrite fold_Disconnected_base.
  destruct (Equal c' (base k)) eqn:Heq; cbn [fst snd].
  - apply Equal_spec in Heq. subst c'.
    split; [done|]. split; [by right|]. split; [done|].
    split; [intros _; exact Hmin|done].
  - assert (c' <> base k) as Hne.
    { intros ->. pose proof (proj2 (Equal_spec (base k) (base k)) eq_refl).
      congruence. }
    destruct Hor as [->|[Hin Hd]]; [done|].
    split; [done|]. split; [left; by exists c'|]. split.
    + intros p [= <-]. done.
    + split; [done|]. intros Hall. specialize (Hall c' Hin). lia.
Qed.

Lemma C2_closest_peer_witness :
  let k := nodeOf (sliceOf [[addrOf 128]; [addrOf 64; addrOf 96]])
                  (sliceOf [[addrOf 128]; [addrOf 64; addrOf 96]]) in
  snd (ClosestPeer 0 [addrOf 128; addrOf 64; addrOf 96] k (addrOf 112) [])
    = inl (addrOf 96)
  /\ distance (addrOf 112) (addrOf 96) < distance (addrOf 112) (base k).
Proof.
  intros k.
  assert (forall p, In p (peersOf (connectedPeers k)) -> wfAddress p = true)
    as Hwf.
  { intros p Hp. vm_compute in Hp.
    destruct Hp as [<-|[<-|[<-|[]]]]; reflexivity. }
  pose proof (C2_closest_peer_eligible 0 [addrOf 128; addrOf 64; addrOf 96]
                k (addrOf 112) [] eq_refl eq_refl Hwf) as [_ H].
  assert (0 < Length (connectedPeers k))%nat as Hlen by (vm_compute; lia).
  destruct (H Hlen) as (_ & _ & Hp & _).
  split; [reflexivity|]. by apply (Hp (addrOf 96)).
Defined.

(** C2 fails as stated: the only connected peer is not in the skip list
    and is the target itself, yet it is not returned, because the peer
    list of the p2p layer does not have it. *)
Lemma C2_counterexample :
  let k := nodeOf (sliceOf [[addrOf 128]]) (sliceOf [[addrOf 128]]) in
  Exists (connectedPeers k) (addrOf 128) = true
  /\ distance (addrOf 128) (addrOf 128) < distance (addrOf 128) (base k)
  /\ snd (ClosestPeer 0 [] k (addrOf 128) []) = inr ErrWantSelf
  /\ Exists (connectedPeers (fst (ClosestPeer 0 [] k (addrOf 128) [])))
            (addrOf 128) = false.
Proof. vm_compute. repeat split; reflexivity. Qed.

End ClosestClaim.

(** ** Connect failures and pruning *)

Section BackoffFacts.
Import Infinity pslice Kademlia.

Lemma connect_failed_keep k peer now code bcast :
  attemptsOf k peer + 1 <= maxConnAttempts ->
  fst (connect (ConnectFailed code) bcast now k peer) =
  setWaitNext k (<[peer := mkRetry (now + timeToRetry) (attemptsOf k peer + 1)]>
                   (waitNext k)).
Proof.
  intros Hle. unfold connect, connectFailure. fold (attemptsOf k peer).
  destruct (Z.ltb_spec maxConnAttempts (attemptsOf k peer + 1)); [lia|done].
Qed.

Lemma connect_failed_prune k peer now code bcast :
  maxConnAttempts < attemptsOf k peer + 1 ->
  fst (connect (ConnectFailed code) bcast now k peer) =
  setAddressBook (setWaitNext k (delete peer (waitNext k)))
                 (delete peer (addressBook k)).
Proof.
  intros Hlt. unfold connect, connectFailure. fold (attemptsOf k peer).
  destruct (Z.ltb_spec maxConnAttempts (attemptsOf k peer + 1)); [done|lia].
Qed.

Lemma attemptsOf_insert k peer t n :
  attemptsOf (setWaitNext k (<[peer := mkRetry t n]> (waitNext k))) peer = n.
Proof. unfold attemptsOf. cbn. by rewrite lookup_insert_eq. Qed.

(** While the counter stays within [maxConnAttempts] a run of plain
    failures only counts and schedules the retry. *)
Lemma connectFailures_keep peer (times : list Z) : forall k,
  attemptsOf k peer + Z.of_nat (length times) <= maxConnAttempts ->
  let kn := connectFailures k peer times in
  addressBook kn = addressBook k
  /\ knownPeers kn = knownPeers k
  /\ attemptsOf kn peer = attemptsOf k peer + Z.of_nat (length times)
  /\ (times <> [] ->
      waitNext kn !! peer =
      Some (mkRetry (List.last times 0 + timeToRetry)
                    (attemptsOf k peer + Z.of_nat (length times)))).
Proof.
  induction times as [|t times IH]; intros k Hle.
  { cbn. repeat split; try done. lia. }
  cbn [length] in Hle. rewrite Nat2Z.inj_succ in Hle.
  unfold connectFailures. cbn [fold_left].
  rewrite connect_failed_keep by lia.
  set (k1 := setWaitNext k _). fold (connectFailures k1 peer times).
  assert (attemptsOf k1 peer = attemptsOf k peer + 1) as Hk1
    by apply attemptsOf_insert.
  destruct (IH k1) as (Hab & Hkn & Hat & Hw); [rewrite Hk1; lia|].
  cbn zeta. rewrite Hab, Hkn, Hat, Hk1. cbn [length].
  rewrite Nat2Z.inj_succ. repeat split; try done; try lia.
  intros _. destruct times as [|t' times].
  - cbn. rewrite lookup_insert_eq. do 2 f_equal; lia.
  - rewrite Hw by done. rewrite Hk1. cbn [length List.last].
    do 2 f_equal. rewrite !Nat2Z.inj_succ. lia.
Qed.

End BackoffFacts.

Section BackoffClaim.
Import Infinity pslice Kademlia.

(** C5 (as amended): each connect failure without a back-off hint of
    the transport increments the peer's failed-attempts counter; while
    the counter does not exceed [maxConnAttempts] = 3 the failure only
    records the counter and try_after = now + [timeToRetry]; the
    failure that takes the counter past 3 removes the retry entry and
    the address-book record, and [connect] itself never changes the
    known peers.  A failure with a back-off hint sets try_after to the
    hint and prunes nothing.  So a fresh non-connectable peer keeps its
    address-book record through three failed attempts and loses it on
    the fourth. *)
Theorem C5_connect_failure_pruning (k : Kad) (peer : Address) :
  (forall now code bcast,
     let k' := fst (connect (ConnectFailed code) bcast now k peer) in
     knownPeers k' = knownPeers k
     /\ (attemptsOf k peer + 1 <= maxConnAttempts ->
         waitNext k' !! peer =
           Some (mkRetry (now + timeToRetry) (attemptsOf k peer + 1))
         /\ addressBook k' = addressBook k)
     /\ (maxConnAttempts < attemptsOf k peer + 1 ->
         waitNext k' !! peer = None
         /\ addressBook k' = delete peer (addressBook k)))
  /\ (forall now after bcast,
        let k' := fst (connect (ConnectBackoff after) bcast now k peer) in
        tryAfter <$> (waitNext k' !! peer) = Some after
        /\ addressBook k' = addressBook k
        /\ knownPeers k' = knownPeers k)
  /\ (forall times,
        waitNext k !! peer = None ->
        times <> [] ->
        (length times <= 3)%nat ->
        let kn := connectFailures k peer times in
        addressBook kn = addressBook k
        /\ knownPeers kn = knownPeers k
        /\ waitNext kn !! peer =
             Some (mkRetry (List.last times 0 + timeToRetry)
                           (Z.of_nat (length times))))
  /\ (forall times,
        waitNext k !! peer = None ->
        length times = 4%nat ->
        let kn := connectFailures k peer times in
        addressBook kn = delete peer (addressBook k)
        /\ waitNext kn !! peer = None
        /\ knownPeers kn = knownPeers k).
Proof.
  split; [|split; [|split]].
  - intros now code bcast k'. subst k'. split; [|split].
    + unfold connect, connectFailure. by destruct (_ <? _).
    + intros Hle. rewrite connect_failed_keep by done. cbn.
      by rewrite lookup_insert_eq.
    + intros Hlt. rewrite connect_failed_prune by done. cbn.
      by rewrite lookup_delete_eq.
  - intros now after bcast k'. subst k'. cbn.
    by rewrite lookup_insert_eq.
  - intros times Hnone Hne Hlen kn. subst kn.
    assert (attemptsOf k peer = 0) as H0 by (unfold attemptsOf; by rewrite Hnone).
    destruct (connectFailures_keep peer times k) as (Hab & Hkn & _ & Hw).
    { rewrite H0. unfold maxConnAttempts. lia. }
    rewrite Hw by done. by rewrite H0.
  - intros times Hnone Hlen kn. subst kn.
    assert (attemptsOf k peer = 0) as H0 by (unfold attemptsOf; by rewrite Hnone).
    destruct times as [|t1 [|t2 [|t3 [|t4 [|? ?]]]]]; try done.
    change (connectFailures k peer [t1; t2; t3; t4])
      with (fst (connect (ConnectFailed 1) (fun _ _ => None) t4
                   (connectFailures k peer [t1; t2; t3]) peer)).
    destruct (connectFailures_keep peer [t1; t2; t3] k) as (Hab & Hkn & Hat & _).
    { rewrite H0. unfold maxConnAttempts. cbn. lia. }
    rewrite connect_failed_prune.
    + cbn [addressBook waitNext knownPeers setAddressBook setWaitNext].
      rewrite lookup_delete_eq. by rewrite Hab, Hkn.
    + rewrite Hat, H0. unfold maxConnAttempts. cbn. lia.
Qed.

Lemma C5_connect_failure_witness :
  let p := addrOf 128 in
  let k := setAddressBook (nodeOf (sliceOf [[p]]) (sliceOf []))
                          (<[p := [1]]> ∅) in
  addressBook (connectFailures k p [0; 100; 200]) = addressBook k
  /\ waitNext (connectFailures k p [0; 100; 200; 300]) !! p = None.
Proof.
  intros p k.
  pose proof (C5_connect_failure_pruning k p) as (_ & _ & H3 & H4).
  split.
  - apply (H3 [0; 100; 200]); [reflexivity|discriminate|simpl; lia].
  - apply (H4 [0; 100; 200; 300]); reflexivity.
Defined.

(** C5 fails as stated: after [maxConnAttempts] = 3 failed attempts the
    peer still has its address-book record and a counter of 3; it is
    the fourth attempt that prunes the record, and the peer is then
    still among the known peers. *)
Lemma C5_counterexample :
  let p := addrOf 128 in
  let k := setAddressBook (nodeOf (sliceOf [[p]]) (sliceOf []))
                          (<[p := [1]]> ∅) in
  let k3 := connectFailures k p [0; 100; 200] in
  let k4 := connectFailures k p [0; 100; 200; 300] in
  addressBook k3 !! p = Some [1]
  /\ failedAttempts <$> (waitNext k3 !! p) = Some 3
  /\ addressBook k4 !! p = None
  /\ Exists (knownPeers k4) p = true.
Proof. vm_compute. repeat split; reflexivity. Qed.

End BackoffClaim.

(** ** Hive: batched broadcast *)

Section HiveFacts.
Import Infinity Hive.

Lemma peersRequest_records env peers rs :
  peersRequest env peers = inl rs -> rs = recordsOf env peers.
Proof.
  revert rs. induction peers as [|p peers IH]; intros rs; simpl.
  { by intros [= <-]. }
  destruct (abGet env p); [|by apply IH|done].
  destruct (peersRequest env peers) as [rs'|]; [|done].
  intros [= <-]. f_equal. by apply IH.
Qed.

Lemma recordsOf_length env peers :
  (length (recordsOf env peers) <= length peers)%nat.
Proof.
  induction peers as [|p peers IH]; simpl; [lia|].
  destruct (abGet env p); simpl; lia.
Qed.

Lemma sendPeers_spec env n peer peers :
  let out := sendPeers env n peer peers in
  Forall (fun m => (length m <= length peers)%nat) (messages (fst out))
  /\ (snd out = None ->
      fst out = [NewStream n peer; WriteMsg n (recordsOf env peers);
                 FullClose n]).
Proof.
  unfold sendPeers. destruct (newStreamErr env n); simpl; [done|].
  destruct (peersRequest env peers) as [rs|] eqn:Hrs; simpl; [|done].
  apply peersRequest_records in Hrs. subst rs.
  destruct (writeMsgErr env n); simpl; [done|].
  split; [|done]. repeat constructor. apply recordsOf_length.
Qed.

Lemma batches_nil : batches [] = [].
Proof. done. Qed.

Lemma batches_cons (peers : list Address) :
  peers <> [] ->
  batches peers = take maxBatchSize peers :: batches (drop maxBatchSize peers).
Proof.
  intros Hne. unfold batches. rewrite length_drop.
  assert (0 < length peers)%nat as Hlen by (destruct peers; simpl; [done|lia]).
  assert (((length peers + (maxBatchSize - 1)) / maxBatchSize =
           S ((length peers - maxBatchSize + (maxBatchSize - 1)) / maxBatchSize))%nat)
    as ->.
  { unfold maxBatchSize.
    destruct (Nat.le_gt_cases 30 (length peers)) as [Hge|Hlt].
    - replace (length peers + (30 - 1))%nat
        with ((length peers - 30 + (30 - 1)) + 1 * 30)%nat by lia.
      rewrite Nat.div_add by lia. lia.
    - replace (length peers - 30)%nat with 0%nat by lia.
      rewrite (Nat.div_small (0 + (30 - 1)) 30) by lia.
      symmetry. apply (Nat.div_unique _ _ _ (length peers - 1)); lia. }
  cbn [seq map]. rewrite Nat.mul_0_r. f_equal.
  rewrite <- seq_shift, map_map. apply map_ext. intros i.
  rewrite drop_drop. do 2 f_equal. lia.
Qed.

Lemma batches_props (n : nat) : forall peers : list Address,
  (length peers <= n)%nat ->
  concat (batches peers) = peers
  /\ Forall (fun b => (0 < length b <= maxBatchSize)%nat) (batches peers)
  /\ (forall bs b, batches peers = bs ++ [b] ->
        Forall (fun x => length x = maxBatchSize) bs).
Proof.
  induction n as [|n IH]; intros peers Hlen.
  { destruct peers; [|simpl in Hlen; lia]. rewrite batches_nil.
    repeat split; try done. intros [|? ?] ? ?; done. }
  destruct (decide (peers = [])) as [->|Hne]; [rewrite batches_nil|].
  { repeat split; try done. intros [|? ?] ? ?; done. }
  rewrite batches_cons by done.
  rename peers into l.
  assert (0 < length l)%nat as Hpos by (destruct l; simpl; [done|lia]).
  destruct (IH (drop maxBatchSize l)) as (Hc & Hf & Hl).
  { rewrite length_drop. unfold maxBatchSize. lia. }
  split; [|split].
  - cbn [concat]. rewrite Hc. apply take_drop.
  - constructor; [|done]. rewrite length_take. unfold maxBatchSize. lia.
  - intros bs b Heq. destruct bs as [|b0 bs].
    + constructor.
    + injection Heq as <- Hrest. constructor; [|by apply (Hl bs b)].
      rewrite length_take.
      assert (drop maxBatchSize l <> []) as Hd.
      { intros Hd. rewrite Hd, batches_nil in Hrest. by destruct bs. }
      assert (0 < length (drop maxBatchSize l))%nat as Hdl
        by (destruct (drop maxBatchSize l); simpl; [done|lia]).
      rewrite length_drop in Hdl. lia.
Qed.

Lemma broadcastLoop_spec env addressee (fuel : nat) :
  forall n max peers,
    (length peers <= fuel)%nat ->
    max = maxBatchSize \/ peers = [] ->
    exists ev r,
      broadcastLoop fuel env n addressee max peers = Some (ev, r)
      /\ Forall (fun m => (length m <= maxBatchSize)%nat) (messages ev)
      /\ (r = None -> ev = sendAll env n addressee (batches peers)).
Proof.
  induction fuel as [|fuel IH]; intros n max peers Hlen Hmax.
  { destruct peers; [|simpl in Hlen; lia]. exists [], None. simpl.
    repeat split; done. }
  destruct (decide (peers = [])) as [->|Hne].
  { exists [], None. simpl. repeat split; done. }
  destruct Hmax as [->|]; [|done].
  rename peers into l.
  assert (0 < length l)%nat as Hpos by (destruct l; simpl; [done|lia]).
  cbn [broadcastLoop].
  assert ((0 <? length l)%nat = true) as -> by by apply Nat.ltb_lt.
  set (max' := if (length l <? maxBatchSize)%nat then length l
               else maxBatchSize).
  assert (take max' l = take maxBatchSize l /\ drop max' l = drop maxBatchSize l
          /\ (max' = maxBatchSize \/ drop maxBatchSize l = [])
          /\ (0 < max' <= maxBatchSize)%nat)
    as (Ht & Hd & Hor & Hm).
  { subst max'. destruct (Nat.ltb_spec (length l) maxBatchSize) as [Hlt|Hge].
    - rewrite !take_ge, !drop_ge by lia. repeat split; auto; lia.
    - repeat split; auto. unfold maxBatchSize. lia. }
  rewrite Ht, Hd.
  pose proof (sendPeers_spec env n addressee (take maxBatchSize l)) as [Hmsg Hok].
  destruct (sendPeers env n addressee (take maxBatchSize l)) as [ev [e|]];
    simpl in Hmsg, Hok.
  { exists ev, (Some e). repeat split; try done.
    eapply Forall_impl; [exact Hmsg|]. intros m Hm'. simpl in Hm'.
    rewrite length_take in Hm'. lia. }
  destruct (IH (S n) max' (drop maxBatchSize l)) as (ev' & r & Hloop & Hmsg' & Hok').
  { rewrite length_drop. unfold maxBatchSize. lia. }
  { done. }
  rewrite Hloop. exists (ev ++ ev'), r. split; [done|]. split.
  - unfold messages in *. rewrite omap_app. apply Forall_app. split; [|done].
    eapply Forall_impl; [exact Hmsg|]. intros m Hm'. simpl in Hm'.
    rewrite length_take in Hm'. lia.
  - intros Hr. rewrite batches_cons by done. cbn [sendAll].
    rewrite (Hok eq_refl), (Hok' Hr). done.
Qed.

Lemma messages_app (a b : list Event) :
  messages (a ++ b) = messages a ++ messages b.
Proof. unfold messages. apply omap_app. Qed.

Lemma messages_sendAll env n addressee (bs : list (list Address)) :
  messages (sendAll env n addressee bs) = map (recordsOf env) bs.
Proof.
  revert n. induction bs as [|b bs IH]; intros n; [done|].
  cbn [sendAll map]. rewrite messages_app, IH. done.
Qed.

Lemma recordsOf_app env (a b : list Address) :
  recordsOf env (a ++ b) = recordsOf env a ++ recordsOf env b.
Proof.
  induction a as [|p a IH]; [done|]. cbn [app recordsOf].
  destruct (abGet env p); by rewrite IH.
Qed.

Lemma recordsOf_concat env (bs : list (list Address)) :
  concat (map (recordsOf env) bs) = recordsOf env (concat bs).
Proof.
  induction bs as [|b bs IH]; [done|]. cbn [map concat].
  by rewrite recordsOf_app, IH.
Qed.

(** With a record of its own for every peer, nothing is skipped. *)
Lemma recordsOf_found env (peers : list Address) :
  (forall p, In p peers -> exists a, abGet env p = Found a /\ Overlay a = p) ->
  map Overlay (recordsOf env peers) = peers.
Proof.
  induction peers as [|p peers IH]; intros Hall; [done|].
  cbn [recordsOf]. destruct (Hall p) as (a & -> & Ha); [by left|].
  cbn [map]. rewrite Ha, IH; [done|]. intros q Hq. apply Hall. by right.
Qed.

(** A send that fails writes no message, and resets the stream it
    opened. *)
Lemma sendPeers_failed env n peer peers ev e :
  sendPeers env n peer peers = (ev, Some e) ->
  messages ev = []
  /\ (ev = [] \/ ev = [NewStream n peer; Reset n]).
Proof.
  unfold sendPeers. destruct (newStreamErr env n).
  { intros [= <- _]. split; [done|by left]. }
  destruct (peersRequest env peers).
  - destruct (writeMsgErr env n); [|done].
    intros [= <- _]. split; [done|by right].
  - intros [= <- _]. split; [done|by right].
Qed.

(** A run that fails has sent the batches before the failing one. *)
Lemma broadcastLoop_failure env addressee (fuel : nat) :
  forall n max peers ev e,
    max = maxBatchSize \/ peers = [] ->
    broadcastLoop fuel env n addressee max peers = Some (ev, Some e) ->
    exists i b evfail,
      batches peers !! i = Some b
      /\ sendPeers env (n + i) addressee b = (evfail, Some e)
      /\ ev = sendAll env n addressee (take i (batches peers)) ++ evfail.
Proof.
  induction fuel as [|fuel IH]; intros n max peers ev e Hmax.
  { cbn [broadcastLoop]. destruct (0 <? length peers)%nat; intros [=]. }
  destruct (decide (peers = [])) as [->|Hne]; [done|].
  destruct Hmax as [->|]; [|done].
  rename peers into l.
  assert (0 < length l)%nat as Hpos by (destruct l; simpl; [done|lia]).
  cbn [broadcastLoop].
  assert ((0 <? length l)%nat = true) as -> by by apply Nat.ltb_lt.
  set (max' := if (length l <? maxBatchSize)%nat then length l
               else maxBatchSize).
  assert (take max' l = take maxBatchSize l /\ drop max' l = drop maxBatchSize l
          /\ (max' = maxBatchSize \/ drop maxBatchSize l = []))
    as (Ht & Hd & Hor).
  { subst max'. destruct (Nat.ltb_spec (length l) maxBatchSize) as [Hlt|Hge].
    - rewrite !take_ge, !drop_ge by lia. repeat split; auto.
    - repeat split; auto. }
  rewrite Ht, Hd. rewrite batches_cons by done.
  destruct (sendPeers env n addressee (take maxBatchSize l)) as [ev0 [e0|]]
    eqn:Hsend.
  { intros [= <- <-]. exists 0%nat, (take maxBatchSize l), ev0.
    rewrite Nat.add_0_r. done. }
  destruct (broadcastLoop fuel env (S n) addressee max' (drop maxBatchSize l))
    as [[ev' r]|] eqn:Hloop; [|done].
  intros [= <- ->].
  destruct (IH _ _ _ _ _ Hor Hloop) as (i & b & evfail & Hb & Hs & Hev).
  exists (S i), b, evfail. split; [done|].
  replace (n + S i)%nat with (S n + i)%nat by lia. split; [done|].
  cbn [take sendAll].
  pose proof (sendPeers_spec env n addressee (take maxBatchSize l)) as [_ Hok].
  rewrite Hsend in Hok. cbn [fst snd] in Hok. rewrite (Hok eq_refl), Hev.
  by rewrite <- app_assoc.
Qed.

(** C7 (as amended): BroadcastPeers cuts the list, in order, into
    consecutive batches of at most [maxBatchSize] = 30 peers (every
    batch but the last has exactly 30) whose concatenation is the
    list; no Peers message ever carries more than 30 records; a
    broadcast that succeeds sends each batch as one Peers message on a
    stream of its own, closed after the write, and the message of a
    batch holds the address-book records of those of its peers that
    have one, so that the sent messages concatenate to the records of
    the listed peers that have a record, which are the listed peers,
    in order, when every peer has a record of its own; a broadcast
    that fails has sent the messages of the batches before the
    failing one and no other. *)
Theorem C7_broadcast_batches env n addressee (peers : list Address) :
  exists ev r,
    BroadcastPeers env n addressee peers = Some (ev, r)
    /\ Forall (fun m => (length m <= maxBatchSize)%nat) (messages ev)
    /\ concat (batches peers) = peers
    /\ Forall (fun b => (0 < length b <= maxBatchSize)%nat) (batches peers)
    /\ (forall bs b, batches peers = bs ++ [b] ->
          Forall (fun x => length x = maxBatchSize) bs)
    /\ (r = None ->
          ev = sendAll env n addressee (batches peers)
          /\ messages ev = map (recordsOf env) (batches peers)
          /\ concat (messages ev) = recordsOf env peers
          /\ ((forall p, In p peers ->
                 exists a, abGet env p = Found a /\ Overlay a = p) ->
              map Overlay (concat (messages ev)) = peers))
    /\ (forall e, r = Some e ->
          exists i, (i < length (batches peers))%nat
            /\ messages ev = map (recordsOf env) (take i (batches peers))).
Proof.
  destruct (broadcastLoop_spec env addressee (length peers) n maxBatchSize
              peers) as (ev & r & Hrun & Hmsg & Hok); [lia|by left|].
  destruct (batches_props (length peers) peers) as (Hc & Hf & Hl); [lia|].
  exists ev, r. do 5 (split; [done|]). split.
  - intros Hr. specialize (Hok Hr). subst ev.
    assert (concat (messages (sendAll env n addressee (batches peers)))
            = recordsOf env peers) as Hcat
      by by rewrite messages_sendAll, recordsOf_concat, Hc.
    split; [done|]. split; [apply messages_sendAll|]. split; [done|].
    intros Hall. rewrite Hcat. by apply recordsOf_found.
  - intros e ->. unfold BroadcastPeers in Hrun.
    destruct (broadcastLoop_failure _ _ _ _ _ _ _ _ (or_introl eq_refl) Hrun)
      as (i & b & evfail & Hb & Hs & Hev).
    exists i. split; [by apply lookup_lt_Some in Hb|].
    destruct (sendPeers_failed _ _ _ _ _ _ Hs) as [Hm _].
    rewrite Hev, messages_app, messages_sendAll, Hm. by rewrite app_nil_r.
Qed.

Lemma C7_broadcast_batches_witness :
  map length (batches (samplePeers 65)) = [30; 30; 5]%nat
  /\ exists ev,
       BroadcastPeers sampleEnv 0 [1] (samplePeers 65) = Some (ev, None)
       /\ ev = sendAll sampleEnv 0 [1] (batches (samplePeers 65))
       /\ map length (messages ev) = [15; 15; 3]%nat
       /\ concat (messages ev) = recordsOf sampleEnv (samplePeers 65).
Proof.
  split; [reflexivity|].
  destruct (C7_broadcast_batches sampleEnv 0 [1] (samplePeers 65))
    as (ev & r & Hrun & _ & _ & _ & Hfull & Hok & _).
  assert (Forall (fun x : list Address => length x = maxBatchSize)
                 (take 2 (batches (samplePeers 65)))) as _
    by (apply (Hfull _ (drop 60 (samplePeers 65))); reflexivity).
  assert (r = None) as Hr by (vm_compute in Hrun; congruence).
  destruct (Hok Hr) as (Hev & Hmsgs & Hcat & _).
  exists ev. subst r. split; [exact Hrun|]. split; [exact Hev|].
  split; [rewrite Hmsgs; reflexivity|exact Hcat].
Defined.

(** The records sent need not be the listed peers: the sample address
    book has no record for the peers with an odd first byte, so a
    broadcast of 65 peers succeeds with 33 records in its messages. *)
Lemma C7_counterexample :
  exists ev,
    BroadcastPeers sampleEnv 0 [1] (samplePeers 65) = Some (ev, None)
    /\ length (concat (messages ev)) = 33%nat
    /\ map Overlay (concat (messages ev)) <> samplePeers 65.
Proof.
  destruct (BroadcastPeers sampleEnv 0 [1] (samplePeers 65))
    as [[ev r]|] eqn:Hrun; [|vm_compute in Hrun; discriminate].
  vm_compute in Hrun. injection Hrun as <- <-.
  eexists. split; [reflexivity|]. split; [reflexivity|].
  vm_compute. discriminate.
Qed.

End HiveFacts.

(** ** Signed peer records *)

Section IfiFacts.
Import Infinity Ifi.
Context {PublicKey Multiaddr : Type}.
Variable Recover : list Z -> list Z -> option PublicKey.
Variable NewOverlayAddress : PublicKey -> Z -> option Address.
Variable NewMultiaddrBytes : list Z -> option Multiaddr.


End IfiFacts.

Section IfiClaim.
Import Infinity Ifi.



End IfiClaim.

(** ** Netstore *)

Section NetstoreFacts.
Import Infinity Netstore.
Context {S Targets : Type}.

(** C3 (as amended): Get returns a chunk of the wrapped store
    unchanged; on a local NotFound it asks the retrieval collaborator,
    puts a retrieved chunk with Request mode and returns it when the
    put succeeds (a put error is returned wrapped); when retrieval
    fails too, with recovery targets in the context and a registered
    callback it schedules the callback exactly once with (addr,
    targets) and returns RecoveryAttempt, which is not NotFound, and
    otherwise it returns the error of the retrieval collaborator as it
    is (NotFound when that is what retrieval reports). *)
Theorem C3_netstore_get (s : @store S) (targets : option Targets)
  (st : S) (mode : ModeGet) (addr : Address) :
  let local := storerGet (storer s) st mode addr in
  let out := Get s targets st mode addr in
  (forall ch, snd local = inl ch ->
     out = (fst local, [StorerGet mode addr], inl ch))
  /\ (forall err, snd local = inr err -> isNotFound err = false ->
        out = (fst local, [StorerGet mode addr],
               inr (ErrWrap NetstoreGet err)))
  /\ (forall err ch, snd local = inr err -> isNotFound err = true ->
        retrieval s addr = inl ch ->
        let put := storerPut (storer s) (fst local) ModePutRequest ch in
        fst (fst out) = fst put
        /\ snd (fst out) = [StorerGet mode addr; RetrieveChunk addr;
                            StorerPut ModePutRequest ch]
        /\ (forall seen, snd put = inl seen -> snd out = inl ch)
        /\ (forall e, snd put = inr e ->
              snd out = inr (ErrWrap NetstoreRetrievePut e)))
  /\ (forall err err' t, snd local = inr err -> isNotFound err = true ->
        retrieval s addr = inr err' ->
        targets = Some t -> recoveryCallback s = true ->
        snd out = inr ErrRecoveryAttempt
        /\ recoveries (snd (fst out)) = [(addr, t)]
        /\ fst (fst out) = fst local
        /\ isNotFound ErrRecoveryAttempt = false)
  /\ (forall err err', snd local = inr err -> isNotFound err = true ->
        retrieval s addr = inr err' ->
        targets = None \/ recoveryCallback s = false ->
        snd out = inr err'
        /\ recoveries (snd (fst out)) = []
        /\ fst (fst out) = fst local).
Proof.
  intros local out. subst local out. unfold Get.
  destruct (storerGet (storer s) st mode addr) as [st1 [ch|err]]; simpl.
  { repeat split; try done. by intros ? [= <-]. }
  split; [done|]. split.
  { intros e [= <-] ->. done. }
  split; [|split].
  - intros e ch [= <-] -> ->.
    destruct (storerPut (storer s) st1 ModePutRequest ch) as [st2 [seen|e']];
      simpl; repeat split; try done. by intros ? [= <-].
  - intros e e' t [= <-] -> -> -> ->. done.
  - intros e e' [= <-] -> -> [->|Hcb]; [done|].
    rewrite Hcb. by destruct targets.
Qed.

End NetstoreFacts.

Section NetstoreClaim.
Import Infinity Netstore.

Lemma C3_netstore_get_witness :
  let out1 := Get (mkStore mapStorer networkTimeout true) (Some [[1]]) ∅
                  ModeGetRequest [7] in
  let out2 := Get (mkStore mapStorer (networkWith sampleChunk) false)
                  (None : option (list (list Z))) ∅ ModeGetRequest [7] in
  (snd out1 = inr ErrRecoveryAttempt
   /\ recoveries (snd (fst out1)) = [([7], [[1]])])
  /\ snd out2 = inl sampleChunk.
Proof.
  intros out1 out2.
  pose proof (C3_netstore_get (mkStore mapStorer networkTimeout true)
                (Some [[1 : Z]]) ∅ ModeGetRequest [7])
    as (_ & _ & _ & Hrec & _).
  pose proof (C3_netstore_get
                (mkStore mapStorer (networkWith sampleChunk) false)
                (None : option (list (list Z))) ∅ ModeGetRequest [7])
    as (_ & _ & Hret & _).
  split.
  - assert (isNotFound ErrNotFound = true) as Hnf by reflexivity.
    destruct (Hrec ErrNotFound (ErrOther 110) [[1]] eq_refl Hnf eq_refl
                eq_refl eq_refl) as (Hr & Hc & _).
    exact (conj Hr Hc).
  - assert (isNotFound ErrNotFound = true) as Hnf by reflexivity.
    destruct (Hret ErrNotFound sampleChunk eq_refl Hnf eq_refl)
      as (_ & _ & Hok & _).
    exact (Hok false eq_refl).
Defined.

(** C3 fails as stated: with no recovery targets, a retrieval that
    fails with another error than NotFound makes Get return that
    error, not NotFound; and a retrieved chunk is not returned when
    putting it into the local store fails. *)
Lemma C3_counterexample :
  snd (Get (mkStore mapStorer networkTimeout false)
           (None : option (list (list Z))) ∅ ModeGetRequest [7])
    = inr (ErrOther 110)
  /\ isNotFound (ErrOther 110) = false
  /\ snd (Get (mkStore fullStorer (networkWith sampleChunk) false)
              (None : option (list (list Z))) ∅ ModeGetRequest [7])
     = inr (ErrWrap NetstoreRetrievePut (ErrOther 28)).
Proof. repeat split; reflexivity. Qed.

End NetstoreClaim.

(** ** Localstore: multi-get *)

Section LocalstoreFacts.
Import Infinity Localstore.

Lemma fillData_spec idx (items out : list Item) :
  fillData idx items = inl out ->
  map Address_ out = map Address_ items
  /\ Forall (fun it => idx !! Address_ it = Some (StoreTimestamp it, Data it))
            out.
Proof.
  revert out. induction items as [|it items IH]; intros out; simpl.
  { by intros [= <-]. }
  destruct (idx !! Address_ it) as [[ts data]|] eqn:Hit; [|done].
  destruct (fillData idx items) as [out'|]; [|done].
  intros [= <-]. destruct (IH out' eq_refl) as [Ha Hf].
  split; [simpl; by rewrite Ha|]. by constructor.
Qed.

Lemma fillPin_spec idx (items out : list Item) :
  fillPin idx items = inl out ->
  map Address_ out = map Address_ items
  /\ map Data out = map Data items
  /\ Forall (fun it => idx !! Address_ it = Some (PinCounter it)) out.
Proof.
  revert out. induction items as [|it items IH]; intros out; simpl.
  { by intros [= <-]. }
  destruct (idx !! Address_ it) as [counter|] eqn:Hit; [|done].
  destruct (fillPin idx items) as [out'|]; [|done].
  intros [= <-]. destruct (IH out' eq_refl) as (Ha & Hd & Hf).
  split; [simpl; by rewrite Ha|]. split; [simpl; by rewrite Hd|].
  by constructor.
Qed.







End LocalstoreFacts.

(** ** The chunk pipe *)

Section FileFacts.
Import Infinity File.

Lemma ChunkSize_pos : (0 < ChunkSize)%nat.
Proof. apply Nat.ltb_lt. vm_compute. reflexivity. Qed.

Lemma maxBufferSize_eq : maxBufferSize = (ChunkSize + ChunkSize)%nat.
Proof. unfold maxBufferSize. lia. Qed.

Local Opaque ChunkSize.

Lemma writeLoop_done fuel c b nw :
  (length b <= nw)%nat -> writeLoop fuel c b nw = Some (c, (nw, None)).
Proof.
  intros H. apply Nat.leb_le in H. destruct fuel; simpl; by rewrite H.
Qed.

Lemma writeLoop_step fuel c b nw :
  (nw < length b)%nat ->
  writeLoop (S fuel) c b nw =
  let data1 := fst (copyAt (data c) (cursor c) (drop nw b)) in
  let copied := snd (copyAt (data c) (cursor c) (drop nw b)) in
  let cursor1 := (cursor c + copied)%nat in
  let nw1 := (nw + copied)%nat in
  if (ChunkSize <=? cursor1)%nat then
    match pipeWrite (writer c) (take ChunkSize data1) with
    | (w1, (_, Some err)) =>
        Some (mkChunkPipe w1 data1 cursor1, (nw1, Some err))
    | (w1, (written, None)) =>
        if negb (ChunkSize =? written)%nat
        then Some (mkChunkPipe w1 data1 cursor1, (nw1, Some ErrShortWrite))
        else
          writeLoop fuel
            (mkChunkPipe w1 (fst (copyAt data1 0 (drop ChunkSize data1)))
                         (cursor1 - ChunkSize)) b nw1
    end
  else writeLoop fuel (mkChunkPipe (writer c) data1 cursor1) b nw1.
Proof.
  intros H. apply Nat.leb_gt in H. cbn [writeLoop]. rewrite H.
  by destruct (copyAt (data c) (cursor c) (drop nw b)).
Qed.

(** One copy into the buffer. *)
Lemma copyAt_pending (dst : list Z) off (src : list Z) :
  (off <= ChunkSize)%nat -> length dst = maxBufferSize -> src <> [] ->
  let data1 := fst (copyAt dst off src) in
  let copied := snd (copyAt dst off src) in
  (0 < copied <= length src)%nat
  /\ (off + copied <= maxBufferSize)%nat
  /\ length data1 = maxBufferSize
  /\ take (off + copied) data1 = take off dst ++ take copied src.
Proof.
  intros Hoff Hlen Hsrc. unfold copyAt. cbn [fst snd].
  pose proof ChunkSize_pos as Hpos. pose proof maxBufferSize_eq as Hmax.
  assert (0 < length src)%nat as Hs by (destruct src; simpl; [done|lia]).
  set (n := Nat.min (length dst - off) (length src)).
  assert (0 < n <= length src)%nat as Hn by (subst n; lia).
  assert (off + n <= maxBufferSize)%nat as Hon by (subst n; lia).
  assert (length (take off dst) = off) as Ht
    by (rewrite length_take; lia).
  assert (length (take n src) = n) as Hts
    by (rewrite length_take; lia).
  repeat split; try lia.
  - rewrite !length_app, Ht, Hts, length_drop. lia.
  - rewrite app_assoc. apply take_app_length'.
    rewrite length_app. lia.
Qed.

(** Handing one chunk over and moving the rest to the front. *)
Lemma copyAt_flush (data1 : list Z) cursor1 :
  length data1 = maxBufferSize ->
  (ChunkSize <= cursor1 <= maxBufferSize)%nat ->
  let data2 := fst (copyAt data1 0 (drop ChunkSize data1)) in
  length data2 = maxBufferSize
  /\ length (take ChunkSize data1) = ChunkSize
  /\ take ChunkSize data1 ++ take (cursor1 - ChunkSize) data2
     = take cursor1 data1.
Proof.
  intros Hlen Hc. unfold copyAt. cbn [fst].
  pose proof ChunkSize_pos as Hpos. pose proof maxBufferSize_eq as Hmax.
  rewrite take_0, Nat.sub_0_r, length_drop. cbn [app].
  replace (Nat.min (length data1) (length data1 - ChunkSize))
    with ChunkSize by lia.
  rewrite (take_ge (drop ChunkSize data1)) by (rewrite length_drop; lia).
  cbn [Nat.add]. split; [|split].
  - rewrite length_app, length_drop. lia.
  - rewrite length_take. lia.
  - rewrite take_app_le by (rewrite length_drop; lia).
    rewrite take_take_drop. f_equal. lia.
Qed.

Lemma writeLoop_inv (fuel : nat) : forall c b nw acc,
  pipeInv c acc ->
  (length b - nw <= fuel)%nat ->
  exists c',
    writeLoop fuel c b nw = Some (c', (Nat.max nw (length b), None))
    /\ pipeInv c' (acc ++ drop nw b).
Proof.
  induction fuel as [|fuel IH]; intros c b nw acc Hinv Hfuel.
  { exists c. rewrite writeLoop_done by lia.
    rewrite drop_ge, app_nil_r by lia. split; [|done].
    do 3 f_equal. lia. }
  destruct (Nat.le_gt_cases (length b) nw) as [Hle|Hgt].
  { exists c. rewrite writeLoop_done by lia.
    rewrite drop_ge, app_nil_r by lia. split; [|done].
    do 3 f_equal. lia. }
  rewrite writeLoop_step by done.
  destruct Hinv as (Hlen & Hcur & Hopen & Hsegs & Hacc).
  assert (drop nw b <> []) as Hrest.
  { intros Hnil. apply (f_equal length) in Hnil.
    rewrite length_drop in Hnil. simpl in Hnil. lia. }
  destruct (copyAt_pending (data c) (cursor c) (drop nw b) Hcur Hlen Hrest)
    as (Hcopied & Hfit & Hlen1 & Htake).
  set (data1 := fst (copyAt (data c) (cursor c) (drop nw b))) in *.
  set (copied := snd (copyAt (data c) (cursor c) (drop nw b))) in *.
  rewrite length_drop in Hcopied.
  cbv zeta.
  assert (acc ++ drop nw b
          = (acc ++ take copied (drop nw b)) ++ drop (nw + copied) b) as Hsplit.
  { rewrite <- app_assoc. f_equal. rewrite <- drop_drop. by rewrite take_drop. }
  destruct (Nat.leb_spec ChunkSize (cursor c + copied)) as [Hfull|Hpart].
  - destruct (copyAt_flush data1 (cursor c + copied) Hlen1 ltac:(lia))
      as (Hlen2 & Hseg & Hjoin).
    unfold pipeWrite. rewrite Hopen, Hseg, Nat.eqb_refl. cbn [negb].
    destruct (IH (mkChunkPipe (mkPipe (segments (writer c)
                                         ++ [take ChunkSize data1]) false)
                    (fst (copyAt data1 0 (drop ChunkSize data1)))
                    (cursor c + copied - ChunkSize))
                 b (nw + copied)%nat
                 (acc ++ take copied (drop nw b)))
      as (c' & Hrun & Hinv').
    + pose proof maxBufferSize_eq. unfold pipeInv.
      cbn [data cursor writer segments closed].
      split; [done|]. split; [lia|]. split; [done|]. split.
      * apply Forall_app. split; [done|]. by repeat constructor.
      * rewrite concat_app. cbn [concat]. rewrite app_nil_r, <- app_assoc.
        rewrite Hjoin, Htake, app_assoc. by rewrite Hacc.
    + lia.
    + exists c'. rewrite Hrun, Hsplit. split; [|done].
      do 3 f_equal. lia.
  - destruct (IH (mkChunkPipe (writer c) data1 (cursor c + copied))
                 b (nw + copied)%nat
                 (acc ++ take copied (drop nw b)))
      as (c' & Hrun & Hinv').
    + unfold pipeInv. cbn [data cursor writer segments closed].
      split; [done|]. split; [lia|]. split; [done|]. split; [done|].
      rewrite Htake, app_assoc. by rewrite Hacc.
    + lia.
    + exists c'. rewrite Hrun, Hsplit. split; [|done].
      do 3 f_equal. lia.
Qed.

Lemma Write_inv c b acc :
  pipeInv c acc ->
  exists c', Write c b = Some (c', (length b, None))
             /\ pipeInv c' (acc ++ b).
Proof.
  intros Hinv. unfold Write.
  destruct (writeLoop_inv (length b) c b 0 acc Hinv) as (c' & Hrun & Hinv');
    [lia|].
  exists c'. by rewrite Hrun, drop_0 in *.
Qed.

Lemma writeAll_inv (bs : list (list Z)) : forall c acc,
  pipeInv c acc ->
  exists c', writeAll c bs = Some (c', None)
             /\ pipeInv c' (acc ++ concat bs).
Proof.
  induction bs as [|b bs IH]; intros c acc Hinv.
  { exists c. simpl. by rewrite app_nil_r. }
  destruct (Write_inv c b acc Hinv) as (c1 & Hw & Hinv1).
  destruct (IH c1 (acc ++ b) Hinv1) as (c' & Hrun & Hinv').
  exists c'. cbn [writeAll concat]. rewrite Hw, Hrun.
  by rewrite app_assoc.
Qed.

Lemma NewChunkPipe_inv : pipeInv NewChunkPipe [].
Proof.
  unfold pipeInv, NewChunkPipe. cbn.
  rewrite length_replicate. repeat split; try done. lia.
Qed.

Lemma Close_inv c acc :
  pipeInv c acc ->
  let out := Close c in
  snd out = None
  /\ closed (writer (fst out)) = true
  /\ concat (segments (writer (fst out))) = acc
  /\ (forall segs s, segments (writer (fst out)) = segs ++ [s] ->
        Forall (fun x => length x = ChunkSize) segs
        /\ (0 < length s <= ChunkSize)%nat).
Proof.
  intros (Hlen & Hcur & Hopen & Hsegs & Hacc).
  pose proof ChunkSize_pos as Hpos. pose proof maxBufferSize_eq as Hmax.
  unfold Close. destruct (Nat.ltb_spec 0 (cursor c)) as [Hlt|Hge].
  - unfold pipeWrite. rewrite Hopen.
    assert (length (take (cursor c) (data c)) = cursor c) as Hl
      by (rewrite length_take; lia).
    rewrite Hl, Nat.eqb_refl. cbn.
    split; [done|]. split; [done|]. split.
    + rewrite concat_app. cbn. by rewrite app_nil_r.
    + intros segs s Heq. apply app_inj_tail in Heq as [<- <-].
      split; [done|]. lia.
  - cbn. split; [done|]. split; [done|].
    assert (cursor c = 0%nat) as H0 by lia.
    rewrite H0, take_0, app_nil_r in Hacc. split; [done|].
    intros segs s Heq. rewrite Heq in Hsegs.
    apply Forall_app in Hsegs as [Hs1 Hs2]. split; [done|].
    inversion Hs2; subst. lia.
Qed.

(** C10: whatever the slices of a sequence of Write calls followed by
    Close, the bytes handed to the underlying pipe are the written
    bytes in order, and every segment but the last one is exactly
    [ChunkSize] long (the last one is not empty and not longer). *)
Theorem C10_chunk_pipe_segments (bs : list (list Z)) :
  exists c',
    writeAllClose NewChunkPipe bs = Some (c', None)
    /\ closed (writer c') = true
    /\ concat (segments (writer c')) = concat bs
    /\ (forall segs s, segments (writer c') = segs ++ [s] ->
          Forall (fun x => length x = ChunkSize) segs
          /\ (0 < length s <= ChunkSize)%nat).
Proof.
  destruct (writeAll_inv bs NewChunkPipe [] NewChunkPipe_inv)
    as (c1 & Hrun & Hinv).
  unfold writeAllClose. rewrite Hrun.
  destruct (Close_inv c1 _ Hinv) as (Herr & Hclosed & Hcat & Hsegs).
  exists (fst (Close c1)). destruct (Close c1) as [c' e]. cbn in *.
  subst e. done.
Qed.

End FileFacts.

Section FileClaim.
Import Infinity File.

Lemma C10_chunk_pipe_witness :
  exists c' s,
    writeAllClose NewChunkPipe [replicate 5000 1; replicate 100 2]
      = Some (c', None)
    /\ segments (writer c') = [replicate ChunkSize 1] ++ [s]
    /\ (0 < length s <= ChunkSize)%nat.
Proof.
  destruct (C10_chunk_pipe_segments [replicate 5000 1; replicate 100 2])
    as (c' & Hrun & _ & _ & Hsegs).
  assert (segments (writer c')
          = [replicate ChunkSize 1]
            ++ [replicate 904 1 ++ replicate 100 2]) as Heq.
  { vm_compute in Hrun. injection Hrun as <-. vm_compute. reflexivity. }
  exists c', (replicate 904 1 ++ replicate 100 2).
  split; [exact Hrun|]. split; [exact Heq|].
  exact (proj2 (Hsegs _ _ Heq)).
Defined.

End FileClaim.

(** ** Balanced-prefix pseudo addresses *)

Section PrefixFacts.
Import Infinity pslice Kademlia.

Lemma byteOps_checked :
  forallb (fun b => forallb (byteOpsPos (Z.of_nat b)) (seq 0 8)) (seq 0 256)
  = true.
Proof. vm_compute. reflexivity. Qed.

Local Opaque setBitMSB clearBitMSB Reverse8 hasBit uint8 byteOpsPos byteOpsAt.

Lemma byteOps_pos (b : Z) (pos : nat) :
  0 <= b < 256 -> (pos < 8)%nat -> byteOpsPos b pos = true.
Proof.
  intros Hb Hpos.
  assert (In (Z.to_nat b) (seq 0 256)) as Hin by (apply in_seq; lia).
  pose proof (proj1 (forallb_forall _ _) byteOps_checked (Z.to_nat b) Hin)
    as H1.
  cbv beta in H1. rewrite Z2Nat.id in H1 by lia.
  exact (proj1 (forallb_forall _ _) H1 pos ltac:(apply in_seq; lia)).
Qed.

Local Transparent byteOpsPos byteOpsAt.

Lemma byteOps (b : Z) (pos : nat) :
  0 <= b < 256 -> (pos < 8)%nat ->
  (0 <= setBitMSB pos b < 256)
  /\ (0 <= clearBitMSB pos b < 256)
  /\ hasBit (Reverse8 b) (uint8 (Z.of_nat pos))
     = Z.testbit b (Z.of_nat (7 - pos))
  /\ hasBit b (uint8 (Z.of_nat pos)) = Z.testbit b (Z.of_nat pos)
  /\ (forall k, (k < 8)%nat ->
        Z.testbit (setBitMSB pos b) (Z.of_nat (7 - k))
        = ((k =? pos)%nat || Z.testbit b (Z.of_nat (7 - k)))
        /\ Z.testbit (clearBitMSB pos b) (Z.of_nat (7 - k))
           = (negb (k =? pos)%nat && Z.testbit b (Z.of_nat (7 - k)))).
Proof.
  intros Hb Hpos. pose proof (byteOps_pos b pos Hb Hpos) as H.
  unfold byteOpsPos in H.
  apply andb_true_iff in H as [H Hk].
  apply andb_true_iff in H as [H Hh'].
  apply andb_true_iff in H as [H Hh].
  apply andb_true_iff in H as [Hs Hc].
  apply isByte_spec in Hs. apply isByte_spec in Hc.
  apply Bool.eqb_prop in Hh. apply Bool.eqb_prop in Hh'.
  split; [done|]. split; [done|]. split; [done|]. split; [done|].
  intros k Hk8.
  pose proof (proj1 (forallb_forall _ _) Hk k ltac:(apply in_seq; lia)) as Hat.
  unfold byteOpsAt in Hat. apply andb_true_iff in Hat as [H1 H2].
  apply Bool.eqb_prop in H1. apply Bool.eqb_prop in H2. done.
Qed.

Lemma forallb_isByte bs : forallb isByte bs = true <-> bytesOK bs.
Proof.
  unfold bytesOK. rewrite forallb_forall, Forall_forall.
  split; intros H b Hb.
  - apply isByte_spec, H. by apply list_elem_of_In.
  - apply isByte_spec, H. by apply list_elem_of_In.
Qed.

Lemma bit_index (l l' : nat) :
  l' = l <-> (l' / 8 = l / 8 /\ l' mod 8 = l mod 8)%nat.
Proof.
  split; [by intros ->|]. intros [Hd Hm].
  rewrite (Nat.div_mod_eq l 8), (Nat.div_mod_eq l' 8). lia.
Qed.

(** Writing bit [l] of a slice through [updateByte]. *)
Lemma updateByte_bit (bs : list Z) (l : nat) (v : bool) :
  bytesOK bs -> (l < 8 * length bs)%nat ->
  exists bs',
    updateByte bs (l / 8)
      (if v then setBitMSB (l mod 8) else clearBitMSB (l mod 8)) = Some bs'
    /\ bytesOK bs' /\ length bs' = length bs
    /\ (forall l', bitAt bs' l' = if (l' =? l)%nat then v else bitAt bs l').
Proof.
  intros Hok Hl.
  assert (l / 8 < length bs)%nat as Hidx by (apply Nat.Div0.div_lt_upper_bound; lia).
  destruct (lookup_lt_is_Some_2 bs (l / 8) Hidx) as [b Hb].
  assert (0 <= b < 256) as Hbr.
  { unfold bytesOK in Hok. rewrite Forall_forall in Hok. apply Hok.
    by eapply list_elem_of_lookup_2. }
  assert (l mod 8 < 8)%nat as Hpos by (apply Nat.mod_upper_bound; lia).
  destruct (byteOps b (l mod 8) Hbr Hpos) as (Hs & Hc & _ & _ & Hk).
  unfold updateByte. rewrite Hb. eexists. split; [reflexivity|].
  split; [|split].
  - apply Forall_insert; [done|]. by destruct v.
  - by rewrite length_insert.
  - intros l'. unfold bitAt. rewrite !nth_lookup.
    assert (l' mod 8 < 8)%nat as Hpos' by (apply Nat.mod_upper_bound; lia).
    destruct (decide (l' / 8 = l / 8)%nat) as [Heq|Hne].
    + rewrite Heq, list_lookup_insert_eq, Hb by done. cbn [default from_option].
      destruct (Hk (l' mod 8)%nat Hpos') as [Hks Hkc].
      assert ((l' mod 8 =? l mod 8)%nat = (l' =? l)%nat) as Hm.
      { destruct (Nat.eqb_spec l' l) as [->|Hll]; [apply Nat.eqb_refl|].
        apply Nat.eqb_neq. intros Hm. by apply Hll, bit_index. }
      rewrite Hm in *.
      destruct v; cbv beta iota; unfold id; [rewrite Hks|rewrite Hkc];
        by destruct (l' =? l)%nat.
    + rewrite list_lookup_insert_ne by done.
      destruct (Nat.eqb_spec l' l) as [->|Hll]; [done|done].
Qed.

Lemma flipBinBit_bit (bs : list Z) (i : nat) :
  bytesOK bs -> (i < 8 * length bs)%nat ->
  exists bs',
    flipBinBit bs i = Some bs'
    /\ bytesOK bs' /\ length bs' = length bs
    /\ (forall l', bitAt bs' l'
                   = if (l' =? i)%nat then negb (bitAt bs i) else bitAt bs l').
Proof.
  intros Hok Hi.
  destruct (updateByte_bit bs i (negb (bitAt bs i)) Hok Hi)
    as (bs' & Hup & Hrest).
  exists bs'. split; [|done]. rewrite <- Hup. unfold flipBinBit, updateByte.
  assert (i / 8 < length bs)%nat as Hidx
    by (apply Nat.Div0.div_lt_upper_bound; lia).
  destruct (lookup_lt_is_Some_2 bs (i / 8) Hidx) as [b Hb]. rewrite Hb.
  assert (0 <= b < 256) as Hbr.
  { unfold bytesOK in Hok. rewrite Forall_forall in Hok. apply Hok.
    by eapply list_elem_of_lookup_2. }
  assert (i mod 8 < 8)%nat as Hpos by (apply Nat.mod_upper_bound; lia).
  destruct (byteOps b (i mod 8) Hbr Hpos) as (_ & _ & Hh & _).
  rewrite Hh. unfold bitAt. rewrite nth_lookup, Hb. cbn [default from_option].
  unfold id. destruct (Z.testbit b _); reflexivity.
Qed.

Lemma hasBit_suffix (suffix pos : Z) :
  0 <= suffix < 256 -> 0 <= pos < 8 ->
  hasBit suffix (uint8 pos) = Z.testbit suffix pos.
Proof.
  intros Hs Hp.
  destruct (byteOps suffix (Z.to_nat pos) Hs ltac:(lia)) as (_ & _ & _ & Hh & _).
  by rewrite Z2Nat.id in Hh by lia.
Qed.

Lemma setSuffix_bits (suffix : Z) (n : nat) :
  0 <= suffix < 256 ->
  forall l pos bs,
  bytesOK bs -> (l + n <= 8 * length bs)%nat ->
  Z.of_nat n - 1 <= pos < 8 ->
  exists bs',
    setSuffix n l pos suffix bs = Some bs'
    /\ bytesOK bs' /\ length bs' = length bs
    /\ (forall l', bitAt bs' l'
                   = if (l <=? l')%nat && (l' <? l + n)%nat
                     then Z.testbit suffix (pos - Z.of_nat (l' - l))
                     else bitAt bs l').
Proof.
  intros Hs. induction n as [|n IH]; intros l pos bs Hok Hl Hpos.
  { exists bs. repeat split; try done. intros l'.
    destruct (l <=? l')%nat eqn:H1; [|done].
    destruct (l' <? l + 0)%nat eqn:H2; [|done].
    apply Nat.leb_le in H1. apply Nat.ltb_lt in H2. lia. }
  cbn [setSuffix].
  destruct (updateByte_bit bs l (hasBit suffix (uint8 pos)) Hok ltac:(lia))
    as (bs1 & -> & Hok1 & Hlen1 & Hbits1).
  destruct (IH (S l) (pos - 1) bs1 Hok1 ltac:(lia) ltac:(lia))
    as (bs' & Hrun & Hok' & Hlen' & Hbits').
  exists bs'. rewrite Hrun. split; [done|]. split; [done|].
  split; [congruence|]. intros l'. rewrite Hbits', Hbits1.
  rewrite hasBit_suffix by lia.
  destruct (Nat.leb_spec (S l) l'), (Nat.ltb_spec l' (S l + n)),
    (Nat.leb_spec l l'), (Nat.ltb_spec l' (l + S n)),
    (Nat.eqb_spec l' l); cbn [andb]; try lia; try done.
  - f_equal. lia.
  - subst l'. f_equal. lia.
Qed.

Lemma clearRest_bits (n : nat) : forall l bs,
  bytesOK bs -> (l + n <= 8 * length bs)%nat ->
  exists bs',
    clearRest n l bs = Some bs'
    /\ bytesOK bs' /\ length bs' = length bs
    /\ (forall l', bitAt bs' l'
                   = if (l <=? l')%nat && (l' <? l + n)%nat
                     then false else bitAt bs l').
Proof.
  induction n as [|n IH]; intros l bs Hok Hl.
  { exists bs. repeat split; try done. intros l'.
    destruct (l <=? l')%nat eqn:H1; [|done].
    destruct (l' <? l + 0)%nat eqn:H2; [|done].
    apply Nat.leb_le in H1. apply Nat.ltb_lt in H2. lia. }
  cbn [clearRest].
  destruct (updateByte_bit bs l false Hok ltac:(lia))
    as (bs1 & Hup & Hok1 & Hlen1 & Hbits1).
  cbv iota in Hup. rewrite Hup.
  destruct (IH (S l) bs1 Hok1 ltac:(lia))
    as (bs' & Hrun & Hok' & Hlen' & Hbits').
  exists bs'. rewrite Hrun. split; [done|]. split; [done|].
  split; [congruence|]. intros l'. rewrite Hbits', Hbits1.
  destruct (Nat.leb_spec (S l) l'), (Nat.ltb_spec l' (S l + n)),
    (Nat.leb_spec l l'), (Nat.ltb_spec l' (l + S n)),
    (Nat.eqb_spec l' l); cbn [andb]; try lia; done.
Qed.

Local Transparent uint8.

Lemma uint8_small (z : Z) : 0 <= z < 256 -> uint8 z = z.
Proof. intros Hz. unfold uint8. by apply Z.mod_small. Qed.

Local Opaque uint8.

Lemma wfAddress_bytesOK a :
  wfAddress a = true <-> length a = 32%nat /\ bytesOK a.
Proof. by rewrite wfAddress_spec, forallb_isByte. Qed.

Lemma pseudoAddress_bits (baseBytes : Address) (bsl i j : nat) :
  wfAddress baseBytes = true ->
  (0 < bsl <= 8)%nat -> (i < MaxBins)%nat -> (j < 2 ^ bsl)%nat ->
  exists a,
    pseudoAddress baseBytes bsl i j = Some a
    /\ wfAddress a = true
    /\ (forall l, (l < 256)%nat ->
          bitAt a l = pseudoBit baseBytes bsl i j l).
Proof.
  intros Hwf Hbsl Hi Hj. apply wfAddress_bytesOK in Hwf as [Hlen Hok].
  unfold MaxBins, MaxPO in Hi.
  assert (2 ^ bsl <= 2 ^ 8)%nat as Hpow by (apply Nat.pow_le_mono_r; lia).
  change (2 ^ 8)%nat with 256%nat in Hpow.
  assert (uint8 (Z.of_nat j) = Z.of_nat j) as Hu
    by (apply uint8_small; lia).
  unfold pseudoAddress. rewrite Hu.
  destruct (flipBinBit_bit baseBytes i Hok ltac:(lia))
    as (bs1 & -> & Hok1 & Hlen1 & Hbits1).
  destruct (setSuffix_bits (Z.of_nat j) bsl ltac:(lia) (i + 1)
              (Z.of_nat bsl - 1) bs1 Hok1 ltac:(lia) ltac:(lia))
    as (bs2 & -> & Hok2 & Hlen2 & Hbits2).
  destruct (clearRest_bits (length bs2 * 8 - (i + bsl + 1)) (i + bsl + 1) bs2
              Hok2 ltac:(lia))
    as (a & -> & Hok3 & Hlen3 & Hbits3).
  exists a. split; [done|]. split.
  { apply wfAddress_bytesOK. split; [congruence|done]. }
  intros l Hl. rewrite Hbits3, Hbits2, Hbits1. unfold pseudoBit.
  rewrite Hlen2, Hlen1, Hlen.
  destruct (Nat.leb_spec (i + bsl + 1) l),
    (Nat.ltb_spec l (i + bsl + 1 + (32 * 8 - (i + bsl + 1)))),
    (Nat.leb_spec (i + 1) l), (Nat.ltb_spec l (i + 1 + bsl)),
    (Nat.eqb_spec l i), (Nat.ltb_spec l i), (Nat.ltb_spec l (i + bsl + 1));
    cbn [andb]; try lia; try done.
  f_equal. lia.
Qed.

Lemma matchingBits_first_diff (a b : list Z) (i : nat) : forall fuel l,
  (l <= i)%nat -> (i < l + fuel)%nat ->
  (forall l', (l <= l' < i)%nat -> bitAt a l' = bitAt b l') ->
  bitAt a i <> bitAt b i ->
  matchingBits fuel l a b = i.
Proof.
  induction fuel as [|fuel IH]; intros l Hl Hfuel Hsame Hdiff; [lia|].
  cbn [matchingBits].
  destruct (decide (l = i)) as [->|Hne].
  - destruct (bitAt a i), (bitAt b i); done.
  - rewrite (Hsame l) by lia. rewrite eqb_reflx.
    apply IH; try lia; try done. intros l' Hl'. apply Hsame. lia.
Qed.

Lemma allSome_Some {A : Type} (l : list (option A)) :
  (forall o, In o l -> is_Some o) ->
  exists xs, allSome l = Some xs /\ map Some xs = l.
Proof.
  induction l as [|o l IH]; intros Hall.
  { by exists []. }
  destruct (Hall o) as [x ->]; [by left|].
  destruct IH as (xs & Hxs & Hmap); [intros; apply Hall; by right|].
  exists (x :: xs). simpl. rewrite Hxs. split; [done|]. by rewrite Hmap.
Qed.

Lemma allSome_map_seq {A : Type} (f : nat -> option A) (n : nat) :
  (forall x, (x < n)%nat -> is_Some (f x)) ->
  exists xs, allSome (map f (seq 0 n)) = Some xs
             /\ forall x, (x < n)%nat -> f x = xs !! x.
Proof.
  intros Hall. destruct (allSome_Some (map f (seq 0 n))) as (xs & Hxs & Hmap).
  { intros o Ho. apply in_map_iff in Ho as (x & <- & Hx).
    apply in_seq in Hx. apply Hall. lia. }
  exists xs. split; [done|]. intros x Hx.
  assert (map Some xs !! x = map f (seq 0 n) !! x) as Hl by by rewrite Hmap.
  change (map Some xs) with (Some <$> xs) in Hl.
  change (map f (seq 0 n)) with (f <$> seq 0 n) in Hl.
  rewrite !list_lookup_fmap in Hl. rewrite lookup_seq_lt in Hl by done.
  simpl in Hl. destruct (xs !! x); simpl in Hl; congruence.
Qed.

(** C8 (as amended): for a [bitSuffixLength] between 1 and 8, every
    bin [i] and every enumeration index [j] below 2^bitSuffixLength,
    the generated [commonBinPrefixes[i][j]] is the
    base address with bit [i] flipped, the next [bitSuffixLength] bits
    the binary encoding of [j] and every later bit zero; its proximity
    order with the base address is [i]. *)
Theorem C8_common_bin_prefixes (k : Kad) (bsl i j : nat) :
  wfAddress (base k) = true ->
  bitSuffixLength k = Z.of_nat bsl ->
  (0 < bsl <= 8)%nat ->
  length (commonBinPrefixes k) = MaxBins ->
  (i < MaxBins)%nat ->
  (j < 2 ^ bsl)%nat ->
  exists k' row a,
    generateCommonBinPrefixes k = Some k'
    /\ commonBinPrefixes k' !! i = Some row
    /\ row !! j = Some a
    /\ wfAddress a = true
    /\ (forall l, (l < 256)%nat ->
          bitAt a l = pseudoBit (base k) bsl i j l)
    /\ Proximity (base k) a = i.
Proof.
  intros Hwf Hbsl Hrange Hlen Hi Hj.
  unfold generateCommonBinPrefixes. rewrite Hbsl, Hlen.
  assert (Z.to_nat (2 ^ Z.of_nat bsl) = (2 ^ bsl)%nat) as ->.
  { change 2 with (Z.of_nat 2). rewrite <- Nat2Z.inj_pow. apply Nat2Z.id. }
  rewrite Nat2Z.id.
  set (rowOf := fun i' =>
         allSome (map (pseudoAddress (base k) bsl i') (seq 0 (2 ^ bsl)))).
  assert (forall i', (i' < MaxBins)%nat ->
            exists row, rowOf i' = Some row
                        /\ forall j', (j' < 2 ^ bsl)%nat ->
                              pseudoAddress (base k) bsl i' j' = row !! j')
    as Hrows.
  { intros i' Hi'. apply allSome_map_seq. intros j' Hj'.
    destruct (pseudoAddress_bits (base k) bsl i' j' Hwf Hrange Hi' Hj')
      as (a & -> & _). by eexists. }
  destruct (allSome_map_seq rowOf MaxBins) as (prefixes & Hgen & Hlook).
  { intros i' Hi'. destruct (Hrows i' Hi') as (row & -> & _). by eexists. }
  fold rowOf. rewrite Hgen.
  destruct (Hrows i Hi) as (row & Hrow & Hrowj).
  destruct (pseudoAddress_bits (base k) bsl i j Hwf Hrange Hi Hj)
    as (a & Ha & Hawf & Hbits).
  exists (setPrefixes k prefixes), row, a. cbn [commonBinPrefixes setPrefixes].
  split; [done|]. split; [by rewrite <- Hlook, Hrow|].
  split; [by rewrite <- Hrowj, Ha|]. split; [done|]. split; [done|].
  unfold Proximity, ExtendedProximity.
  apply wfAddress_spec in Hwf as [Hl1 _]. apply wfAddress_spec in Hawf as [Hl2 _].
  rewrite Hl1, Hl2. unfold MaxBins, MaxPO in *.
  rewrite (matchingBits_first_diff (base k) a i); [lia|lia|lia| |].
  - intros l' Hl'. rewrite Hbits by lia. unfold pseudoBit.
    by destruct (Nat.ltb_spec l' i); [|lia].
  - rewrite Hbits by lia. unfold pseudoBit.
    rewrite Nat.ltb_irrefl, Nat.eqb_refl. by destruct (bitAt (base k) i).
Qed.

Lemma C8_common_bin_prefixes_witness :
  let k := mkKad (replicate 32 255) binSaturated 2 (replicate MaxBins [])
                 (pslice.New MaxBins) (pslice.New MaxBins) 0 ∅ false ∅ in
  exists k' row a,
    generateCommonBinPrefixes k = Some k'
    /\ commonBinPrefixes k' !! 9%nat = Some row
    /\ row !! 2%nat = Some a
    /\ bitAt a 9 = false /\ bitAt a 10 = true /\ bitAt a 11 = false
    /\ Proximity (base k) a = 9%nat.
Proof.
  intros k.
  destruct (C8_common_bin_prefixes k 2 9 2)
    as (k' & row & a & Hgen & Hrow & Ha & _ & Hbits & Hprox);
    [reflexivity|reflexivity|lia|reflexivity|unfold MaxBins, MaxPO; lia
    |simpl; lia|].
  exists k', row, a. split; [exact Hgen|]. split; [exact Hrow|].
  split; [exact Ha|].
  rewrite !Hbits by lia. repeat split; try exact Hprox; reflexivity.
Defined.

Lemma updateByte_Some (bs : list Z) (index : nat) (f : Z -> Z) :
  (index < length bs)%nat ->
  exists bs', updateByte bs index f = Some bs' /\ length bs' = length bs.
Proof.
  intros Hlt. unfold updateByte.
  destruct (lookup_lt_is_Some_2 bs index Hlt) as [b ->].
  eexists. split; [reflexivity|]. by rewrite length_insert.
Qed.

Lemma setSuffix_Some (n : nat) : forall l pos suffix (bs : list Z),
  (l + n <= 8 * length bs)%nat ->
  exists bs', setSuffix n l pos suffix bs = Some bs'
              /\ length bs' = length bs.
Proof.
  induction n as [|n IH]; intros l pos suffix bs Hl.
  { by exists bs. }
  cbn [setSuffix].
  destruct (updateByte_Some bs (l / 8)
              (if hasBit suffix (uint8 pos)
               then setBitMSB (l mod 8) else clearBitMSB (l mod 8)))
    as (bs1 & -> & Hlen1).
  { apply Nat.Div0.div_lt_upper_bound. lia. }
  destruct (IH (S l) (pos - 1) suffix bs1) as (bs2 & -> & Hlen2); [lia|].
  exists bs2. split; [done|congruence].
Qed.

Lemma clearRest_Some (n : nat) : forall l (bs : list Z),
  (l + n <= 8 * length bs)%nat ->
  exists bs', clearRest n l bs = Some bs' /\ length bs' = length bs.
Proof.
  induction n as [|n IH]; intros l bs Hl.
  { by exists bs. }
  cbn [clearRest].
  destruct (updateByte_Some bs (l / 8) (clearBitMSB (l mod 8)))
    as (bs1 & -> & Hlen1).
  { apply Nat.Div0.div_lt_upper_bound. lia. }
  destruct (IH (S l) bs1) as (bs2 & -> & Hlen2); [lia|].
  exists bs2. split; [done|congruence].
Qed.

(** Within the bits of the address no index is out of range, whatever
    the suffix length. *)
Lemma pseudoAddress_Some (baseBytes : list Z) (bsl i j : nat) :
  (i + bsl + 1 <= 8 * length baseBytes)%nat ->
  is_Some (pseudoAddress baseBytes bsl i j).
Proof.
  intros Hl. unfold pseudoAddress, flipBinBit.
  destruct (updateByte_Some baseBytes (i / 8)
              (fun b => if hasBit (Reverse8 b) (uint8 (Z.of_nat (i mod 8)))
                        then clearBitMSB (i mod 8) b
                        else setBitMSB (i mod 8) b))
    as (bs1 & -> & Hlen1).
  { apply Nat.Div0.div_lt_upper_bound. lia. }
  destruct (setSuffix_Some bsl (i + 1) (Z.of_nat bsl - 1)
              (uint8 (Z.of_nat j)) bs1) as (bs2 & -> & Hlen2); [lia|].
  destruct (clearRest_Some (length bs2 * 8 - (i + bsl + 1)) (i + bsl + 1) bs2)
    as (bs3 & -> & _); [lia|].
  by eexists.
Qed.

(** With a suffix length of 9 the enumeration indices no longer fit the
    unsigned bytes they are stored in: index 256 is stored as 0, so
    the pseudo address of bin 3 and index 256 is the one of index 0,
    and its bit 4 is clear where the binary encoding of 256 has a set
    bit. *)
Lemma C8_counterexample :
  let k := mkKad (replicate 32 255) binSaturated 9 (replicate MaxBins [])
                 (pslice.New MaxBins) (pslice.New MaxBins) 0 ∅ false ∅ in
  exists k' row a,
    generateCommonBinPrefixes k = Some k'
    /\ commonBinPrefixes k' !! 3%nat = Some row
    /\ row !! 256%nat = Some a
    /\ row !! 0%nat = Some a
    /\ bitAt a 4 = false
    /\ pseudoBit (base k) 9 3 256 4 = true.
Proof.
  intros k. unfold generateCommonBinPrefixes.
  change (bitSuffixLength k) with 9. change (Z.to_nat 9) with 9%nat.
  change (Z.to_nat (2 ^ 9)) with 512%nat.
  change (length (commonBinPrefixes k)) with MaxBins.
  change (base k) with (replicate 32 255).
  set (rowOf := fun i' =>
         allSome (map (pseudoAddress (replicate 32 255) 9 i') (seq 0 512))).
  assert (forall i', (i' < MaxBins)%nat ->
            exists row, rowOf i' = Some row
                        /\ forall j', (j' < 512)%nat ->
                              pseudoAddress (replicate 32 255) 9 i' j'
                              = row !! j')
    as Hrows.
  { intros i' Hi'. apply allSome_map_seq. intros j' Hj'.
    apply pseudoAddress_Some. rewrite length_replicate.
    unfold MaxBins, MaxPO in Hi'. lia. }
  destruct (allSome_map_seq rowOf MaxBins) as (prefixes & Hgen & Hlook).
  { intros i' Hi'. destruct (Hrows i' Hi') as (row & -> & _). by eexists. }
  fold rowOf. rewrite Hgen.
  destruct (Hrows 3%nat) as (row & Hrow & Hrowj);
    [unfold MaxBins, MaxPO; lia|].
  exists (setPrefixes k prefixes), row, (224 :: 0 :: replicate 30 0).
  cbn [commonBinPrefixes setPrefixes].
  split; [done|].
  split; [rewrite <- Hlook by (unfold MaxBins, MaxPO; lia); exact Hrow|].
  split; [rewrite <- Hrowj by lia; vm_compute; reflexivity|].
  split; [rewrite <- Hrowj by lia; vm_compute; reflexivity|].
  split; vm_compute; reflexivity.
Qed.

End PrefixFacts.

(** ** The closest-peer helper *)

Section ClosestPeerHelper.
Import Infinity pslice Kademlia.

Lemma closestPeerStep_no_jump addr spf skipPeers st p po :
  snd (fst (snd (closestPeerStep addr spf skipPeers st p po))) = false.
Proof.
  unfold closestPeerStep. destruct (existsb _ _); [done|].
  destruct (spf p); [done|]. destruct (IsZero st); [done|].
  destruct (DistanceCmp _ _ _); [|done]. by destruct (_ =? _).
Qed.

Lemma wfAddress_not_zero a : wfAddress a = true -> IsZero a = false.
Proof.
  intros H. apply wfAddress_spec in H as [Hlen _].
  unfold IsZero, Equal, ZeroAddress. apply bool_decide_eq_false.
  intros ->. done.
Qed.

Variables (addr : Address) (spf : Address -> bool) (skipPeers : list Address).
Hypothesis addr_wf : wfAddress addr = true.

(** From a well-formed candidate on, the walk keeps a closest one. *)
Lemma closestPeer_walk_from (l : list (Address * nat)) (c : Address) :
  wfAddress c = true ->
  (forall p, In p (map fst l) -> wfAddress p = true) ->
  exists c',
    walkPeers (closestPeerStep addr spf skipPeers) l c = (c', None)
    /\ wfAddress c' = true
    /\ (c' = c \/ In c' (candidates spf skipPeers (map fst l)))
    /\ (forall q, In q (candidates spf skipPeers (map fst l)) ->
                  distance addr c' <= distance addr q)
    /\ distance addr c' <= distance addr c.
Proof.
  revert c. induction l as [|[p po] l IH]; intros c Hc Hl.
  { exists c. simpl. repeat split; try done; auto; lia. }
  assert (wfAddress p = true) as Hp by (apply Hl; simpl; auto).
  assert (forall q, In q (map fst l) -> wfAddress q = true) as Hl'
    by (intros q Hq; apply Hl; simpl; auto).
  cbn [walkPeers fst snd map]. unfold closestPeerStep at 1.
  unfold candidates. cbn [List.filter]. fold (skipped skipPeers p).
  fold (candidates spf skipPeers (map fst l)).
  destruct (skipped skipPeers p) eqn:Hsk; cbn [negb andb fst snd].
  { apply IH; done. }
  destruct (spf p) eqn:Hspf; cbn [negb andb fst snd].
  { apply IH; done. }
  rewrite (wfAddress_not_zero c Hc).
  rewrite (DistanceCmp_spec addr c p addr_wf Hc Hp).
  destruct (Z.compare_spec (distance addr c) (distance addr p)) as [Heq|Hlt|Hgt];
    cbn [Z.eqb Pos.eqb fst snd].
  - destruct (IH c Hc Hl') as (c' & Hw & Hwf & Hor & Hmin & Hle).
    exists c'. rewrite Hw. repeat split; try done.
    + destruct Hor as [->|Hin']; [by left|right; by right].
    + intros q [<-|Hq]; [lia|by apply Hmin].
  - destruct (IH c Hc Hl') as (c' & Hw & Hwf & Hor & Hmin & Hle).
    exists c'. rewrite Hw. repeat split; try done.
    + destruct Hor as [->|Hin']; [by left|right; by right].
    + intros q [<-|Hq]; [lia|by apply Hmin].
  - destruct (IH p Hp Hl') as (c' & Hw & Hwf & Hor & Hmin & Hle).
    exists c'. rewrite Hw. repeat split; try done.
    + right. destruct Hor as [->|Hin']; [by left|by right].
    + intros q [<-|Hq]; [lia|by apply Hmin].
    + lia.
Qed.

(** From the zero address on, the walk takes the first candidate. *)
Lemma closestPeer_walk_zero (l : list (Address * nat)) :
  (forall p, In p (map fst l) -> wfAddress p = true) ->
  exists c',
    walkPeers (closestPeerStep addr spf skipPeers) l ZeroAddress = (c', None)
    /\ (candidates spf skipPeers (map fst l) = [] -> c' = ZeroAddress)
    /\ (candidates spf skipPeers (map fst l) <> [] ->
        wfAddress c' = true
        /\ In c' (candidates spf skipPeers (map fst l))
        /\ forall q, In q (candidates spf skipPeers (map fst l)) ->
                     distance addr c' <= distance addr q).
Proof.
  induction l as [|[p po] l IH]; intros Hl.
  { exists ZeroAddress. simpl. repeat split; done. }
  assert (wfAddress p = true) as Hp by (apply Hl; simpl; auto).
  assert (forall q, In q (map fst l) -> wfAddress q = true) as Hl'
    by (intros q Hq; apply Hl; simpl; auto).
  cbn [walkPeers fst snd map]. unfold closestPeerStep at 1.
  unfold candidates. cbn [List.filter]. fold (skipped skipPeers p).
  fold (candidates spf skipPeers (map fst l)).
  destruct (skipped skipPeers p) eqn:Hsk; cbn [negb andb fst snd].
  { apply IH; done. }
  destruct (spf p) eqn:Hspf; cbn [negb andb fst snd].
  { apply IH; done. }
  change (IsZero ZeroAddress) with true. cbv iota. cbn [fst snd].
  destruct (closestPeer_walk_from l p Hp Hl')
    as (c' & Hw & Hwf & Hor & Hmin & Hle).
  exists c'. rewrite Hw. split; [done|]. split; [done|]. intros _.
  split; [done|]. split.
  - destruct Hor as [->|Hin]; [by left|by right].
  - intros q [<-|Hq]; [lia|by apply Hmin].
Qed.

End ClosestPeerHelper.

Section ClosestPeerExtra.
Import Infinity pslice Kademlia.

(** X1: the helper [closestPeer] answers NotFound exactly when every
    peer of the slice is skipped or sanctioned, and otherwise returns
    one of the remaining peers whose XOR distance to the target is
    smallest. *)
Theorem X1_closestPeer_minimal (peers : PSlice) (addr : Address)
  (spf : Address -> bool) (skipPeers : list Address) :
  wfAddress addr = true ->
  (forall p, In p (peersOf peers) -> wfAddress p = true) ->
  let cands := candidates spf skipPeers (peersOf peers) in
  (closestPeer peers addr spf skipPeers = inr ErrNotFound <-> cands = [])
  /\ (cands <> [] ->
      exists p,
        closestPeer peers addr spf skipPeers = inl p
        /\ In p cands
        /\ forall q, In q cands -> distance addr p <= distance addr q).
Proof.
  intros Haddr Hpeers cands. unfold closestPeer, EachBinRev.
  rewrite (eachOfBins_walk _ (closestPeerStep_no_jump addr spf skipPeers)).
  fold (farthestFirst peers).
  destruct (closestPeer_walk_zero addr spf skipPeers Haddr
              (farthestFirst peers) Hpeers) as (c' & Hw & Hnone & Hsome).
  rewrite Hw. fold (peersOf peers) in Hnone, Hsome. fold cands in Hnone, Hsome.
  destruct (decide (cands = [])) as [Hnil|Hne].
  - rewrite (Hnone Hnil). change (IsZero ZeroAddress) with true.
    split; [done|]. intros; done.
  - destruct (Hsome Hne) as (Hwf & Hin & Hmin).
    rewrite (wfAddress_not_zero c' Hwf). split; [split; done|].
    intros _. by exists c'.
Qed.

Lemma X1_closestPeer_witness :
  let s := sliceOf [[addrOf 128]; [addrOf 64; addrOf 96]] in
  let spf := fun p => Equal p (addrOf 96) in
  exists p,
    closestPeer s (addrOf 112) spf [ZeroAddress] = inl p
    /\ distance (addrOf 112) p <= distance (addrOf 112) (addrOf 64).
Proof.
  intros s spf.
  assert (forall p, In p (peersOf s) -> wfAddress p = true) as Hwf.
  { intros p Hp. vm_compute in Hp.
    destruct Hp as [<-|[<-|[<-|[]]]]; reflexivity. }
  destruct (X1_closestPeer_minimal s (addrOf 112) spf [ZeroAddress]
              eq_refl Hwf) as [_ Hsome].
  destruct Hsome as (p & Hp & _ & Hmin); [by vm_compute|].
  exists p. split; [exact Hp|]. apply Hmin. vm_compute. tauto.
Defined.

End ClosestPeerExtra.

(** ** Membership in peer slices *)

Section SliceFacts.
Import Infinity pslice Kademlia.

Lemma existsb_In (l : list Address) a :
  existsb (Equal a) l = true <-> In a l.
Proof.
  rewrite existsb_exists. split.
  - intros (x & Hx & Heq). apply Equal_spec in Heq. by subst.
  - intros Hin. exists a. split; [done|]. by apply Equal_spec.
Qed.

Lemma Exists_In s a : Exists s a = true <-> In a (concat (bins s)).
Proof.
  unfold Exists. rewrite existsb_exists, in_concat. split.
  - intros (b & Hb & Ha). exists b. split; [done|]. by apply existsb_In.
  - intros (b & Hb & Ha). exists b. split; [done|]. by apply existsb_In.
Qed.

Lemma flatten_indexFrom_fst i (bs : list (list Address)) :
  map fst (flatten (indexFrom i bs)) = concat bs.
Proof.
  revert i. induction bs as [|b bs IH]; intros i; [done|].
  unfold flatten in *. simpl. rewrite map_app, IH. f_equal.
  rewrite map_map. simpl. apply map_id.
Qed.

Lemma peersOf_concat s : peersOf s = concat (bins s).
Proof. apply flatten_indexFrom_fst. Qed.

Lemma Exists_peersOf s a : Exists s a = true <-> In a (peersOf s).
Proof. by rewrite peersOf_concat, Exists_In. Qed.

(** A bin and what surrounds it. *)
Lemma bins_split (bs : list (list Address)) po :
  (po < length bs)%nat ->
  exists pre b post,
    bs = pre ++ b :: post /\ length pre = po
    /\ forall f, alter f po bs = pre ++ f b :: post.
Proof.
  revert po. induction bs as [|b0 bs IH]; intros po Hpo; [simpl in Hpo; lia|].
  destruct po as [|po].
  - exists [], b0, bs. repeat split; done.
  - destruct (IH po) as (pre & b & post & -> & Hlen & Halter);
      [simpl in Hpo; lia|].
    exists (b0 :: pre), b, post. repeat split; [simpl; by rewrite Hlen|].
    intros f. simpl. f_equal. apply Halter.
Qed.

Lemma flatten_indexFrom_app i (pre post : list (list Address)) :
  flatten (indexFrom i (pre ++ post))
  = flatten (indexFrom i pre) ++ flatten (indexFrom (i + length pre) post).
Proof.
  revert i. induction pre as [|b pre IH]; intros i.
  { simpl. by rewrite Nat.add_0_r. }
  unfold flatten in *. simpl. rewrite IH, <- app_assoc.
  replace (i + S (length pre))%nat with (S i + length pre)%nat by lia.
  done.
Qed.

Lemma Proximity_bound a b : (Proximity a b <= MaxPO)%nat.
Proof. unfold Proximity. lia. Qed.

Lemma sliceOK_in base s p po :
  sliceOK base s -> In (p, po) (farthestFirst s) ->
  po = Proximity base p /\ In p (nth po (bins s) []).
Proof.
  intros (_ & _ & Hbin) Hin. split; [by apply Hbin|].
  apply flatten_indexFrom_po in Hin as [_ Hin].
  by rewrite Nat.sub_0_r in Hin.
Qed.

Lemma peersOf_in_bin s p :
  In p (peersOf s) -> exists po, In (p, po) (farthestFirst s).
Proof.
  unfold peersOf. rewrite in_map_iff. intros ([q po] & <- & Hin).
  by exists po.
Qed.

(** Adding an absent peer in the bin of its proximity. *)
Lemma Add_sliceOK base s a :
  sliceOK base s ->
  let s' := Add s a (Proximity base a) in
  sliceOK base s'
  /\ forall b, In b (peersOf s') <-> b = a \/ In b (peersOf s).
Proof.
  intros Hok. pose proof Hok as (Hwf & Hnd & Hbin). unfold Add.
  destruct (Exists s a) eqn:Hex.
  { split; [done|]. intros b. split; [tauto|].
    intros [->|Hb]; [by apply Exists_peersOf|done]. }
  assert (~ In a (peersOf s)) as Hnot.
  { intros Hin. apply Exists_peersOf in Hin. congruence. }
  unfold wf in Hwf. apply Nat.eqb_eq in Hwf.
  destruct (bins_split (bins s) (Proximity base a)) as
    (pre & b & post & Hbs & Hlen & Halter).
  { pose proof (Proximity_bound base a). unfold MaxBins, MaxPO in *. lia. }
  cbn zeta.
  assert (peersOf (mkPSlice (alter (cons a) (Proximity base a) (bins s)))
          = concat pre ++ (a :: b) ++ concat post) as Hnew.
  { rewrite peersOf_concat. cbn [bins]. rewrite Halter, concat_app. done. }
  assert (peersOf s = concat pre ++ b ++ concat post) as Hold.
  { rewrite peersOf_concat, Hbs, concat_app. done. }
  assert (forall b', In b' (concat pre ++ (a :: b) ++ concat post)
                     <-> b' = a \/ In b' (peersOf s)) as Hmem.
  { intros b'. rewrite Hold, !in_app_iff. cbn [In].
    intuition congruence. }
  split; [|intros b'; rewrite Hnew; apply Hmem].
  split; [|split].
  - unfold wf. cbn [bins]. rewrite length_alter. by apply Nat.eqb_eq.
  - rewrite Hnew.
    assert (concat pre ++ (a :: b) ++ concat post
            ≡ₚ a :: (concat pre ++ b ++ concat post)) as ->.
    { cbn [app]. symmetry. apply Permutation_middle. }
    apply NoDup_cons. split; [|by rewrite <- Hold].
    rewrite <- Hold. by rewrite list_elem_of_In.
  - intros p po. unfold farthestFirst, indexed. cbn [bins].
    rewrite Halter, flatten_indexFrom_app. intros Hin.
    assert (In (p, po) (flatten (indexFrom 0 (bins s)))
            \/ (p, po) = (a, Proximity base a)) as [Hold'|Heq].
    { rewrite Hbs, flatten_indexFrom_app.
      rewrite in_app_iff in *. destruct Hin as [Hin|Hin]; [left; by left|].
      unfold flatten in *. cbn [indexFrom map concat fst snd] in *.
      rewrite Nat.add_0_l, Hlen in *.
      rewrite in_app_iff in *. cbn [In] in Hin.
      destruct Hin as [[Heq|Hin]|Hin]; [by right|left; right; by left|].
      left; right; by right. }
    + by apply Hbin.
    + by injection Heq as -> ->.
Qed.

End SliceFacts.

Section SliceRemove.
Import Infinity pslice Kademlia.

Lemma filter_notin_id (f : Address -> bool) (l : list Address) :
  (forall x, In x l -> f x = true) -> List.filter f l = l.
Proof.
  induction l as [|x l IH]; intros H; [done|]. simpl.
  rewrite (H x) by (by left). f_equal. apply IH. intros y Hy. apply H.
  by right.
Qed.

Lemma NoDup_List_filter (f : Address -> bool) (l : list Address) :
  NoDup l -> NoDup (List.filter f l).
Proof.
  induction l as [|x l IH]; intros Hnd; [done|].
  apply NoDup_cons in Hnd as [Hx Hl]. simpl.
  destruct (f x); [|by apply IH].
  apply NoDup_cons. split; [|by apply IH].
  rewrite list_elem_of_In, filter_In. rewrite list_elem_of_In in Hx. tauto.
Qed.

Lemma concat_in_flatten i (bs : list (list Address)) p :
  In p (concat bs) -> exists po, In (p, po) (flatten (indexFrom i bs)).
Proof.
  rewrite <- (flatten_indexFrom_fst i), in_map_iff.
  intros ([q po] & <- & Hin). by exists po.
Qed.

(** Removing a peer from the bin of its proximity. *)
Lemma Remove_sliceOK base s a :
  sliceOK base s ->
  let s' := Remove s a (Proximity base a) in
  sliceOK base s'
  /\ forall b, In b (peersOf s') <-> b <> a /\ In b (peersOf s).
Proof.
  intros Hok. pose proof Hok as (Hwf & Hnd & Hbin). unfold Remove.
  unfold wf in Hwf. apply Nat.eqb_eq in Hwf.
  destruct (bins_split (bins s) (Proximity base a)) as
    (pre & b & post & Hbs & Hlen & Halter).
  { pose proof (Proximity_bound base a). unfold MaxBins, MaxPO in *. lia. }
  cbn zeta. set (f := fun p => negb (Equal a p)).
  assert (farthestFirst s
          = flatten (indexFrom 0 pre)
            ++ map (fun p => (p, Proximity base a)) b
            ++ flatten (indexFrom (S (Proximity base a)) post)) as Hff.
  { unfold farthestFirst, indexed. rewrite Hbs, flatten_indexFrom_app.
    unfold flatten. cbn [indexFrom map concat fst snd].
    by rewrite Nat.add_0_l, Hlen. }
  assert (farthestFirst (mkPSlice (alter (List.filter f) (Proximity base a)
                                         (bins s)))
          = flatten (indexFrom 0 pre)
            ++ map (fun p => (p, Proximity base a)) (List.filter f b)
            ++ flatten (indexFrom (S (Proximity base a)) post)) as Hff'.
  { unfold farthestFirst, indexed. cbn [bins].
    rewrite Halter, flatten_indexFrom_app.
    unfold flatten. cbn [indexFrom map concat fst snd].
    by rewrite Nat.add_0_l, Hlen. }
  assert (forall x, In x (concat pre) -> f x = true) as Hpre.
  { intros x Hx. subst f. cbn beta. apply negb_true_iff.
    apply not_true_is_false. rewrite Equal_spec. intros <-.
    destruct (concat_in_flatten 0 pre a Hx) as [po Hpo].
    pose proof (flatten_indexFrom_po _ _ _ _ Hpo) as [Hrange _].
    assert (po = Proximity base a); [|lia].
    apply Hbin. rewrite Hff, in_app_iff. by left. }
  assert (forall x, In x (concat post) -> f x = true) as Hpost.
  { intros x Hx. subst f. cbn beta. apply negb_true_iff.
    apply not_true_is_false. rewrite Equal_spec. intros <-.
    destruct (concat_in_flatten (S (Proximity base a)) post a Hx)
      as [po Hpo].
    pose proof (flatten_indexFrom_po _ _ _ _ Hpo) as [Hrange _].
    assert (po = Proximity base a); [|lia].
    apply Hbin. rewrite Hff, !in_app_iff. right. by right. }
  assert (peersOf (mkPSlice (alter (List.filter f) (Proximity base a)
                                   (bins s)))
          = List.filter f (peersOf s)) as Hnew.
  { rewrite !peersOf_concat. cbn [bins].
    rewrite Halter, Hbs, !concat_app. cbn [concat].
    rewrite !List.filter_app, (filter_notin_id f _ Hpre),
      (filter_notin_id f _ Hpost). done. }
  split; [split; [|split]|].
  - unfold wf. cbn [bins]. rewrite length_alter. by apply Nat.eqb_eq.
  - rewrite Hnew. by apply NoDup_List_filter.
  - intros p po. rewrite Hff'. intros Hin. apply Hbin. rewrite Hff.
    rewrite !in_app_iff in *.
    destruct Hin as [Hin|[Hin|Hin]]; [by left| |right; by right].
    right; left. apply in_map_iff in Hin as (q & Hq & Hin).
    apply filter_In in Hin as [Hin _]. apply in_map_iff. by exists q.
  - intros b'. rewrite Hnew, filter_In. subst f. cbn beta.
    rewrite negb_true_iff. split.
    + intros [Hin Hne]. split; [|done]. intros ->.
      pose proof (proj2 (Equal_spec a a) eq_refl). congruence.
    + intros [Hne Hin]. split; [done|]. apply not_true_is_false.
      rewrite Equal_spec. congruence.
Qed.

End SliceRemove.

(** ** Known and connected peers *)

Section TopologyExtras.
Import Infinity pslice Kademlia.

Lemma Exists_eq (s s' : PSlice) (a : Address) :
  (In a (peersOf s) <-> In a (peersOf s')) -> Exists s a = Exists s' a.
Proof.
  intros H. apply eq_true_iff_eq. by rewrite !Exists_peersOf.
Qed.

(** X2: AddPeers makes every given address a known peer, keeps the
    known peers it had, stores each peer once and in the bin of its
    proximity, and touches neither the connected peers, the depth nor
    the retry state. *)
Theorem X2_AddPeers_known (addrs : list Address) : forall k : Kad,
  sliceOK (base k) (knownPeers k) ->
  let k' := AddPeers k addrs in
  sliceOK (base k') (knownPeers k')
  /\ (forall a, Exists (knownPeers k') a = true
                <-> Exists (knownPeers k) a = true \/ In a addrs)
  /\ base k' = base k
  /\ connectedPeers k' = connectedPeers k
  /\ depth k' = depth k
  /\ waitNext k' = waitNext k
  /\ addressBook k' = addressBook k.
Proof.
  induction addrs as [|a addrs IH]; intros k Hok.
  { cbn. split; [done|]. split; [intros a; tauto|]. by repeat split. }
  cbn [AddPeers fold_left].
  set (k1 := if Exists (knownPeers k) a then k
             else setKnown k (Add (knownPeers k) a (Proximity (base k) a))).
  fold (AddPeers k1 addrs).
  destruct (Add_sliceOK (base k) (knownPeers k) a Hok) as [Hok1 Hmem1].
  assert (base k1 = base k /\ connectedPeers k1 = connectedPeers k
          /\ depth k1 = depth k /\ waitNext k1 = waitNext k
          /\ addressBook k1 = addressBook k
          /\ sliceOK (base k1) (knownPeers k1)
          /\ forall b, Exists (knownPeers k1) b = true
                       <-> b = a \/ Exists (knownPeers k) b = true)
    as (Hb & Hc & Hd & Hw & Hab & Hk1 & Hm1).
  { subst k1. destruct (Exists (knownPeers k) a) eqn:Hex.
    - do 5 (split; [reflexivity|]). split; [exact Hok|].
      intros b. split; [by right|]. by intros [->|H].
    - do 5 (split; [reflexivity|]). split; [exact Hok1|].
      intros b. cbn. rewrite !Exists_peersOf. apply Hmem1. }
  destruct (IH k1 Hk1) as (Hok' & Hmem' & Hb' & Hc' & Hd' & Hw' & Hab').
  cbv zeta in *. split; [done|]. split.
  - intros b. rewrite Hmem', Hm1. cbn [In]. intuition congruence.
  - repeat split; congruence.
Qed.

Lemma X2_AddPeers_witness :
  let k := nodeOf (sliceOf [[addrOf 128]]) (sliceOf []) in
  let k' := AddPeers k [addrOf 64; addrOf 128; addrOf 64] in
  Exists (knownPeers k') (addrOf 64) = true
  /\ connectedPeers k' = connectedPeers k.
Proof.
  intros k k'.
  assert (sliceOK (base k) (knownPeers k)) as Hok.
  { split; [reflexivity|]. split.
    - vm_compute. apply NoDup_singleton.
    - intros p po Hin. vm_compute in Hin. destruct Hin as [[= <- <-]|[]].
      reflexivity. }
  destruct (X2_AddPeers_known [addrOf 64; addrOf 128; addrOf 64] k Hok)
    as (_ & Hmem & _ & Hconn & _).
  split; [|exact Hconn]. apply Hmem. right. by left.
Defined.

(** X3: a peer that connected is a connected and known peer without a
    retry entry; when it disconnects it is no longer connected, still
    known, and may be retried after [timeToRetry] with a fresh
    counter; the other connected peers are the same as before, and
    both slices keep every peer once, in the bin of its proximity. *)
Theorem X3_connect_then_disconnect (k k1 : Kad)
  (bcast : Address -> list Address -> option Err) (a : Address) (now : Z) :
  sliceOK (base k) (connectedPeers k) ->
  sliceOK (base k) (knownPeers k) ->
  connected bcast k a = (k1, None) ->
  let k2 := Disconnected now k1 a in
  (Exists (connectedPeers k1) a = true
   /\ Exists (knownPeers k1) a = true
   /\ waitNext k1 !! a = None)
  /\ (Exists (connectedPeers k2) a = false
      /\ Exists (knownPeers k2) a = true
      /\ waitNext k2 !! a = Some (mkRetry (now + timeToRetry) 0))
  /\ (forall b, b <> a ->
        Exists (connectedPeers k2) b = Exists (connectedPeers k) b
        /\ waitNext k2 !! b = waitNext k !! b)
  /\ sliceOK (base k2) (connectedPeers k2)
  /\ sliceOK (base k2) (knownPeers k2).
Proof.
  intros Hconn Hknown Hrun. unfold connected in Hrun.
  destruct (announce bcast k a); [done|]. injection Hrun as <-.
  cbn [Disconnected setDepth setWaitNext setConnected setKnown base
       connectedPeers knownPeers waitNext].
  destruct (Add_sliceOK (base k) (connectedPeers k) a Hconn) as [Hc1 Hm1].
  destruct (Add_sliceOK (base k) (knownPeers k) a Hknown) as [Hk1 Hmk1].
  destruct (Remove_sliceOK (base k) _ a Hc1) as [Hc2 Hm2].
  cbv zeta in *.
  split; [|split; [|split; [|split]]].
  - split; [|split].
    + apply Exists_peersOf, Hm1. by left.
    + apply Exists_peersOf, Hmk1. by left.
    + apply lookup_delete_eq.
  - split; [|split].
    + apply not_true_is_false. rewrite Exists_peersOf, Hm2. tauto.
    + apply Exists_peersOf, Hmk1. by left.
    + apply lookup_insert_eq.
  - intros b Hb. split.
    + apply Exists_eq. rewrite Hm2, Hm1. intuition congruence.
    + rewrite lookup_insert_ne by done. by rewrite lookup_delete_ne.
  - done.
  - done.
Qed.

Lemma X3_connect_then_disconnect_witness :
  let k := nodeOf (sliceOf [[addrOf 128]]) (sliceOf [[addrOf 128]]) in
  let k1 := fst (connected (fun _ _ => None) k (addrOf 64)) in
  Exists (connectedPeers k1) (addrOf 64) = true
  /\ Exists (connectedPeers (Disconnected 5 k1 (addrOf 64))) (addrOf 64)
     = false.
Proof.
  intros k k1.
  assert (sliceOK (base k) (knownPeers k)) as Hok.
  { split; [reflexivity|]. split.
    - vm_compute. apply NoDup_singleton.
    - intros p po Hin. vm_compute in Hin. destruct Hin as [[= <- <-]|[]].
      reflexivity. }
  destruct (X3_connect_then_disconnect k k1 (fun _ _ => None) (addrOf 64) 5
              Hok Hok eq_refl) as ((H1 & _) & (H2 & _) & _).
  exact (conj H1 H2).
Defined.

End TopologyExtras.

(** ** Gossip, the inbound gate and back-off hints *)

Section GossipExtras.
Import Infinity pslice Kademlia.

Lemma announceStep_no_jump peer st p po :
  snd (fst (snd (announceStep peer st p po))) = false.
Proof. unfold announceStep. by destruct (Equal p peer). Qed.

Lemma announce_walk peer (l : list (Address * nat)) (acc : list Address) :
  walkPeers (E:=Err) (announceStep peer) l acc =
  (acc ++ List.filter (fun p => negb (Equal p peer)) (map fst l), None).
Proof.
  revert acc. induction l as [|[p po] l IH]; intros acc.
  { cbn. by rewrite app_nil_r. }
  cbn [walkPeers fst snd map List.filter]. unfold announceStep at 1.
  destruct (Equal p peer); cbn [negb fst snd].
  - apply IH.
  - rewrite IH. by rewrite <- app_assoc.
Qed.

Lemma announced_filter k peer :
  announced k peer =
  List.filter (fun p => negb (Equal p peer)) (peersOf (connectedPeers k)).
Proof.
  unfold announced, EachBinRev.
  rewrite (eachOfBins_walk _ (announceStep_no_jump peer)).
  fold (farthestFirst (connectedPeers k)). by rewrite announce_walk.
Qed.

(** X4: the peers gossiped to a newly connected peer are the connected
    peers other than that peer itself, farthest bin first; with no such
    peer nothing is broadcast, otherwise the answer of the one
    broadcast is the result. *)
Theorem X4_announce_others (k : Kad) (peer : Address)
  (bcast : Address -> list Address -> option Err) :
  announced k peer =
    List.filter (fun p => negb (Equal p peer)) (peersOf (connectedPeers k))
  /\ ~ In peer (announced k peer)
  /\ (forall q, In q (peersOf (connectedPeers k)) -> q <> peer ->
        In q (announced k peer))
  /\ announce bcast k peer =
       match announced k peer with
       | [] => None
       | _ :: _ => bcast peer (announced k peer)
       end.
Proof.
  split; [apply announced_filter|]. split; [|split].
  - rewrite announced_filter, filter_In. intros [_ H].
    apply negb_true_iff in H.
    assert (Equal peer peer = true) as He by by apply Equal_spec.
    congruence.
  - intros q Hq Hne. rewrite announced_filter, filter_In. split; [done|].
    apply negb_true_iff, not_true_is_false. rewrite Equal_spec. done.
  - unfold announce. fold (announced k peer).
    by destruct (announced k peer).
Qed.

(** X5: with the default saturation function an inbound peer is
    refused as oversaturated exactly when the node is no bootnode, the
    bin of the peer is shallower than the depth recomputed from the
    known peers, and that bin already holds at least
    [overSaturationPeers] = 16 connected peers; [Pick] answers the
    same test, and a peer that is not refused goes through
    [connected]. *)
Theorem X5_inbound_gate (k : Kad) (peer : Address)
  (bcast : Address -> list Address -> option Err) :
  saturationFunc k = binSaturated ->
  let po := Proximity (base k) peer in
  let refused :=
    negb (bootnode k)
    && (po <? recalcDepth (knownPeers k))%nat
    && (overSaturationPeers <=? countPO (connectedPeers k) po)%nat in
  Pick k peer = negb refused
  /\ Connected bcast k peer =
       (if refused then (k, Some ErrOversaturated)
        else connected bcast k peer).
Proof.
  intros Hsat po refused. unfold Pick, Connected. rewrite Hsat.
  fold po. unfold binSaturated. rewrite binSaturated_size.
  subst refused.
  destruct (bootnode k); cbn [negb andb]; [done|].
  destruct (Nat.leb_spec (recalcDepth (knownPeers k)) po) as [Hle|Hlt].
  - assert ((po <? recalcDepth (knownPeers k))%nat = false) as ->
      by (apply Nat.ltb_ge; lia).
    done.
  - assert ((po <? recalcDepth (knownPeers k))%nat = true) as ->
      by (apply Nat.ltb_lt; lia).
    cbn [snd andb].
    by destruct (overSaturationPeers <=? countPO (connectedPeers k) po)%nat.
Qed.

Lemma X5_inbound_gate_witness :
  let far := map addrOf [128; 129; 130; 131; 132; 133; 134; 135;
                         136; 137; 138; 139; 140; 141; 142; 143] in
  let s := sliceOf [far; [addrOf 64]; [addrOf 32; addrOf 33]] in
  let k := nodeOf s s in
  Pick k (addrOf 200) = false
  /\ Connected (fun _ _ => None) k (addrOf 200) = (k, Some ErrOversaturated)
  /\ Pick k (addrOf 65) = true.
Proof.
  intros far s k.
  destruct (X5_inbound_gate k (addrOf 200) (fun _ _ => None) eq_refl)
    as [Hp Hc].
  destruct (X5_inbound_gate k (addrOf 65) (fun _ _ => None) eq_refl)
    as [Hp' _].
  split; [|split].
  - rewrite Hp. reflexivity.
  - rewrite Hc. reflexivity.
  - rewrite Hp'. reflexivity.
Defined.

Lemma connectBackoffs_snoc k peer hints now after :
  connectBackoffs k peer (hints ++ [(now, after)]) =
  fst (connect (ConnectBackoff after) (fun _ _ => None) now
               (connectBackoffs k peer hints) peer).
Proof. unfold connectBackoffs. by rewrite fold_left_app. Qed.

Lemma connect_backoff_state now after bcast k peer :
  fst (connect (ConnectBackoff after) bcast now k peer) =
  setWaitNext k (<[peer := mkRetry after 0]> (waitNext k)).
Proof. reflexivity. Qed.

(** X6: connect attempts that fail with a back-off hint never prune:
    however many of them follow one another, the address book and both
    peer slices stay as they were, the retry entries of other peers
    are untouched, and after the last one the peer is due at the
    hinted instant with a failure counter of 0, so that a plain failure
    after it counts as the first. *)
Theorem X6_backoff_never_prunes (hints : list (Z * Z)) (k : Kad)
  (peer : Address) :
  let k' := connectBackoffs k peer hints in
  addressBook k' = addressBook k
  /\ knownPeers k' = knownPeers k
  /\ connectedPeers k' = connectedPeers k
  /\ depth k' = depth k
  /\ (forall q, q <> peer -> waitNext k' !! q = waitNext k !! q)
  /\ (forall hs now after, hints = hs ++ [(now, after)] ->
        waitNext k' !! peer = Some (mkRetry after 0)
        /\ forall t, attemptsOf (connectFailures k' peer [t]) peer = 1).
Proof.
  induction hints as [|[now after] hints IH] using rev_ind.
  { cbn. do 4 (split; [done|]). split; [done|].
    intros hs now after H. by destruct hs. }
  cbv zeta in *. rewrite connectBackoffs_snoc, connect_backoff_state.
  destruct IH as (Hab & Hkn & Hcn & Hd & Hoth & _).
  cbn [setWaitNext addressBook knownPeers connectedPeers depth waitNext].
  do 4 (split; [done|]). split.
  - intros q Hq. rewrite lookup_insert_ne by done. by apply Hoth.
  - intros hs now' after' Heq. apply app_inj_tail in Heq as [_ [= <- <-]].
    split; [apply lookup_insert_eq|].
    intros t. unfold connectFailures, attemptsOf.
    cbn [fold_left connect]. unfold connectFailure.
    cbn [waitNext setWaitNext]. rewrite lookup_insert_eq.
    cbn [failedAttempts].
    change (maxConnAttempts <? 0 + 1) with false. cbv iota.
    cbn [fst waitNext setWaitNext]. by rewrite lookup_insert_eq.
Qed.

End GossipExtras.

(** ** Invariants of the depth *)

Section DepthExtras.
Import Infinity pslice Kademlia.

Lemma find_seq_before (f : nat -> bool) i n x :
  List.find f (seq i n) = Some x ->
  forall y, (i <= y < x)%nat -> f y = false.
Proof.
  revert i. induction n as [|n IH]; intros i; [done|].
  cbn [seq List.find]. destruct (f i) eqn:Hf.
  - intros [= <-] y Hy. lia.
  - intros Hx y Hy. destruct (decide (y = i)) as [->|Hne]; [done|].
    apply (IH (S i) Hx). lia.
Qed.

Lemma find_seq_none (f : nat -> bool) i n :
  List.find f (seq i n) = None ->
  forall y, (i <= y < i + n)%nat -> f y = false.
Proof.
  revert i. induction n as [|n IH]; intros i; [intros _ y; lia|].
  cbn [seq List.find]. destruct (f i) eqn:Hf; [done|].
  intros Hx y Hy. destruct (decide (y = i)) as [->|Hne]; [done|].
  apply (IH (S i) Hx). lia.
Qed.

Lemma below_shallowest_empty s b :
  (b < shallowest_empty s)%nat -> (1 <= binSize s b)%nat.
Proof.
  unfold shallowest_empty.
  destruct (List.find _ _) as [x|] eqn:Hf; intros Hb.
  - pose proof (find_seq_before _ _ _ _ Hf b ltac:(lia)) as H.
    apply Nat.eqb_neq in H. lia.
  - pose proof (find_seq_none _ _ _ Hf b) as H.
    unfold MaxBins in H. apply Nat.eqb_neq in H; lia.
Qed.

(** Closest bin first, the POs never increase. *)
Lemma closest_order i (bs : list (list Address)) :
  forall a b x y,
    (a <= b)%nat ->
    nth_error (flatten (rev (indexFrom i bs))) a = Some x ->
    nth_error (flatten (rev (indexFrom i bs))) b = Some y ->
    (snd y <= snd x)%nat.
Proof.
  revert i. induction bs as [|bin bs IH]; intros i a b x y Hab Ha Hb.
  { by destruct a. }
  cbn [indexFrom rev] in Ha, Hb. rewrite flatten_app in Ha, Hb.
  set (L := flatten (rev (indexFrom (S i) bs))) in *.
  assert (forall z, In z (flatten [(i, bin)]) -> snd z = i) as Hlast.
  { intros z. unfold flatten. cbn. rewrite app_nil_r, in_map_iff.
    by intros (p & <- & _). }
  assert (forall z, In z L -> (S i <= snd z)%nat) as Hfirst.
  { intros [p po] Hz. subst L. apply (proj1 (flatten_rev_In _ _)) in Hz.
    apply flatten_indexFrom_po in Hz. cbn. lia. }
  destruct (Nat.lt_ge_cases b (length L)) as [HbL|HbL].
  - rewrite nth_error_app1 in Ha by lia. rewrite nth_error_app1 in Hb by lia.
    by apply (IH (S i) a b).
  - rewrite nth_error_app2 in Hb by lia.
    apply nth_error_In, Hlast in Hb. rewrite Hb.
    destruct (Nat.lt_ge_cases a (length L)) as [HaL|HaL].
    + rewrite nth_error_app1 in Ha by lia.
      apply nth_error_In, Hfirst in Ha. lia.
    + rewrite nth_error_app2 in Ha by lia.
      apply nth_error_In, Hlast in Ha. lia.
Qed.

(** X7: the depth of a slice never exceeds [MaxPO]; every bin
    shallower than the depth holds a peer; and with at least
    [nnLowWatermark] = 2 peers, at least two peers lie at or beyond
    the depth. *)
Theorem X7_depth_invariants (s : PSlice) :
  wf s = true ->
  (recalcDepth s <= MaxPO)%nat
  /\ (forall b, (b < recalcDepth s)%nat -> (1 <= binSize s b)%nat)
  /\ ((nnLowWatermark <= Length s)%nat ->
      (nnLowWatermark
       <= length (List.filter (fun x => (recalcDepth s <=? snd x)%nat)
                              (closestFirst s)))%nat).
Proof.
  intros Hwf. rewrite (recalcDepth_formula s Hwf). unfold depth_spec.
  destruct (Nat.ltb_spec (Length s) nnLowWatermark) as [Hlt|Hge].
  { split; [lia|]. split; [intros b; lia|]. intros H. lia. }
  pose proof (candidate_bound s) as Hb.
  assert (length (bins s) = MaxBins) as Hlen by by apply Nat.eqb_eq.
  rewrite Hlen in Hb. unfold nnLowWatermark, MaxBins, MaxPO in *.
  split; [lia|]. split.
  - intros b Hlt. apply below_shallowest_empty. lia.
  - intros _. pose proof (closestFirst_length s) as Hcl.
    unfold candidate_spec, nnLowWatermark. cbn [Nat.sub].
    destruct (closestFirst s) as [|x [|y l]] eqn:Hcf;
      cbn [length] in Hcl; try lia.
    cbn [nth_error]. destruct y as [q po].
    assert (po <= snd x)%nat as Hord.
    { unfold closestFirst, indexed in Hcf.
      apply (closest_order 0 (bins s) 0 1 x (q, po)); [lia| |];
        by rewrite Hcf. }
    cbn [List.filter snd].
    assert ((Nat.min (shallowest_empty s) po <=? snd x)%nat = true) as ->
      by (apply Nat.leb_le; lia).
    assert ((Nat.min (shallowest_empty s) po <=? po)%nat = true) as ->
      by (apply Nat.leb_le; lia).
    cbn [length]. lia.
Qed.

Lemma X7_depth_invariants_witness :
  let s := sliceOf [[addrOf 128]; [addrOf 64]; [addrOf 32; addrOf 33]] in
  recalcDepth s = 2%nat /\ (1 <= binSize s 1)%nat.
Proof.
  intros s. split; [reflexivity|].
  apply (X7_depth_invariants s eq_refl). vm_compute. lia.
Defined.

End DepthExtras.

(** ** Balance *)

Section BalanceExtras.
Import Infinity pslice Kademlia.

(** Whatever the addresses look like, the walk of [closestPeer] ends
    with its start value or with a peer it met and did not skip. *)
Lemma closestPeer_walk_member addr spf skipPeers
  (l : list (Address * nat)) (c : Address) st e :
  walkPeers (closestPeerStep addr spf skipPeers) l c = (st, e) ->
  st = c \/ In st (candidates spf skipPeers (map fst l)).
Proof.
  revert c. induction l as [|[p po] l IH]; intros c.
  { cbn. intros [= <- _]. by left. }
  cbn [walkPeers fst snd map]. unfold closestPeerStep at 1.
  unfold candidates. cbn [List.filter]. fold (skipped skipPeers p).
  fold (candidates spf skipPeers (map fst l)).
  destruct (skipped skipPeers p); cbn [negb andb]; [apply IH|].
  destruct (spf p); cbn [negb andb]; [apply IH|].
  destruct (IsZero c).
  { intros H. apply IH in H as [->|H]; right; [by left|by right]. }
  destruct (DistanceCmp addr c p) as [d|].
  - destruct (d =? -1).
    + intros H. apply IH in H as [->|H]; right; [by left|by right].
    + intros H. apply IH in H as [->|H]; [by left|right; by right].
  - intros [= <- _]. by left.
Qed.

Lemma closestPeer_member peers addr spf skipPeers p :
  closestPeer peers addr spf skipPeers = inl p ->
  In p (candidates spf skipPeers (peersOf peers)).
Proof.
  unfold closestPeer, EachBinRev.
  rewrite (eachOfBins_walk _ (closestPeerStep_no_jump addr spf skipPeers)).
  fold (farthestFirst peers).
  destruct (walkPeers _ _ _) as [st [e|]] eqn:Hw; [done|].
  destruct (IsZero st) eqn:Hz; [done|]. intros [= <-].
  apply closestPeer_walk_member in Hw as [->|H]; [done|exact H].
Qed.

Lemma balancedFor_sound k bin row :
  balancedFor k bin row = true ->
  forall pseudo, In pseudo row ->
    exists p,
      closestPeer (connectedPeers k) pseudo noopSanctionedPeerFn
                  [ZeroAddress] = inl p
      /\ Z.of_nat bin + bitSuffixLength k + 1
         <= Z.of_nat (ExtendedProximity p pseudo).
Proof.
  induction row as [|a row IH]; [done|]. cbn [balancedFor].
  destruct (closestPeer _ _ _ _) as [p|] eqn:Hc; [|done].
  destruct (Z.ltb_spec (Z.of_nat (ExtendedProximity p a))
              (Z.of_nat bin + bitSuffixLength k + 1)) as [|Hge]; [done|].
  intros Hrest pseudo [<-|Hin]; [by exists p|by apply IH].
Qed.

(** X8: [IsBalanced] answers false for a bin beyond the number of
    prefix rows, fails on the bin that equals that number (the guard
    lets it through to an index out of range), and answers true only
    if every pseudo address of the bin has a connected peer, other
    than the zero address, that shares at least bin + bitSuffixLength
    + 1 leading bits with it; without connected peers a bin with a
    pseudo address is never balanced. *)
Theorem X8_IsBalanced_sound (k : Kad) (bin : nat) :
  ((length (commonBinPrefixes k) < bin)%nat -> IsBalanced k bin = Some false)
  /\ (bin = length (commonBinPrefixes k) -> IsBalanced k bin = None)
  /\ (IsBalanced k bin = Some true ->
      exists row,
        commonBinPrefixes k !! bin = Some row
        /\ forall pseudo, In pseudo row ->
             exists p,
               In p (peersOf (connectedPeers k))
               /\ p <> ZeroAddress
               /\ Z.of_nat bin + bitSuffixLength k + 1
                  <= Z.of_nat (ExtendedProximity p pseudo))
  /\ (forall row pseudo,
        commonBinPrefixes k !! bin = Some row -> In pseudo row ->
        peersOf (connectedPeers k) = [] -> IsBalanced k bin = Some false).
Proof.
  unfold IsBalanced. split; [|split; [|split]].
  - intros H. by apply Nat.ltb_lt in H as ->.
  - intros ->. rewrite Nat.ltb_irrefl.
    by rewrite (lookup_ge_None_2 _ _ (Nat.le_refl _)).
  - destruct (_ <? _)%nat; [done|].
    destruct (commonBinPrefixes k !! bin) as [row|]; [|done].
    intros [= Hb]. exists row. split; [done|]. intros pseudo Hin.
    destruct (balancedFor_sound k bin row Hb pseudo Hin) as (p & Hc & Hpo).
    exists p. apply closestPeer_member in Hc.
    unfold candidates in Hc. apply filter_In in Hc as [Hin' Hf].
    split; [done|]. split; [|done].
    apply andb_true_iff in Hf as [Hsk _]. apply negb_true_iff in Hsk.
    intros ->. unfold skipped in Hsk. cbn in Hsk.
    assert (Equal ZeroAddress ZeroAddress = true) as He by by apply Equal_spec.
    rewrite He in Hsk. done.
  - intros row pseudo Hrow Hin Hnil.
    destruct (Nat.ltb_spec (length (commonBinPrefixes k)) bin); [done|].
    rewrite Hrow. f_equal. apply not_true_is_false. intros Hb.
    destruct (balancedFor_sound k bin row Hb pseudo Hin) as (p & Hc & _).
    apply closestPeer_member in Hc. unfold candidates in Hc.
    apply filter_In in Hc as [Hin' _]. rewrite Hnil in Hin'. done.
Qed.

End BalanceExtras.

(** ** Hive: a failing broadcast, and the inbound side *)

Section HiveExtras.
Import Infinity Hive.

(** X9: a broadcast that fails stops at the first batch whose send
    fails: every batch before it went out as one message on a stream
    of its own, the failing send wrote no message and reset the stream
    if it had opened one, and no later batch was tried. *)
Theorem X9_broadcast_stops_at_failure (env : Env) (n : nat)
  (addressee : Address) (peers : list Address) (ev : list Event) (e : Err) :
  BroadcastPeers env n addressee peers = Some (ev, Some e) ->
  exists i b evfail,
    batches peers !! i = Some b
    /\ sendPeers env (n + i) addressee b = (evfail, Some e)
    /\ (evfail = [] \/ evfail = [NewStream (n + i) addressee; Reset (n + i)])
    /\ ev = sendAll env n addressee (take i (batches peers)) ++ evfail
    /\ messages ev = map (recordsOf env) (take i (batches peers)).
Proof.
  intros Hrun. unfold BroadcastPeers in Hrun.
  apply broadcastLoop_failure in Hrun as (i & b & evfail & Hb & Hs & Hev);
    [|by left].
  destruct (sendPeers_failed _ _ _ _ _ _ Hs) as [Hm Hshape].
  exists i, b, evfail. do 4 (split; [done|]).
  rewrite Hev, messages_app, messages_sendAll, Hm. by rewrite app_nil_r.
Qed.

Lemma X9_broadcast_witness :
  let env := mkEnv (abGet sampleEnv)
                   (fun n => if (n =? 2)%nat then Some 5 else None)
                   (fun _ => None) in
  exists ev,
    BroadcastPeers env 0 [1] (samplePeers 95) = Some (ev, Some (ErrNewStream 5))
    /\ map length (messages ev) = [15; 15]%nat.
Proof.
  intros env.
  destruct (BroadcastPeers env 0 [1] (samplePeers 95)) as [[ev [e|]]|] eqn:Hrun;
    try (vm_compute in Hrun; discriminate).
  assert (e = ErrNewStream 5) as -> by (vm_compute in Hrun; congruence).
  exists ev. split; [reflexivity|].
  destruct (X9_broadcast_stops_at_failure env 0 [1] (samplePeers 95) ev
              (ErrNewStream 5) Hrun) as (i & b & evfail & Hb & Hs & _ & _ & Hm).
  rewrite Hm.
  assert (i = 2%nat) as ->.
  { destruct i as [|[|[|[|i]]]]; vm_compute in Hb; try discriminate;
      injection Hb as <-; vm_compute in Hs; try discriminate. reflexivity. }
  reflexivity.
Defined.

End HiveExtras.

Section HandlerExtras.
Import Infinity.
Context {PublicKey Multiaddr : Type}.
Variable Recover : list Z -> list Z -> option PublicKey.
Variable NewOverlayAddress : PublicKey -> Z -> option Address.
Variable NewMultiaddrBytes : list Z -> option Multiaddr.
Variable putErr : Address -> option Z.
Variable networkID : Z.

Local Abbreviation parse :=
  (Ifi.ParseAddress Recover NewOverlayAddress NewMultiaddrBytes).
Local Abbreviation acceptPeers :=
  (HivePeers.acceptPeers Recover NewOverlayAddress NewMultiaddrBytes putErr
     networkID).
Local Abbreviation accepted :=
  (HivePeers.accepted Recover NewOverlayAddress NewMultiaddrBytes putErr
     networkID).

Lemma ParseAddress_inl underlay overlay signature nid a :
  parse underlay overlay signature nid = inl a ->
  Ifi.verifies Recover NewOverlayAddress underlay overlay signature nid
  /\ NewMultiaddrBytes underlay = Some (Ifi.Underlay a)
  /\ Ifi.Overlay a = overlay
  /\ Ifi.Signature a = signature.
Proof.
  unfold Ifi.ParseAddress, Ifi.verifies.
  destruct (Recover _ _) as [pk|] eqn:Hrec; [|done].
  destruct (NewOverlayAddress pk nid) as [o|] eqn:Hov; [|done].
  destruct (bool_decide (o = overlay)) eqn:Heq; [|done].
  apply bool_decide_eq_true in Heq. subst o. cbn [negb].
  destruct (NewMultiaddrBytes underlay) as [m|]; [|done].
  intros [= <-]. split; [by exists pk|]. done.
Qed.

Lemma accepted_spec r :
  accepted r = true <->
  exists a, parse (Hive.Underlay r) (Hive.Overlay r) (Hive.Signature r)
                  networkID = inl a
            /\ putErr (Hive.Overlay r) = None.
Proof.
  unfold HivePeers.accepted.
  destruct (parse _ _ _ _) as [a|] eqn:Hp.
  - destruct (ParseAddress_inl _ _ _ _ _ Hp) as (_ & _ & Ho & _).
    rewrite Ho. destruct (putErr (Hive.Overlay r)).
    + split; [done|]. by intros (? & _ & ?).
    + split; [|done]. intros _. by exists a.
  - split; [done|]. by intros (? & ? & _).
Qed.

Lemma acceptPeers_spec (req : list Hive.IfiAddress) : forall book peers,
  let out := acceptPeers book peers req in
  snd out = peers ++ map Hive.Overlay (List.filter accepted req)
  /\ (forall o, ~ In o (map Hive.Overlay (List.filter accepted req)) ->
        fst out !! o = book !! o)
  /\ (forall o, In o (map Hive.Overlay (List.filter accepted req)) ->
        exists r a,
          In r req /\ Hive.Overlay r = o
          /\ parse (Hive.Underlay r) o (Hive.Signature r) networkID = inl a
          /\ fst out !! o = Some a).
Proof.
  induction req as [|r req IH]; intros book peers.
  { cbn. rewrite app_nil_r. done. }
  cbn [HivePeers.acceptPeers List.filter].
  destruct (accepted r) eqn:Hacc.
  - apply accepted_spec in Hacc as (a & Hp & Hput). rewrite Hp.
    destruct (ParseAddress_inl _ _ _ _ _ Hp) as (_ & _ & Ho & _).
    rewrite Ho, Hput.
    destruct (IH (<[Hive.Overlay r := a]> book) (peers ++ [Hive.Overlay r]))
      as (H1 & H2 & H3).
    cbv zeta in *. cbn [map]. split; [|split].
    + rewrite H1, <- app_assoc. done.
    + intros o Hno. rewrite H2 by (intros Hin; apply Hno; by right).
      rewrite lookup_insert_ne; [done|]. intros <-. apply Hno. by left.
    + intros o Hin.
      destruct (decide (o ∈ map Hive.Overlay (List.filter accepted req)))
        as [Hlater|Hnot]; rewrite list_elem_of_In in *.
      * destruct (H3 o Hlater) as (r' & a' & ? & ?).
        exists r', a'. split; [by right|done].
      * destruct Hin as [<-|Hin]; [|done].
        exists r, a. split; [by left|]. split; [done|]. split; [done|].
        rewrite H2 by done. apply lookup_insert_eq.
  - assert (acceptPeers book peers (r :: req) = acceptPeers book peers req)
      as Hskip.
    { cbn [HivePeers.acceptPeers]. unfold HivePeers.accepted in Hacc.
      destruct (parse _ _ _ _) as [a|]; [|done].
      by destruct (putErr (Ifi.Overlay a)). }
    cbn [HivePeers.acceptPeers] in Hskip. rewrite Hskip.
    destruct (IH book peers) as (H1 & H2 & H3). split; [done|].
    split; [done|]. intros o Ho. destruct (H3 o Ho) as (r' & a' & ? & ?).
    exists r', a'. split; [by right|done].
Qed.

(** X10: the inbound hive handler hands to the add-peers handler
    exactly the overlays of the records of the message that parse (the
    signature verifies for the node's network id and the underlay is
    a multiaddress) and that the address book stored, in the order of
    the message; each of them is then in the address book with a
    parsed record of the message, every other entry of the address
    book is as before, and a message that cannot be read resets the
    stream and changes nothing. *)
Theorem X10_peersHandler_verified
  (addPeersHandler : option (list Address -> option Z))
  (book : gmap Address (@Ifi.IfiAddr Multiaddr))
  (msg : list Hive.IfiAddress + Z) :
  let out := HivePeers.peersHandler Recover NewOverlayAddress
               NewMultiaddrBytes putErr networkID addPeersHandler book msg in
  (forall code, msg = inr code ->
     out = HivePeers.mkOutcome book [HivePeers.StreamReset] None
             (Some (HivePeers.ErrReadMsg code)))
  /\ (forall req, msg = inl req ->
        let peers := map Hive.Overlay (List.filter accepted req) in
        HivePeers.stream out = [HivePeers.StreamFullClose]
        /\ HivePeers.handed out
           = match addPeersHandler with Some _ => Some peers | None => None end
        /\ HivePeers.result out
           = match addPeersHandler with
             | Some h =>
                 match h peers with
                 | Some code => Some (HivePeers.ErrAddPeers code)
                 | None => None
                 end
             | None => None
             end
        /\ (forall o, ~ In o peers -> HivePeers.book' out !! o = book !! o)
        /\ (forall o, In o peers ->
              exists r a,
                In r req /\ Hive.Overlay r = o
                /\ Ifi.verifies Recover NewOverlayAddress (Hive.Underlay r) o
                     (Hive.Signature r) networkID
                /\ HivePeers.book' out !! o = Some a
                /\ Ifi.Overlay a = o
                /\ Ifi.Signature a = Hive.Signature r)).
Proof.
  intros out. subst out. split.
  { by intros code ->. }
  intros req -> peers. unfold HivePeers.peersHandler.
  destruct (acceptPeers_spec req book []) as (H1 & H2 & H3).
  destruct (acceptPeers book [] req) as [book1 ps] eqn:Hacc.
  cbn [fst snd app] in H1, H2, H3. subst ps. fold peers.
  assert (forall o, In o peers ->
            exists r a,
              In r req /\ Hive.Overlay r = o
              /\ Ifi.verifies Recover NewOverlayAddress (Hive.Underlay r) o
                   (Hive.Signature r) networkID
              /\ book1 !! o = Some a
              /\ Ifi.Overlay a = o
              /\ Ifi.Signature a = Hive.Signature r) as H3'.
  { intros o Ho. destruct (H3 o Ho) as (r & a & Hin & Hov & Hp & Hb).
    destruct (ParseAddress_inl _ _ _ _ _ Hp) as (Hv & _ & Hao & Has).
    by exists r, a. }
  destruct addPeersHandler as [h|]; [destruct (h peers)|]; done.
Qed.

End HandlerExtras.

(** ** Ifi: what a signature binds *)

Section SignDataExtras.
Import Infinity Ifi.

Lemma putUint64BE_value (v : Z) : beValue (putUint64BE v) = v mod 2 ^ 64.
Proof.
  unfold putUint64BE.
  assert (0 <= v mod 2 ^ 64 < 2 ^ 64) as Hw by (apply Z.mod_pos_bound; lia).
  set (w := v mod 2 ^ 64) in *.
  cbn [seq map beValue length Z.of_nat Pos.of_succ_nat Pos.succ Nat.sub].
  change (8 * (7 - Z.of_nat 0)) with 56. change (8 * (7 - Z.of_nat 1)) with 48.
  change (8 * (7 - Z.of_nat 2)) with 40. change (8 * (7 - Z.of_nat 3)) with 32.
  change (8 * (7 - Z.of_nat 4)) with 24. change (8 * (7 - Z.of_nat 5)) with 16.
  change (8 * (7 - Z.of_nat 6)) with 8. change (8 * (7 - Z.of_nat 7)) with 0.
  change (2 ^ 64) with 18446744073709551616 in Hw.
  change (2 ^ 56) with 72057594037927936. change (2 ^ 48) with 281474976710656.
  change (2 ^ 40) with 1099511627776. change (2 ^ 32) with 4294967296.
  change (2 ^ 24) with 16777216. change (2 ^ 16) with 65536.
  change (2 ^ 8) with 256. change (2 ^ 0) with 1.
  change (256 ^ 7) with 72057594037927936. change (256 ^ 6) with 281474976710656.
  change (256 ^ 5) with 1099511627776. change (256 ^ 4) with 4294967296.
  change (256 ^ 3) with 16777216. change (256 ^ 2) with 65536.
  change (256 ^ 1) with 256. change (256 ^ 0) with 1.
  Z.div_mod_to_equations. lia.
Qed.

End SignDataExtras.

Section SignDataTheorems.
Import Infinity Ifi.

Lemma putUint64BE_length v : length (putUint64BE v) = 8%nat.
Proof. reflexivity. Qed.

(** X11: the signed data binds the underlay, the overlay and the
    network id together only for overlays of one length: it has 18 + 8
    bytes besides the underlay and the overlay; for overlays of equal
    length, equal signed data means equal underlay, equal overlay and
    equal network id (as 64-bit numbers); and bytes moved from the end
    of the underlay to the front of the overlay leave the signed data
    the same. *)
Theorem X11_sign_data_binds :
  (forall underlay overlay networkID,
     length (generateSignData underlay overlay networkID)
     = (18 + length underlay + length overlay + 8)%nat)
  /\ (forall u1 u2 o1 o2 n1 n2,
        length o1 = length o2 ->
        generateSignData u1 o1 n1 = generateSignData u2 o2 n2 ->
        u1 = u2 /\ o1 = o2 /\ n1 mod 2 ^ 64 = n2 mod 2 ^ 64)
  /\ (forall u x o n,
        generateSignData (u ++ x) o n = generateSignData u (x ++ o) n).
Proof.
  unfold generateSignData. split; [|split].
  - intros u o n. rewrite !length_app, putUint64BE_length. reflexivity.
  - intros u1 u2 o1 o2 n1 n2 Hlen Heq.
    apply app_inj_2 in Heq as [Heq Hn];
      [|by rewrite !putUint64BE_length].
    apply app_inj_2 in Heq as [Heq Ho]; [|done].
    apply app_inv_head in Heq. split; [done|]. split; [done|].
    by rewrite <- !putUint64BE_value, Hn.
  - intros u x o n. by rewrite <- !app_assoc.
Qed.

End SignDataTheorems.

Section RoundTripExtras.
Import Infinity Ifi.
Context {PublicKey Multiaddr : Type}.
Variable Recover : list Z -> list Z -> option PublicKey.
Variable NewOverlayAddress : PublicKey -> Z -> option Address.
Variable NewMultiaddrBytes : list Z -> option Multiaddr.
Variable Sign : list Z -> option (list Z).
Variable MarshalBinary : Multiaddr -> option (list Z).

(** X12: a record made by [NewAddress] parses back to itself: when the
    signer's signatures recover its public key, the overlay is the one
    of that key for the network id, and the multiaddress codec reads
    back what it wrote, then [ParseAddress] on the bytes of the record
    gives the record. *)
Theorem X12_new_address_parses (pk : PublicKey) (underlay : Multiaddr)
  (overlay : Address) (networkID : Z) (a : @IfiAddr Multiaddr)
  (underlayBinary : list Z) :
  (forall data signature,
     Sign data = Some signature -> Recover signature data = Some pk) ->
  NewOverlayAddress pk networkID = Some overlay ->
  MarshalBinary underlay = Some underlayBinary ->
  NewMultiaddrBytes underlayBinary = Some underlay ->
  NewAddress Sign MarshalBinary underlay overlay networkID = inl a ->
  ParseAddress Recover NewOverlayAddress NewMultiaddrBytes
    underlayBinary (Overlay a) (Signature a) networkID = inl a.
Proof.
  intros Hsig Hov Hmar Hun. unfold NewAddress, ParseAddress. rewrite Hmar.
  destruct (Sign _) as [signature|] eqn:Hs; [|done]. intros [= <-].
  cbn [Overlay Signature]. rewrite (Hsig _ _ Hs), Hov.
  rewrite bool_decide_eq_true_2 by done. cbn [negb]. by rewrite Hun.
Qed.

End RoundTripExtras.

Section RoundTripWitness.
Import Infinity Ifi.

Lemma X12_new_address_witness :
  exists a,
    NewAddress (fun d => Some (toySign 7 d)) Some [4; 1] [7; 1] 1 = inl a
    /\ ParseAddress toyRecover toyOverlay toyMultiaddr
         [4; 1] (Overlay a) (Signature a) 1 = inl a.
Proof.
  eexists. split; [reflexivity|].
  apply (X12_new_address_parses toyRecover toyOverlay toyMultiaddr
           (fun d => Some (toySign 7 d)) Some 7 [4; 1] [7; 1] 1).
  - intros data signature [= <-]. unfold toyRecover, toySign.
    rewrite rev_app_distr. cbn [rev app]. rewrite rev_involutive.
    by rewrite bool_decide_eq_true_2.
  - reflexivity.
  - reflexivity.
  - reflexivity.
  - reflexivity.
Defined.

End RoundTripWitness.

(** ** Localstore: the exported multi-get, and the pinned chunks *)

Section GetMultiExtras.
Import Infinity Localstore.

Lemma fillData_complete idx (items : list Item) :
  (exists out, fillData idx items = inl out)
  <-> (forall it, In it items -> is_Some (idx !! Address_ it)).
Proof.
  induction items as [|it items IH]; cbn [fillData].
  { split; [by intros _ ? []|by eexists]. }
  destruct (idx !! Address_ it) as [[ts d]|] eqn:Hit.
  - destruct (fillData idx items) as [out|e] eqn:Hf.
    + split; [|by eexists]. intros _ it' [<-|Hin]; [by rewrite Hit|].
      apply (proj1 IH); [by eexists|done].
    + split; [by intros [? ?]|]. intros Hall.
      destruct (proj2 IH) as [? ?]; [|done].
      intros it' Hin. apply Hall. by right.
  - split; [by intros [? ?]|]. intros Hall.
    destruct (Hall it) as [? H]; [by left|]. by rewrite Hit in H.
Qed.

Lemma fillData_error idx (items : list Item) e :
  fillData idx items = inr e -> e = ErrLevelDBNotFound.
Proof.
  induction items as [|it items IH]; cbn [fillData]; [done|].
  destruct (idx !! Address_ it) as [[ts d]|]; [|by intros [= <-]].
  destruct (fillData idx items); [done|]. intros [= <-]. by apply IH.
Qed.

Lemma fillPin_complete idx (items : list Item) :
  (exists out, fillPin idx items = inl out)
  <-> (forall it, In it items -> is_Some (idx !! Address_ it)).
Proof.
  induction items as [|it items IH]; cbn [fillPin].
  { split; [by intros _ ? []|by eexists]. }
  destruct (idx !! Address_ it) as [c|] eqn:Hit.
  - destruct (fillPin idx items) as [out|e] eqn:Hf.
    + split; [|by eexists]. intros _ it' [<-|Hin]; [by rewrite Hit|].
      apply (proj1 IH); [by eexists|done].
    + split; [by intros [? ?]|]. intros Hall.
      destruct (proj2 IH) as [? ?]; [|done].
      intros it' Hin. apply Hall. by right.
  - split; [by intros [? ?]|]. intros Hall.
    destruct (Hall it) as [? H]; [by left|]. by rewrite Hit in H.
Qed.

Lemma fillPin_error idx (items : list Item) e :
  fillPin idx items = inr e -> e = ErrLevelDBNotFound.
Proof.
  induction items as [|it items IH]; cbn [fillPin]; [done|].
  destruct (idx !! Address_ it) as [c|]; [|by intros [= <-]].
  destruct (fillPin idx items); [done|]. intros [= <-]. by apply IH.
Qed.

Lemma fillPin_keeps idx (items out : list Item) :
  fillPin idx items = inl out ->
  map StoreTimestamp out = map StoreTimestamp items.
Proof.
  revert out. induction items as [|it items IH]; intros out; cbn [fillPin].
  { by intros [= <-]. }
  destruct (idx !! Address_ it) as [c|]; [|done].
  destruct (fillPin idx items) as [out'|]; [|done].
  intros [= <-]. cbn. by rewrite (IH out').
Qed.

Lemma fillPin_data idx (Q : Address -> list Z -> Prop) (items : list Item) :
  forall out,
    fillPin idx items = inl out ->
    Forall (fun it => Q (Address_ it) (Data it)) items ->
    Forall (fun it => Q (Address_ it) (Data it)) out.
Proof.
  induction items as [|it items IH]; intros out; cbn [fillPin].
  { by intros [= <-]. }
  destruct (idx !! Address_ it) as [c|]; [|done].
  destruct (fillPin idx items) as [out'|]; [|done].
  intros [= <-] Hall. inversion Hall; subst. constructor; [done|].
  by apply IH.
Qed.

(** X13: the exported [GetMulti] answers NotFound exactly when one of
    the addresses has no entry in the retrieval index or, in Pin mode,
    none in the pin index, and then leaves the database as it is; an
    unknown mode with every chunk present answers InvalidMode; a
    successful call returns one chunk per address, in the order of the
    addresses, with the stored data and with the pin counter of the
    pin index in Pin mode, which is the one [PinCounter] answers. *)
Theorem X13_GetMulti_answers (now : Z) (db : DB) (mode : ModeGet)
  (addrs : list Address) :
  let out := GetMulti now db mode addrs in
  (snd out = inr StorageErrNotFound <->
     (exists a, In a addrs /\ retrievalDataIndex db !! a = None)
     \/ (mode = ModeGetPin /\ exists a, In a addrs /\ pinIndex db !! a = None))
  /\ (forall e, snd out = inr e -> fst out = db)
  /\ (forall n, mode = ModeGetUnknown n ->
        (forall a, In a addrs -> is_Some (retrievalDataIndex db !! a)) ->
        snd out = inr (StorageErrOther ErrInvalidMode))
  /\ (forall chunks, snd out = inl chunks ->
        map chunkAddress chunks = addrs
        /\ Forall (fun ch => exists ts,
                     retrievalDataIndex db !! chunkAddress ch
                     = Some (ts, chunkData ch)) chunks
        /\ (mode = ModeGetPin ->
            Forall (fun ch => PinCounter_ db (chunkAddress ch)
                              = inl (chunkPinCounter ch)) chunks)).
Proof.
  intros out. subst out. unfold GetMulti, getMulti.
  set (out0 := map (fun addr => mkItem addr [] 0 0 0) addrs).
  assert (map Address_ out0 = addrs) as Hout0.
  { subst out0. rewrite map_map. cbn. apply map_id. }
  assert (forall P : Address -> Prop,
            (forall it, In it out0 -> P (Address_ it))
            <-> (forall a, In a addrs -> P a)) as Hall.
  { intros P. rewrite <- Hout0. split.
    - intros H a Ha. apply in_map_iff in Ha as (it & <- & Hit). by apply H.
    - intros H it Hit. apply H. by apply in_map. }
  assert (forall (idx : gmap Address (Z * list Z)),
            (exists a, In a addrs /\ idx !! a = None)
            <-> ~ (forall a, In a addrs -> is_Some (idx !! a))) as Hneg.
  { intros idx. split.
    - intros (a & Ha & Hn) H. destruct (H a Ha) as [? H']. congruence.
    - intros Hn. clear -Hn. induction addrs as [|a l IH]; [by destruct Hn|].
      destruct (idx !! a) eqn:Ha; [|exists a; split; [by left|done]].
      destruct IH as (b & Hb & Hnb).
      + intros H. apply Hn. intros c [<-|Hc]; [by rewrite Ha|by apply H].
      + exists b. split; [by right|done]. }
  assert (forall (idx : gmap Address Z),
            (exists a, In a addrs /\ idx !! a = None)
            <-> ~ (forall a, In a addrs -> is_Some (idx !! a))) as Hneg'.
  { intros idx. split.
    - intros (a & Ha & Hn) H. destruct (H a Ha) as [? H']. congruence.
    - intros Hn. clear -Hn. induction addrs as [|a l IH]; [by destruct Hn|].
      destruct (idx !! a) eqn:Ha; [|exists a; split; [by left|done]].
      destruct IH as (b & Hb & Hnb).
      + intros H. apply Hn. intros c [<-|Hc]; [by rewrite Ha|by apply H].
      + exists b. split; [by right|done]. }
  pose proof (fillData_complete (retrievalDataIndex db) out0) as Hcomp.
  rewrite (Hall (fun a => is_Some (retrievalDataIndex db !! a))) in Hcomp.
  destruct (fillData (retrievalDataIndex db) out0) as [out|err] eqn:Hfill.
  2:{ apply fillData_error in Hfill as ->. cbn [fst snd].
      split; [|split; [done|split; [|done]]].
      - split; [|done]. intros _. left. apply Hneg. intros H.
        destruct (proj2 Hcomp H) as [? ?]. done.
      - intros n _ H. destruct (proj2 Hcomp H) as [? ?]. done. }
  assert (forall a, In a addrs -> is_Some (retrievalDataIndex db !! a))
    as Hpresent by (apply Hcomp; by eexists).
  destruct (fillData_spec _ _ _ Hfill) as [Haddr Hdata].
  rewrite Hout0 in Haddr.
  assert (forall items : list Item,
            map Address_ items = addrs ->
            Forall (fun it => exists ts, retrievalDataIndex db !! Address_ it
                                         = Some (ts, Data it)) items ->
            let chunks := map (fun ch => mkChunk (Address_ ch) (Data ch)
                                                 (PinCounter ch)) items in
            map chunkAddress chunks = addrs
            /\ Forall (fun ch => exists ts,
                         retrievalDataIndex db !! chunkAddress ch
                         = Some (ts, chunkData ch)) chunks) as Hchunks.
  { intros items Ha Hd. cbv zeta. split.
    - rewrite map_map. cbn. by rewrite <- Ha.
    - apply Forall_map. cbn. done. }
  assert (Forall (fun it => exists ts, retrievalDataIndex db !! Address_ it
                                       = Some (ts, Data it)) out) as Hdata'.
  { eapply Forall_impl; [exact Hdata|]. intros it H.
    exists (StoreTimestamp it). exact H. }
  assert (~ (exists a, In a addrs /\ retrievalDataIndex db !! a = None))
    as Hnone by (rewrite Hneg; tauto).
  destruct mode; cbn [fst snd default].
  - split; [split; [done|intros [?|[? _]]; done]|].
    split; [done|]. split; [done|]. intros chunks [= <-].
    destruct (Hchunks out Haddr Hdata') as [? ?]. done.
  - split; [split; [done|intros [?|[? _]]; done]|].
    split; [done|]. split; [done|]. intros chunks [= <-].
    destruct (Hchunks out Haddr Hdata') as [? ?]. done.
  - split; [split; [done|intros [?|[? _]]; done]|].
    split; [done|]. split; [done|]. intros chunks [= <-].
    destruct (Hchunks out Haddr Hdata') as [? ?]. done.
  - pose proof (fillPin_complete (pinIndex db) out) as Hpc.
    assert ((forall it, In it out -> is_Some (pinIndex db !! Address_ it))
            <-> (forall a, In a addrs -> is_Some (pinIndex db !! a))) as Hall2.
    { rewrite <- Haddr. split.
      - intros H a Ha. apply in_map_iff in Ha as (it & <- & Hit). by apply H.
      - intros H it Hit. apply H. by apply in_map. }
    rewrite Hall2 in Hpc.
    destruct (fillPin (pinIndex db) out) as [out'|err] eqn:Hpin.
    + destruct (fillPin_spec _ _ _ Hpin) as (Ha' & Hd' & Hp').
      cbn [fst snd default].
      split.
      { split; [done|]. intros [?|[_ Hmiss]]; [done|].
        apply Hneg' in Hmiss. destruct Hmiss. apply Hpc. by eexists. }
      split; [done|]. split; [done|]. intros chunks [= <-].
      assert (Forall (fun it => exists ts,
                        retrievalDataIndex db !! Address_ it
                        = Some (ts, Data it)) out') as Hd2.
      { apply (fillPin_data (pinIndex db)
                 (fun a d => exists ts,
                    retrievalDataIndex db !! a = Some (ts, d)) out out' Hpin).
        exact Hdata'. }
      destruct (Hchunks out' ltac:(congruence) Hd2) as [H1 H2].
      split; [done|]. split; [done|]. intros _.
      apply Forall_map. cbn. eapply Forall_impl; [exact Hp'|].
      intros it Hit. unfold PinCounter_. by rewrite Hit.
    + apply fillPin_error in Hpin as ->. cbn [fst snd].
      split; [|done]. split; [|done]. intros _. right. split; [done|].
      apply Hneg'. intros H. destruct (proj2 Hpc H) as [? ?]. done.
  - split; [split; [done|intros [?|[? _]]; done]|].
    split; [done|]. split; [done|]. done.
Qed.

End GetMultiExtras.

Section PinnedExtras.
Import Infinity Localstore.

Lemma wrap64_id z : - 2 ^ 63 <= z < 2 ^ 63 -> wrap64 z = z.
Proof.
  intros H. unfold wrap64. rewrite Z.mod_small; lia.
Qed.

(** Past the offset, with a positive limit: the next [limit] items. *)
Lemma iterate_take (items : list (Address * Z)) : forall limit chunks,
  0 < limit < 2 ^ 63 ->
  snd (iterate pinnedStep items (0, limit, chunks)) =
  chunks ++ map pinnerOf (take (Z.to_nat limit) items).
Proof.
  induction items as [|item items IH]; intros limit chunks Hl.
  { cbn. by rewrite take_nil, app_nil_r. }
  cbn [iterate pinnedStep]. change (0 <? 0) with false. cbv iota.
  rewrite wrap64_id by lia.
  replace (Z.to_nat limit) with (S (Z.to_nat (limit - 1))) by lia.
  cbn [take map]. destruct (Z.eqb_spec (limit - 1) 0) as [H0|Hne].
  - rewrite H0. cbn [snd Z.to_nat take map]. done.
  - rewrite IH by lia. by rewrite <- app_assoc.
Qed.

(** Past the offset, with a limit that is not positive: every item. *)
Lemma iterate_all (items : list (Address * Z)) : forall limit chunks,
  - 2 ^ 63 <= limit <= 0 ->
  Z.of_nat (length items) < 2 ^ 63 ->
  snd (iterate pinnedStep items (0, limit, chunks)) =
  chunks ++ map pinnerOf items.
Proof.
  induction items as [|item items IH]; intros limit chunks Hl Hlen.
  { cbn. by rewrite app_nil_r. }
  cbn [iterate pinnedStep]. change (0 <? 0) with false. cbv iota.
  cbn [length] in Hlen.
  destruct (decide (limit = - 2 ^ 63)) as [->|Hne].
  - (* the counter wraps around to the largest value *)
    change (wrap64 (- 2 ^ 63 - 1)) with (2 ^ 63 - 1).
    change (2 ^ 63 - 1 =? 0) with false. cbv iota.
    rewrite iterate_take by lia.
    rewrite take_ge by lia. cbn [map]. by rewrite <- app_assoc.
  - rewrite wrap64_id by lia.
    destruct (Z.eqb_spec (limit - 1) 0) as [H0|_]; [lia|].
    rewrite IH by lia. cbn [map]. by rewrite <- app_assoc.
Qed.

Lemma iterate_offset (items : list (Address * Z)) : forall offset limit,
  0 <= offset < 2 ^ 63 ->
  iterate pinnedStep items (offset, limit, []) =
  iterate pinnedStep (drop (Z.to_nat offset) items)
          (Z.max 0 (offset - Z.of_nat (length items)), limit, []).
Proof.
  induction items as [|item items IH]; intros offset limit Ho.
  { cbn [iterate length]. rewrite drop_nil. cbn [iterate].
    do 2 f_equal. lia. }
  destruct (Z.ltb_spec 0 offset) as [Hpos|Hz].
  - cbn [iterate pinnedStep].
    assert ((0 <? offset) = true) as -> by by apply Z.ltb_lt.
    rewrite wrap64_id by lia. rewrite IH by lia.
    replace (Z.to_nat offset) with (S (Z.to_nat (offset - 1))) by lia.
    cbn [drop length]. do 3 f_equal. lia.
  - assert (offset = 0) as -> by lia. change (Z.to_nat 0) with 0%nat.
    rewrite drop_0.
    replace (Z.max 0 (0 - Z.of_nat (length (item :: items)))) with 0 by lia.
    done.
Qed.

(** X14: [PinnedChunks] skips [offset] entries of the pin index and
    returns the following ones in the order of the index: at most
    [limit] of them, and never more than [maxPage] = 1000, when the
    limit is positive; but all of them, however many, when the limit
    is zero or negative, since the countdown then never meets zero. *)
Theorem X14_PinnedChunks_page (items : list (Address * Z))
  (offset limit : Z) :
  - 2 ^ 63 <= offset < 2 ^ 63 ->
  - 2 ^ 63 <= limit < 2 ^ 63 ->
  Z.of_nat (length items) < 2 ^ 63 ->
  let rest := drop (Z.to_nat offset) items in
  PinnedChunks None items offset limit =
    inl (map pinnerOf
           (if 0 <? limit then take (Z.to_nat (Z.min limit maxPage)) rest
            else rest))
  /\ (0 < limit ->
      forall chunks, PinnedChunks None items offset limit = inl chunks ->
        Z.of_nat (length chunks) <= maxPage)
  /\ (limit <= 0 ->
      forall chunks, PinnedChunks None items offset limit = inl chunks ->
        length chunks = (length items - Z.to_nat offset)%nat).
Proof.
  intros Ho Hl Hlen rest.
  assert (PinnedChunks None items offset limit =
          inl (map pinnerOf
                 (if 0 <? limit
                  then take (Z.to_nat (Z.min limit maxPage)) rest
                  else rest))) as Heq.
  { unfold PinnedChunks.
    destruct (Nat.eqb_spec (length items) 0) as [H0|Hne].
    { destruct items; [|done]. subst rest. rewrite drop_nil, take_nil.
      by destruct (0 <? limit). }
    f_equal.
    set (limit' := if maxPage <? limit then maxPage else limit).
    assert (limit' = Z.min limit maxPage) as Hlim'.
    { subst limit'. unfold maxPage.
      destruct (Z.ltb_spec 1000 limit); lia. }
    assert (iterate pinnedStep items (offset, limit', []) =
            iterate pinnedStep rest
              (if 0 <? offset
               then Z.max 0 (offset - Z.of_nat (length items)) else offset,
               limit', [])) as Hskip.
    { destruct (Z.ltb_spec 0 offset) as [Hpos|Hneg].
      - by rewrite iterate_offset by lia.
      - subst rest. replace (Z.to_nat offset) with 0%nat by lia.
        by rewrite drop_0. }
    rewrite Hskip. clear Hskip.
    assert (length rest <= length items)%nat as Hrest
      by (subst rest; rewrite length_drop; lia).
    assert (forall off lim,
              (off <= 0 \/ rest = []) ->
              snd (iterate pinnedStep rest (off, lim, [])) =
              snd (iterate pinnedStep rest (0, lim, []))) as Hoff.
    { intros off lim [Hoff| ->]; [|done].
      generalize (@nil Pinner). revert lim.
      induction rest as [|item rest' IH]; intros lim acc; [done|].
      cbn [iterate pinnedStep].
      assert ((0 <? off) = false) as -> by (apply Z.ltb_ge; lia).
      change (0 <? 0) with false. cbv iota.
      destruct (wrap64 (lim - 1) =? 0); [done|].
      apply IH. cbn [length] in Hrest. lia. }
    rewrite Hoff.
    2:{ destruct (Z.ltb_spec 0 offset) as [Hpos|Hneg]; [|left; lia].
        destruct (Z.le_gt_cases offset (Z.of_nat (length items))).
        - left. lia.
        - right. subst rest. apply drop_ge. lia. }
    destruct (Z.ltb_spec 0 limit) as [Hpos|Hneg].
    - rewrite iterate_take by (unfold maxPage in *; lia).
      by rewrite Hlim'.
    - assert (limit' = limit) as -> by (unfold maxPage in *; lia).
      clearbody rest. rewrite iterate_all; [done|lia|lia]. }
  split; [exact Heq|]. split.
  - intros Hpos chunks. rewrite Heq. intros [= <-].
    assert ((0 <? limit) = true) as -> by by apply Z.ltb_lt.
    rewrite length_map, length_take. unfold maxPage. lia.
  - intros Hneg chunks. rewrite Heq. intros [= <-].
    assert ((0 <? limit) = false) as -> by by apply Z.ltb_ge.
    subst rest. by rewrite length_map, length_drop.
Qed.

Lemma X14_PinnedChunks_witness :
  let items := [([1], 1); ([2], 5); ([3], 2); ([4], 1)] in
  PinnedChunks None items 1 2 = inl [mkPinner [2] 5; mkPinner [3] 2]
  /\ (forall chunks, PinnedChunks None items 1 0 = inl chunks ->
        length chunks = 3%nat).
Proof.
  intros items.
  destruct (X14_PinnedChunks_page items 1 2) as (H1 & _ & _);
    [lia|lia|simpl; lia|].
  destruct (X14_PinnedChunks_page items 1 0) as (_ & _ & H3);
    [lia|lia|simpl; lia|].
  split; [exact H1|]. intros chunks Hc. exact (H3 ltac:(lia) chunks Hc).
Defined.

End PinnedExtras.

(** ** Netstore: a retrieved chunk is served locally afterwards *)

Section NetstoreExtras.
Import Infinity Netstore.
Context {S Targets : Type}.

(** X15: a chunk that [Get] fetched from the network is afterwards
    served by the wrapped store: when that store returns what was put
    into it and the retrieval collaborator answered with the chunk of
    the requested address, a [Get] that missed locally and returned the
    chunk leaves a state in which every later [Get] of the address
    returns the same chunk after the one local lookup, without
    retrieval. *)
Theorem X15_retrieved_chunk_is_cached (s : @store S)
  (targets targets' : option Targets) (st st' : S) (mode mode' : ModeGet)
  (addr : Address) (ch : Chunk) (ev : list (Event Targets)) (err : Err) :
  (forall st0 st1 seen m,
     storerPut (storer s) st0 ModePutRequest ch = (st1, inl seen) ->
     storerGet (storer s) st1 m (chunkAddress ch) = (st1, inl ch)) ->
  chunkAddress ch = addr ->
  snd (storerGet (storer s) st mode addr) = inr err ->
  Get s targets st mode addr = (st', ev, inl ch) ->
  ev = [StorerGet mode addr; RetrieveChunk addr; StorerPut ModePutRequest ch]
  /\ Get s targets' st' mode' addr = (st', [StorerGet mode' addr], inl ch).
Proof.
  intros Hlaw Haddr Hlocal. unfold Get at 1.
  destruct (storerGet (storer s) st mode addr) as [st1 [c|e]] eqn:Hget;
    [done|].
  destruct (isNotFound e); [|done].
  destruct (retrieval s addr) as [c|e']; [|by destruct targets, (recoveryCallback s)].
  destruct (storerPut (storer s) st1 ModePutRequest c) as [st2 [seen|e2]] eqn:Hput;
    [|done].
  intros [= <- <- <-]. split; [done|].
  unfold Get. rewrite <- Haddr. by rewrite (Hlaw _ _ _ mode' Hput).
Qed.

End NetstoreExtras.

Section NetstoreExtrasWitness.
Import Infinity Netstore.

Lemma X15_cached_witness :
  let s := mkStore mapStorer (networkWith sampleChunk) false in
  Get s (None : option (list (list Z))) (<[ [7] := sampleChunk ]> ∅)
      ModeGetSync [7]
  = (<[ [7] := sampleChunk ]> ∅, [StorerGet ModeGetSync [7]], inl sampleChunk).
Proof.
  intros s.
  refine (proj2 (X15_retrieved_chunk_is_cached s None None ∅
                   (<[ [7] := sampleChunk ]> ∅) ModeGetRequest ModeGetSync
                   [7] sampleChunk _ ErrNotFound _ eq_refl eq_refl eq_refl)).
  intros st0 st1 seen m [= <- _]. cbn.
  by rewrite lookup_insert_eq.
Defined.

End NetstoreExtrasWitness.

(** ** File: the chunk pipe after Close *)

Section FileExtras.
Import Infinity File.

Local Opaque ChunkSize.

(** X16: after Close the pipe is not reusable, and not every misuse is
    reported: a second Close fails with the closed-pipe error exactly
    when bytes were pending at the first one (they are handed over
    once only); a later Write that does not fill a chunk reports
    success although nothing can be delivered any more, and one that
    fills a chunk fails with the closed-pipe error after taking what
    fits into the buffer; neither hands anything more to the reader. *)
Theorem X16_pipe_after_close (c : ChunkPipe) (acc : list Z) :
  pipeInv c acc ->
  let c1 := fst (Close c) in
  (snd (Close c1) = (if (0 <? cursor c)%nat then Some ErrClosedPipe else None)
   /\ segments (writer (fst (Close c1))) = segments (writer c1))
  /\ (forall b, b <> [] -> (cursor c + length b < ChunkSize)%nat ->
        exists c2,
          Write c1 b = Some (c2, (length b, None))
          /\ writer c2 = writer c1)
  /\ (forall b, b <> [] -> (ChunkSize <= cursor c + length b)%nat ->
        exists c2,
          Write c1 b
          = Some (c2, (Nat.min (length b) (maxBufferSize - cursor c),
                       Some ErrClosedPipe))
          /\ writer c2 = writer c1).
Proof.
  intros (Hlen & Hcur & Hopen & Hsegs & Hacc) c1.
  pose proof ChunkSize_pos as Hpos. pose proof maxBufferSize_eq as Hmax.
  assert (closed (writer c1) = true /\ data c1 = data c
          /\ cursor c1 = cursor c) as (Hclosed & Hdata & Hcursor).
  { subst c1. unfold Close.
    destruct (Nat.ltb_spec 0 (cursor c)) as [Hlt|Hge]; [|done].
    unfold pipeWrite. rewrite Hopen.
    assert (length (take (cursor c) (data c)) = cursor c) as ->
      by (rewrite length_take; lia).
    rewrite Nat.eqb_refl. done. }
  clearbody c1. split; [|split].
  - unfold Close. rewrite Hcursor.
    destruct (Nat.ltb_spec 0 (cursor c)) as [Hlt|Hge]; [|done].
    unfold pipeWrite. rewrite Hclosed. done.
  - intros b Hb Hsmall.
    assert (0 < length b)%nat as Hbl by (destruct b; simpl; [done|lia]).
    unfold Write. destruct (length b) as [|n] eqn:Hn; [lia|].
    rewrite writeLoop_step by lia. rewrite drop_0, Hdata, Hcursor.
    unfold copyAt. cbn [fst snd].
    replace (Nat.min (length (data c) - cursor c) (length b))
      with (length b) by lia.
    cbv zeta.
    assert ((ChunkSize <=? cursor c + length b)%nat = false) as ->
      by (apply Nat.leb_gt; lia).
    rewrite writeLoop_done by (cbn [Nat.add]; lia).
    cbn [Nat.add]. rewrite Hn. by eexists.
  - intros b Hb Hbig.
    assert (0 < length b)%nat as Hbl by (destruct b; simpl; [done|lia]).
    unfold Write. destruct (length b) as [|n] eqn:Hn; [lia|].
    rewrite writeLoop_step by lia. rewrite drop_0, Hdata, Hcursor.
    unfold copyAt. cbn [fst snd]. cbv zeta.
    assert ((ChunkSize <=?
             cursor c + Nat.min (length (data c) - cursor c) (length b))%nat
            = true) as -> by (apply Nat.leb_le; lia).
    unfold pipeWrite. rewrite Hclosed. cbn [Nat.add].
    rewrite Hlen, Hn. rewrite (Nat.min_comm (S n)).
    eexists. split; reflexivity.
Qed.

End FileExtras.

Section FileExtrasWitness.
Import Infinity File.

Lemma X16_pipe_after_close_witness :
  let c1 := fst (Close NewChunkPipe) in
  closed (writer c1) = true
  /\ exists c2, Write c1 [1; 2; 3] = Some (c2, (3%nat, None))
                /\ writer c2 = writer c1.
Proof.
  intros c1. split; [reflexivity|].
  destruct (X16_pipe_after_close NewChunkPipe [] NewChunkPipe_inv)
    as (_ & Hsmall & _).
  apply (Hsmall [1; 2; 3]); [discriminate|].
  apply Nat.ltb_lt. vm_compute. reflexivity.
Defined.

End FileExtrasWitness.
